(** * Otegui_segmentation: a shallow embedding of the nuclear-spot pipeline

    The development follows the Python sources of the pipeline:
    - [segmentation.py]: [parse_filename], [normalize_image], [load_tif],
      [segment_and_measure_spots], [store_measurements_in_sql];
    - [seg_process_batch.py]: [convert_tiff_to_tif],
      [discover_image_folders], [process_folder];
    - [seg_process.py]: [process_images].

    Python strings are modelled as strings of ASCII characters ([string],
    see [is_ascii]); the metadata
    dictionary is a [gmap string value]; NumPy arrays are a shape together
    with a row-major buffer; [np.float32] and [np.float64] arithmetic is the
    IEEE 754 arithmetic of [SpecFloat] at precisions 24 and 53.

    The library calls are modelled by what they compute: [pathlib] and [re]
    on the patterns used, [scipy.ndimage.label] as flood fill in raster
    order, [remove_small_objects], [clear_border] and [regionprops] of
    scikit-image on top of it. The local threshold and the two morphological
    operations, [tifffile.imread] and the plotting are parameters. *)

From Stdlib Require Import ZArith String Ascii List Bool Lia.
From Stdlib Require Import Floats.SpecFloat.
From stdpp Require Import base list strings gmap relations.

Local Open Scope Z_scope.

(* ===================================================================== *)
(** ** Python values stored in dictionaries and rows *)
(* ===================================================================== *)

Inductive value :=
| VNone
| VInt (z : Z)
| VFloat (f : spec_float)
| VStr (s : string).

(* ===================================================================== *)
(** ** Strings: [str.lower], [in], [str.split] *)
(* ===================================================================== *)

(** The model reads a [string] as a Python [str] of ASCII characters: on
    those, [str.lower] changes the letters A-Z only, the class [\d] of [re]
    and the digits read by [int] are 0-9. Outside ASCII, Python also
    lower-cases other letters and takes every Unicode decimal digit; the
    statements about digits are for ASCII strings. *)
Definition is_ascii_char (c : ascii) : bool := (nat_of_ascii c <? 128)%nat.

Fixpoint is_ascii (s : string) : bool :=
  match s with
  | EmptyString => true
  | String c s' => is_ascii_char c && is_ascii s'
  end.

(** [sys.int_info.default_max_str_digits]: [int] raises [ValueError] on a
    string of more digits. *)
Definition max_str_digits : nat := 4300.

Definition is_upper (c : ascii) : bool :=
  let n := nat_of_ascii c in ((65 <=? n) && (n <=? 90))%nat.

Definition lower_ascii (c : ascii) : ascii :=
  if is_upper c then ascii_of_nat (nat_of_ascii c + 32) else c.

(** [s.lower()] on an ASCII string. *)
Fixpoint lower (s : string) : string :=
  match s with
  | EmptyString => EmptyString
  | String c s' => String (lower_ascii c) (lower s')
  end.

(** [\d] on an ASCII character. *)
Definition is_digit (c : ascii) : bool :=
  let n := nat_of_ascii c in ((48 <=? n) && (n <=? 57))%nat.

(** [s.startswith(p)], returning the rest of [s] after [p]. *)
Fixpoint strip_prefix (p s : string) : option string :=
  match p with
  | EmptyString => Some s
  | String a p' =>
      match s with
      | EmptyString => None
      | String b s' => if Ascii.eqb a b then strip_prefix p' s' else None
      end
  end.

Definition starts_with (p s : string) : bool :=
  match strip_prefix p s with Some _ => true | None => false end.

(** [needle in hay]. *)
Fixpoint contains (needle hay : string) : bool :=
  starts_with needle hay ||
  match hay with
  | EmptyString => false
  | String _ hay' => contains needle hay'
  end.

(** [s.split(sep)] for a one-character separator. *)
Fixpoint split_on (sep : ascii) (s : string) : list string :=
  match s with
  | EmptyString => [EmptyString]
  | String c s' =>
      if Ascii.eqb c sep then EmptyString :: split_on sep s'
      else match split_on sep s' with
           | w :: ws => String c w :: ws
           | [] => [String c EmptyString]
           end
  end.

(** [sep.join(l)]. *)
Fixpoint join (sep : string) (l : list string) : string :=
  match l with
  | [] => ""
  | [x] => x
  | x :: rest => x +:+ sep +:+ join sep rest
  end.

(** [int(s)] for a string of decimal digits. *)
Definition digit_val (c : ascii) : Z := Z.of_nat (nat_of_ascii c) - 48.

Fixpoint int_of_digits_aux (acc : Z) (s : string) : Z :=
  match s with
  | EmptyString => acc
  | String c s' => int_of_digits_aux (10 * acc + digit_val c) s'
  end.

Definition int_of_digits (s : string) : Z := int_of_digits_aux 0 s.

(* ===================================================================== *)
(** ** [pathlib.Path] on a POSIX system *)
(* ===================================================================== *)

(** A parsed path: the root (["" ], ["/"] or ["//"]) and the non-empty,
    non-["."] segments after it. *)
Record Path := { root : string; tail : list string }.

(** [posixpath.splitroot]: relative; exactly two leading slashes; otherwise
    one root slash and the remainder [p[1:]]. *)
Definition splitroot (p : string) : string * string :=
  match p with
  | String "/" (String "/" (String "/" r)) => ("/", String "/" (String "/" r))
  | String "/" (String "/" r) => ("//", r)
  | String "/" r => ("/", r)
  | _ => ("", p)
  end.

Definition keep_segment (x : string) : bool :=
  negb (String.eqb x "") && negb (String.eqb x ".").

(** [pathlib.Path(file_path)]. *)
Definition mkPath (file_path : string) : Path :=
  let '(rt, rel) := splitroot file_path in
  {| root := rt; tail := filter (fun x => keep_segment x = true) (split_on "/" rel) |}.

(** [p.parts]. *)
Definition parts (p : Path) : list string :=
  if String.eqb (root p) "" then tail p else root p :: tail p.

(** [p.name]. *)
Definition name (p : Path) : string := List.last (tail p) "".

(** [str(p)]. *)
Definition str (p : Path) : string :=
  let s := root p +:+ join "/" (tail p) in
  if String.eqb s "" then "." else s.

(* ===================================================================== *)
(** ** The regular expressions of [parse_filename] *)
(* ===================================================================== *)

(** The three patterns use literals, one capturing group [(\d+)] and a
    positive lookahead on a literal. *)
Inductive re_item :=
| Lit (s : string)          (* literal text *)
| Digits                    (* (\d+) : greedy, capturing *)
| Lookahead (s : string).   (* (?=literal) *)

(** Greedy [(\d+)] followed by the continuation [k]: the longest run is
    tried first, then shorter ones (backtracking). *)
Fixpoint greedy_digits (k : string -> bool) (s : string) : option string :=
  match s with
  | EmptyString => None
  | String c s' =>
      if is_digit c then
        match greedy_digits k s' with
        | Some g => Some (String c g)
        | None => if k s' then Some (String c EmptyString) else None
        end
      else None
  end.

(** Match the pattern at the start of [s]; the result is group 1. *)
Fixpoint match_here (pat : list re_item) (s : string) : option string :=
  match pat with
  | [] => Some EmptyString
  | Lit l :: pat' =>
      match strip_prefix l s with
      | Some s' => match_here pat' s'
      | None => None
      end
  | Lookahead l :: pat' =>
      if starts_with l s then match_here pat' s else None
  | Digits :: pat' =>
      greedy_digits (fun s' => match match_here pat' s' with
                               | Some _ => true | None => false end) s
  end.

(** [re.search(pat, s)]: leftmost match; the result is group 1. *)
Fixpoint re_search (pat : list re_item) (s : string) : option string :=
  match match_here pat s with
  | Some g => Some g
  | None =>
      match s with
      | EmptyString => None
      | String _ s' => re_search pat s'
      end
  end.

Definition re_seedling : list re_item := [Lit "seedling"; Digits].
Definition re_zslice   : list re_item := [Lit "_z"; Digits].
Definition re_channel  : list re_item := [Lit "c"; Digits; Lookahead ".tif"].

(* ===================================================================== *)
(** ** [parse_filename] *)
(* ===================================================================== *)

(** [next((r for r in keywords if any(r in s for s in parts)), "unknown")] *)
Definition first_keyword (keywords segs : list string) : string :=
  match List.find (fun r => existsb (contains r) segs) keywords with
  | Some r => r
  | None => "unknown"
  end.

Definition parse_filename (file_path : string) : gmap string value :=
  let p := mkPath file_path in
  let fname := lower (name p) in
  let segs := map lower (parts p) in
  let region := first_keyword ["meristem"; "elongation"] segs in
  let genotype := first_keyword ["control"; "mutant"] segs in
  let seedling := re_search re_seedling fname in
  let zslice := re_search re_zslice fname in
  let channel := re_search re_channel fname in
  <["filename" := VStr (str p)]>
  (<["region" := VStr region]>
  (<["genotype" := VStr genotype]>
  (<["seedling" := match seedling with
                   | Some g => VInt (int_of_digits g) | None => VNone end]>
  (<["zslice" := match zslice with
                 | Some g => VInt (int_of_digits g) | None => VNone end]>
  (<["channel" := match channel with
                  | Some g => VStr ("c" +:+ g) | None => VStr "unknown" end]>
  (<["magnification" := VStr "40x"]>
  (<["fluorophore" := VStr "mCherry-H2B"]> ∅))))))).

Example parse_docstring_example :
  let m := parse_filename "control_elongation_zone/h2b-..._seedling12_elong_z16c1.tif" in
  m !! "region" = Some (VStr "elongation") /\
  m !! "genotype" = Some (VStr "control") /\
  m !! "seedling" = Some (VInt 12) /\
  m !! "zslice" = Some (VInt 16) /\
  m !! "channel" = Some (VStr "c1").
Proof. vm_compute. repeat split; reflexivity. Qed.

Example parse_stitched_example :
  let m := parse_filename "istl_mutant_elongation_zone/h2b-istl345_seedling3_elong.tif" in
  m !! "region" = Some (VStr "elongation") /\
  m !! "genotype" = Some (VStr "mutant") /\
  m !! "seedling" = Some (VInt 3) /\
  m !! "zslice" = Some VNone /\
  m !! "channel" = Some (VStr "unknown").
Proof. vm_compute. repeat split; reflexivity. Qed.

(* ===================================================================== *)
(** ** IEEE 754 arithmetic: [np.float32] and [np.float64] *)
(* ===================================================================== *)

Definition f32_of_Z (z : Z) : spec_float := binary_normalize 24 128 z 0 false.
Definition f32_sub : spec_float -> spec_float -> spec_float := SFsub 24 128.
Definition f32_div : spec_float -> spec_float -> spec_float := SFdiv 24 128.
Definition f32_mul : spec_float -> spec_float -> spec_float := SFmul 24 128.

Definition f64_of_Z (z : Z) : spec_float := binary_normalize 53 1024 z 0 false.
Definition f64_add : spec_float -> spec_float -> spec_float := SFadd 53 1024.
Definition f64_div : spec_float -> spec_float -> spec_float := SFdiv 53 1024.
Definition f64_mul : spec_float -> spec_float -> spec_float := SFmul 53 1024.

(** [np.minimum] and [np.maximum] on two numbers (neither is NaN here). *)
Definition f_min (a b : spec_float) : spec_float := if SFltb b a then b else a.
Definition f_max (a b : spec_float) : spec_float := if SFltb a b then b else a.

(** Truncation toward zero of a finite float; [None] on NaN and infinities. *)
Definition sf_trunc (f : spec_float) : option Z :=
  match f with
  | S754_zero _ => Some 0
  | S754_finite s m e => Some (cond_Zopp s (Z.shiftl (Zpos m) e))
  | S754_infinity _ | S754_nan => None
  end.

(* ===================================================================== *)
(** ** Exceptions *)
(* ===================================================================== *)

(** The exceptions that an [except Exception] clause catches. *)
Inductive exn :=
| ValueError
| IndexError
| KeyError (key : string)
| AttributeError
| OverflowError
| OtherError (code : nat).

Inductive result (A : Type) :=
| Ok (a : A)
| Raise (e : exn).
Arguments Ok {A} a.
Arguments Raise {A} e.

(* ===================================================================== *)
(** ** NumPy arrays of integer samples *)
(* ===================================================================== *)

(** An array is its shape and its row-major buffer. *)
Record ndarray := { shape : list nat; buf : list Z }.

Definition ndim (a : ndarray) : nat := length (shape a).

Definition well_shaped (a : ndarray) : Prop :=
  length (buf a) = fold_right Nat.mul 1%nat (shape a).

(** [img[0, ...]]: the first plane along the leading axis. *)
Definition first_plane (a : ndarray) : result ndarray :=
  match shape a with
  | [] => Raise IndexError
  | O :: _ => Raise IndexError
  | S _ :: rest =>
      Ok {| shape := rest; buf := take (fold_right Nat.mul 1%nat rest) (buf a) |}
  end.

(** [arr.min()] and [arr.max()] of a float buffer; a zero-size array raises
    [ValueError]. *)
Definition arr_min (l : list spec_float) : result spec_float :=
  match l with
  | [] => Raise ValueError
  | x :: r => Ok (fold_left f_min r x)
  end.

Definition arr_max (l : list spec_float) : result spec_float :=
  match l with
  | [] => Raise ValueError
  | x :: r => Ok (fold_left f_max r x)
  end.

(** The two lines that [load_tif] prints. *)
Inductive load_message :=
| ConvertingRGB                             (* "Converting RGB image to grayscale." *)
| ErrorLoading (fname : string) (e : exn).  (* "Error loading ...: e" *)

Section Normalizer.

(** The C conversion of a float that is NaN, infinite or outside
    [0, 255] to [unsigned char] is undefined; [undef_cast] is what the
    platform produces. *)
Variable undef_cast : spec_float -> Z.

(** [x.astype(np.uint8)] on one sample: truncation toward zero. *)
Definition astype_uint8 (f : spec_float) : Z :=
  match sf_trunc f with
  | Some z => if (0 <=? z) && (z <=? 255) then z else undef_cast f
  | None => undef_cast f
  end.

(** The float32 array [(img - img.min()) / (img.max() - img.min()) * 255]
    of [normalize_image], before the final cast. *)
Definition stretch (lo hi x : spec_float) : spec_float :=
  f32_mul (f32_div (f32_sub x lo) (f32_sub hi lo)) (f32_of_Z 255).

Definition normalize_float (b : list Z) : result (list spec_float) :=
  let img := map f32_of_Z b in
  match arr_min img, arr_max img with
  | Ok lo, Ok hi => Ok (map (stretch lo hi) img)
  | Raise e, _ => Raise e
  | _, Raise e => Raise e
  end.

Definition normalize_image (img : ndarray) : result ndarray :=
  match normalize_float (buf img) with
  | Ok fl => Ok {| shape := shape img; buf := map astype_uint8 fl |}
  | Raise e => Raise e
  end.

(** [np.mean(img, axis=2).astype(np.uint8)] on one RGB pixel: the float64
    sum of the three samples divided by their count, then the cast. *)
Definition mean3 (r g b : Z) : spec_float :=
  f64_div (f64_add (f64_add (f64_of_Z r) (f64_of_Z g)) (f64_of_Z b))
          (f64_of_Z 3).

Fixpoint gray_buf (l : list Z) : list Z :=
  match l with
  | r :: g :: b :: rest => astype_uint8 (mean3 r g b) :: gray_buf rest
  | _ => []
  end.

Definition rgb_to_gray (img : ndarray) : ndarray :=
  {| shape := take 2 (shape img); buf := gray_buf (buf img) |}.

(** What [tifffile.imread] gives for a file. *)
Inductive imread_result :=
| ImRaises (e : exn)
| ImOther            (* a value that is not an [np.ndarray] *)
| ImArray (a : ndarray).

Variable imread : string -> imread_result.

(** The body of the [try] of [load_tif]. *)
Definition load_tif_body (fname : string) : result ndarray :=
  match imread fname with
  | ImRaises e => Raise e
  | ImOther => Raise ValueError
  | ImArray img =>
      let img' :=
        if (ndim img =? 3)%nat && (nth 2 (shape img) 0 =? 3)%nat
        then Ok (rgb_to_gray img)
        else if (2 <? ndim img)%nat then first_plane img
        else Ok img in
      match img' with
      | Ok a => normalize_image a
      | Raise e => Raise e
      end
  end.

(** [load_tif]: every exception becomes [None]. *)
Definition load_tif (fname : string) : option ndarray :=
  match load_tif_body fname with
  | Ok img => Some img
  | Raise _ => None
  end.

(** What [load_tif] prints on the way: the line of the RGB branch when that
    branch is taken, and the line of the [except] clause when the body
    raises. *)
Definition load_tif_prints (fname : string) : list load_message :=
  match imread fname with
  | ImArray img =>
      if (ndim img =? 3)%nat && (nth 2 (shape img) 0 =? 3)%nat
      then [ConvertingRGB] else []
  | _ => []
  end ++
  match load_tif_body fname with
  | Ok _ => []
  | Raise e => [ErrorLoading fname e]
  end.

End Normalizer.

(* ===================================================================== *)
(** ** Spot measurements and Python numbers *)
(* ===================================================================== *)

(** One dictionary of the list returned by [segment_and_measure_spots]:
    the label is an integer, the three measures are [np.float64]. *)
Record measurement := {
  label : nat;
  area_pixels : spec_float;
  mean_intensity : spec_float;
  integrated_intensity : spec_float
}.

(** A Python number: the [int] that [sum] starts from and the literal [0],
    or a float. *)
Inductive num :=
| NInt (z : Z)
| NFloat (f : spec_float).

Definition num_value (n : num) : value :=
  match n with NInt z => VInt z | NFloat f => VFloat f end.

Definition num_float (n : num) : spec_float :=
  match n with NInt z => f64_of_Z z | NFloat f => f end.

(** [acc + x] where [x] is a float. *)
Definition num_add (acc : num) (x : spec_float) : num :=
  NFloat (f64_add (num_float acc) x).

(** [sum(xs)]: starts from the integer 0 and adds from the left. *)
Definition py_sum (xs : list spec_float) : num := fold_left num_add xs (NInt 0).

(** Truth value of a number: false exactly for zero. *)
Definition truthy (n : num) : bool :=
  match n with
  | NInt z => negb (z =? 0)
  | NFloat (S754_zero _) => false
  | NFloat _ => true
  end.

(** [a / b] for a non-zero divisor. *)
Definition num_div (a b : num) : num := NFloat (f64_div (num_float a) (num_float b)).

(** The three lines that open [store_measurements_in_sql] (and are repeated
    before the image-level insert). *)
Definition total_area (ms : list measurement) : num :=
  py_sum (map area_pixels ms).

Definition total_intensity (ms : list measurement) : num :=
  py_sum (map integrated_intensity ms).

Definition summary_mean_intensity (ms : list measurement) : num :=
  if truthy (total_area ms)
  then num_div (total_intensity ms) (total_area ms)
  else NInt 0.

(* ===================================================================== *)
(** ** The result sink and the monad of [store_measurements_in_sql] *)
(* ===================================================================== *)

Record database := {
  spots : list (list value);    (* rows of table spots, without the id *)
  images : list (list value)    (* rows of table images, without the id *)
}.

Definition empty_db : database := {| spots := []; images := [] |}.

(** The files written by the pipeline: [image_summary.csv] ([None] while it
    does not exist) and the SQLite databases by path. *)
Record world := {
  summary_csv : option (list (list value));
  dbs : gmap string database
}.

(** The state threaded through [store_measurements_in_sql]: the files and
    the caller's [metadata] dictionary, which the function updates in place. *)
Record store_state := {
  files : world;
  metadata : gmap string value
}.

Definition M (A : Type) : Type := store_state -> store_state * result A.

Global Instance M_ret : MRet M := fun A a st => (st, Ok a).
Global Instance M_bind : MBind M := fun A B f m st =>
  match m st with
  | (st', Ok a) => f a st'
  | (st', Raise e) => (st', Raise e)
  end.

(** [metadata[k]] *)
Definition getitem (k : string) : M value := fun st =>
  match metadata st !! k with
  | Some v => (st, Ok v)
  | None => (st, Raise (KeyError k))
  end.

(** [metadata.get(k)] *)
Definition get (k : string) : M value := fun st =>
  (st, Ok (default VNone (metadata st !! k))).

(** [metadata[k] = v] *)
Definition setitem (k : string) (v : value) : M unit := fun st =>
  ({| files := files st; metadata := <[k := v]> (metadata st) |}, Ok tt).

(** [v.lower()] *)
Definition value_lower (v : value) : M string := fun st =>
  match v with
  | VStr s => (st, Ok (lower s))
  | _ => (st, Raise AttributeError)
  end.

Definition header : list value :=
  [VStr "filename"; VStr "region"; VStr "genotype"; VStr "seedling";
   VStr "zslice"; VStr "total_area"; VStr "integrated_intensity";
   VStr "mean_intensity"].

(** Append one row to [image_summary.csv], after the header when the file
    did not exist. *)
Definition csv_append (row : list value) : M unit := fun st =>
  let w := files st in
  let rows := match summary_csv w with
              | None => [header; row]
              | Some old => old ++ [row]
              end in
  ({| files := {| summary_csv := Some rows; dbs := dbs w |};
      metadata := metadata st |}, Ok tt).

(** What [sqlite3] accepts as a parameter of a statement: [None], a [str],
    a [float], and an [int] that fits in 64 bits; for any other [int],
    [execute] raises [OverflowError]. *)
Definition bindable (v : value) : bool :=
  match v with
  | VInt z => (- 2 ^ 63 <=? z) && (z <? 2 ^ 63)
  | _ => true
  end.

(** [conn = sqlite3.connect(db_path)] and the first
    [CREATE TABLE IF NOT EXISTS]: the file exists from here on. The result
    is what the file holds; it holds that again if the function is left
    without [conn.commit()]. *)
Definition connect (db_path : string) : M database := fun st =>
  let w := files st in
  let db := default empty_db (dbs w !! db_path) in
  ({| files := {| summary_csv := summary_csv w;
                  dbs := <[db_path := db]> (dbs w) |};
      metadata := metadata st |}, Ok db).

(** The content of the database inside the open transaction. *)
Definition update_db (db_path : string) (f : database -> database) : M unit :=
  fun st =>
  let w := files st in
  let db := default empty_db (dbs w !! db_path) in
  ({| files := {| summary_csv := summary_csv w;
                  dbs := <[db_path := f db]> (dbs w) |};
      metadata := metadata st |}, Ok tt).

(** [c.execute("INSERT ...", params)]: the row joins the open transaction.
    When a parameter cannot be bound, [OverflowError] leaves
    [store_measurements_in_sql] before [conn.commit()], so the transaction is
    lost and the file holds [committed] again. (The parameters taken from
    the dictionary are the same for every row of a call and the labels of
    an array are below 2^63, so in the pipeline the first insert of a call
    is the one that fails, before any row is pending.) *)
Definition execute_insert (db_path : string) (committed : database)
    (params : list value) (f : database -> database) : M unit := fun st =>
  if forallb bindable params then update_db db_path f st
  else
    let w := files st in
    ({| files := {| summary_csv := summary_csv w;
                    dbs := <[db_path := committed]> (dbs w) |};
        metadata := metadata st |}, Raise OverflowError).

Definition insert_spot (db_path : string) (committed : database)
    (m : measurement) : M unit :=
  fn ← get "filename";
  mg ← get "magnification";
  zs ← get "zslice";
  ch ← get "channel";
  let params :=
    [fn; mg; zs; ch; VInt (Z.of_nat (label m)); VFloat (area_pixels m);
     VFloat (mean_intensity m); VFloat (integrated_intensity m)] in
  execute_insert db_path committed params (fun db =>
    {| spots := spots db ++ [params]; images := images db |}).

Fixpoint insert_spots (db_path : string) (committed : database)
    (ms : list measurement) : M unit :=
  match ms with
  | [] => mret tt
  | m :: rest =>
      insert_spot db_path committed m ≫= fun _ =>
      insert_spots db_path committed rest
  end.

Definition store_measurements_in_sql (db_path : string)
    (measurements : list measurement) : M unit :=
  let ta := total_area measurements in
  let ti := total_intensity measurements in
  let mi := summary_mean_intensity measurements in
  (* enrich metadata and write to CSV *)
  fname ← getitem "filename";
  fname_lower ← value_lower fname;
  _ ← setitem "region"
        (VStr (if contains "meristem" fname_lower then "meristem" else "elongation"));
  _ ← setitem "genotype"
        (VStr (if contains "control" fname_lower then "control" else "mutant"));
  c0 ← getitem "filename";
  c1 ← getitem "region";
  c2 ← getitem "genotype";
  c3 ← getitem "seedling";
  c4 ← getitem "zslice";
  _ ← csv_append [c0; c1; c2; c3; c4; num_value ta; num_value ti; num_value mi];
  committed ← connect db_path;
  (* one row per spot *)
  _ ← insert_spots db_path committed measurements;
  (* the aggregated row *)
  fn ← get "filename";
  mg ← get "magnification";
  zs ← get "zslice";
  ch ← get "channel";
  let params := [fn; mg; zs; ch; num_value ta; num_value mi; num_value ti] in
  (* conn.commit() follows: the transaction is what the file holds *)
  execute_insert db_path committed params (fun db =>
    {| spots := spots db; images := images db ++ [params] |}).

(** The region and genotype columns that [store_measurements_in_sql]
    computes from the file name. *)
Definition stored_region (f : string) : string :=
  if contains "meristem" (lower f) then "meristem" else "elongation".

Definition stored_genotype (f : string) : string :=
  if contains "control" (lower f) then "control" else "mutant".

Definition enrich (md : gmap string value) (f : string) : gmap string value :=
  <["genotype" := VStr (stored_genotype f)]>
    (<["region" := VStr (stored_region f)]> md).

(** The last row of the flat summary. *)
Definition last_summary_row (w : world) : list value :=
  match summary_csv w with
  | Some rows => List.last rows []
  | None => []
  end.

(* ===================================================================== *)
(** ** Two-dimensional arrays and connected components *)
(* ===================================================================== *)

(** A pixel is (row, column). *)
Definition pixel : Type := nat * nat.

(** A 2-D array: its shape and its row-major buffer. *)
Record grid (A : Type) := { height : nat; width : nat; cells : list A }.
Arguments height {A} g.
Arguments width {A} g.
Arguments cells {A} g.

(** All the pixels of an [h] x [w] array in raster order. *)
Definition all_pixels (h w : nat) : list pixel :=
  flat_map (fun r => map (pair r) (seq 0 w)) (seq 0 h).

(** [g[r, c]], with [d] outside the array. *)
Definition cell {A} (d : A) (g : grid A) (p : pixel) : A :=
  if ((fst p <? height g) && (snd p <? width g))%nat
  then nth (fst p * width g + snd p)%nat (cells g) d
  else d.

(** The array of shape [h] x [w] whose sample at [p] is [f p]. *)
Definition mk_grid {A} (h w : nat) (f : pixel -> A) : grid A :=
  {| height := h; width := w; cells := map f (all_pixels h w) |}.

Definition pixels_of {A} (g : grid A) : list pixel :=
  all_pixels (height g) (width g).

Definition pixel_eqb (p q : pixel) : bool :=
  ((fst p =? fst q) && (snd p =? snd q))%nat.

Definition mem (p : pixel) (l : list pixel) : bool := existsb (pixel_eqb p) l.

Definition dist (a b : nat) : nat := ((a - b) + (b - a))%nat.

(** Neighbours for connectivity 1 (the cross) and connectivity 2 (the full
    3 x 3 square), as [scipy.ndimage.generate_binary_structure] gives them. *)
Definition adj4 (p q : pixel) : bool :=
  (dist (fst p) (fst q) + dist (snd p) (snd q) =? 1)%nat.

Definition adj8 (p q : pixel) : bool :=
  (negb (pixel_eqb p q) && (dist (fst p) (fst q) <=? 1)
   && (dist (snd p) (snd q) <=? 1))%nat.

(** The foreground pixels of a mask in raster order. *)
Definition fg (m : grid bool) : list pixel :=
  filter (fun p => cell false m p = true) (pixels_of m).

Section Components.

Variable adjb : pixel -> pixel -> bool.

(** One round of flood fill inside [nodes]: keep what is reached and add
    the neighbours of what is reached. *)
Definition expand (nodes reached : list pixel) : list pixel :=
  filter (fun q => (mem q reached || existsb (fun r => adjb r q) reached) = true)
         nodes.

Fixpoint flood (n : nat) (nodes reached : list pixel) : list pixel :=
  match n with
  | O => reached
  | S n' => expand nodes (flood n' nodes reached)
  end.

(** The connected component of [p] in the mask [m], in raster order;
    empty when [p] is background. *)
Definition component (m : grid bool) (p : pixel) : list pixel :=
  let nodes := fg m in
  flood (length nodes) nodes (filter (fun q => pixel_eqb p q = true) nodes).

(** The raster-first pixel of the component of [p]. *)
Definition first_pixel (m : grid bool) (p : pixel) : pixel :=
  hd p (component m p).

(** The raster-first pixels of all components, in raster order. *)
Definition roots (m : grid bool) : list pixel :=
  filter (fun p => pixel_eqb (first_pixel m p) p = true) (fg m).

Fixpoint index_of (p : pixel) (l : list pixel) : nat :=
  match l with
  | [] => O
  | q :: l' => if pixel_eqb p q then O else S (index_of p l')
  end.

(** Connected-component labelling ([scipy.ndimage.label], which
    [skimage.measure.label] uses on boolean input): background is 0 and
    the components are numbered 1, 2, ... in the raster order of their
    first pixels. *)
Definition cc_label (m : grid bool) : grid nat :=
  let rs := roots m in
  mk_grid (height m) (width m)
    (fun p => if cell false m p then S (index_of (first_pixel m p) rs) else O).

(** One step between neighbouring pixels of [nodes]. *)
Definition step (nodes : list pixel) (p q : pixel) : Prop :=
  p ∈ nodes /\ q ∈ nodes /\ adjb p q = true.

(** [q] can be reached from [p] through neighbouring pixels of [nodes]. *)
Definition connected (nodes : list pixel) : pixel -> pixel -> Prop :=
  rtc (step nodes).

Definition closed (nodes reached : list pixel) : Prop :=
  forall r q, r ∈ reached -> q ∈ nodes -> adjb r q = true -> q ∈ reached.

End Components.

(** [np.bincount(lab.ravel())[l]]: how many pixels carry the label [l]. *)
Definition count_label (lab : grid nat) (l : nat) : nat :=
  length (filter (fun p => cell O lab p = l) (pixels_of lab)).

(** [skimage.morphology.remove_small_objects(ar, min_size)] on a boolean
    array, default connectivity 1. *)
Definition remove_small_objects (ar : grid bool) (min_size : Z) : grid bool :=
  if min_size =? 0 then ar
  else
    let ccs := cc_label adj4 ar in
    mk_grid (height ar) (width ar)
      (fun p => if Z.of_nat (count_label ccs (cell O ccs p)) <? min_size
                then false else cell false ar p).

(** The border of the array for [buffer_size = 0]: first and last row,
    first and last column. *)
Definition on_border {A} (g : grid A) (p : pixel) : bool :=
  ((fst p =? 0) || (fst p =? height g - 1)
   || (snd p =? 0) || (snd p =? width g - 1))%nat.

(** [skimage.segmentation.clear_border(labels)] with the defaults
    [buffer_size=0, bgval=0]: relabel with full connectivity and clear every
    label found on the border. It raises [ValueError] when a dimension has
    size 0. *)
Definition clear_border (labels : grid bool) : result (grid bool) :=
  if ((height labels =? 0) || (width labels =? 0))%nat then Raise ValueError
  else
    let lab := cc_label adj8 labels in
    let borders_indices :=
      map (cell O lab) (filter (fun p => on_border labels p = true) (pixels_of labels)) in
    Ok (mk_grid (height labels) (width labels)
          (fun p => if existsb (Nat.eqb (cell O lab p)) borders_indices
                    then false else cell false labels p)).

(** [skimage.measure.label(mask)]: default (full) connectivity. *)
Definition measure_label (mask : grid bool) : grid nat := cc_label adj8 mask.

(** One [RegionProperties] object, with the properties the pipeline reads. *)
Record region := {
  rp_label : nat;
  rp_area : spec_float;
  rp_mean_intensity : spec_float
}.

(** The pixels of the region with label [l]. *)
Definition region_pixels (lab : grid nat) (l : nat) : list pixel :=
  filter (fun p => cell O lab p = l) (pixels_of lab).

Definition sumZ (l : list Z) : Z := fold_left Z.add l 0.

(** The [RegionProperties] of the label [l]: [area] is the pixel count as a
    float and [mean_intensity] is [np.mean] of the intensity samples of the
    region (a float64 sum, exact for 8-bit samples, divided by the count). *)
Definition region_of (labeled : grid nat) (image : grid Z) (l : nat) : region :=
  let px := region_pixels labeled l in
  let n := Z.of_nat (length px) in
  {| rp_label := l;
     rp_area := f64_of_Z n;
     rp_mean_intensity :=
       f64_div (f64_of_Z (sumZ (map (cell 0 image) px))) (f64_of_Z n) |}.

(** [skimage.measure.regionprops(labeled, intensity_image=image)]: one
    region per label from 1 to the largest label, in increasing order,
    skipping the labels that have no pixel. The shapes must agree. *)
Definition regionprops (labeled : grid nat) (image : grid Z) : result (list region) :=
  if negb ((height labeled =? height image) && (width labeled =? width image))%nat
  then Raise ValueError
  else
    let max_label := fold_right Nat.max O (cells labeled) in
    Ok (flat_map
          (fun l =>
             match region_pixels labeled l with
             | [] => []
             | _ :: _ => [region_of labeled image l]
             end)
          (seq 1 max_label)).

(* ===================================================================== *)
(** ** [segment_and_measure_spots] *)
(* ===================================================================== *)

Section Segmenter.

(** The library steps before the size and border filters:
    [filters.threshold_local(image, block_size=201, method='gaussian')]
    gives the buffer of local thresholds, and the two morphological
    operations take the mask and the radius of the disk. *)
Variable threshold_local : grid Z -> list spec_float.
Variable binary_closing binary_opening : grid bool -> nat -> grid bool.

(** [image > thresh_val] *)
Definition above (image : grid Z) (thresh_val : list spec_float) : grid bool :=
  {| height := height image; width := width image;
     cells := zip_with (fun v t => SFltb t (f64_of_Z v)) (cells image) thresh_val |}.

(** The mask that enters the size filter. *)
Definition cleaned_mask (image : grid Z) (closing_radius opening_radius : nat)
    : grid bool :=
  binary_opening
    (binary_closing (above image (threshold_local image)) closing_radius)
    opening_radius.

Definition measure_of (p : region) : measurement :=
  {| label := rp_label p;
     area_pixels := rp_area p;
     mean_intensity := rp_mean_intensity p;
     integrated_intensity := f64_mul (rp_mean_intensity p) (rp_area p) |}.

Definition segment_and_measure_spots (image : grid Z) (min_area : Z)
    (closing_radius opening_radius : nat)
    : result (list measurement * grid bool) :=
  let thresh_val := threshold_local image in
  let mask := above image thresh_val in
  let mask := binary_closing mask closing_radius in
  let mask := binary_opening mask opening_radius in
  let mask := remove_small_objects mask min_area in
  match clear_border mask with
  | Raise e => Raise e
  | Ok mask =>
      let labeled := measure_label mask in
      match regionprops labeled image with
      | Raise e => Raise e
      | Ok props => Ok (map measure_of props, mask)
      end
  end.

End Segmenter.

(* ===================================================================== *)
(** ** [process_folder] of [seg_process_batch.py] *)
(* ===================================================================== *)

Definition db_path : string := "results.db".
Definition min_area_px : Z := 5.

(** [pathlib.Path(fname).stem]: the name up to its last dot, unless that dot
    is the first or the last character. *)
Fixpoint rfind_dot (s : string) (i : nat) : option nat :=
  match s with
  | EmptyString => None
  | String c s' =>
      match rfind_dot s' (S i) with
      | Some j => Some j
      | None => if Ascii.eqb c "." then Some i else None
      end
  end.

Fixpoint take_string (n : nat) (s : string) : string :=
  match n, s with
  | S n', String c s' => String c (take_string n' s')
  | _, _ => EmptyString
  end.

Definition stem (p : Path) : string :=
  let nm := name p in
  match rfind_dot nm 0 with
  | Some i => if ((0 <? i) && (i <? String.length nm - 1))%nat
              then take_string i nm else nm
  | None => nm
  end.

(** [os.path.join(a, b)] on a POSIX system. *)
Definition path_join (a b : string) : string :=
  if starts_with "/" b then b
  else if String.eqb a "" then b
  else if Ascii.eqb (List.last (String.list_ascii_of_string a) "/"%char) "/" then a +:+ b
  else a +:+ "/" +:+ b.

(** The 2-D array handed to the segmenter; there is none for an array of
    another rank: the disk footprints are two-dimensional and the morphology
    raises on it. *)
Definition grid_of_ndarray (a : ndarray) : option (grid Z) :=
  match shape a with
  | [h; w] => Some {| height := h; width := w; cells := buf a |}
  | _ => None
  end.

(** What is printed while one folder is processed: the lines of the loop and
    the lines of [load_tif]. *)
Inductive event :=
| NoTifs                                   (* "no TIFs - skipped." *)
| LoadFailed (fname : string)              (* "failed to load ..." *)
| Processed (fname : string) (n : nat)     (* "...: n nuclei" *)
| ErrorOn (fname : string) (e : exn)       (* "error on ...: e" *)
| Loader (m : load_message).               (* printed inside [load_tif] *)

Record batch_state := {
  sink : world;             (* image_summary.csv and the databases *)
  pngs : list string;       (* the figures written *)
  log : list event          (* what was printed, oldest first *)
}.

Section Batch.

Variable undef_cast : spec_float -> Z.
Variable imread : string -> imread_result.
Variable threshold_local : grid Z -> list spec_float.
Variable binary_closing binary_opening : grid bool -> nat -> grid bool.

(** [visualize_segmentation_detailed(img, mask, labeled, spots, out_png)]:
    it returns after saving the figure, or raises. *)
Variable visualize :
  ndarray -> grid bool -> grid nat -> list measurement -> string -> result unit.

(** The exception that the library raises on an image that is not
    two-dimensional; its class depends on the version of the library. *)
Variable rank_error : ndarray -> exn.

Variable out_dir : string.

Definition say (e : event) (st : batch_state) : batch_state :=
  {| sink := sink st; pngs := pngs st; log := log st ++ [e] |}.

(** The lines printed by a call of [load_tif]. *)
Definition say_loader (ms : list load_message) (st : batch_state) : batch_state :=
  {| sink := sink st; pngs := pngs st; log := log st ++ map Loader ms |}.

(** What is printed for one file: the lines of [load_tif], then the line of
    the loop. *)
Definition file_lines (fname : string) (outcome : event) : list event :=
  map Loader (load_tif_prints undef_cast imread fname) ++ [outcome].

(** The body of the [try] for one file, with the [except] clause: the
    result is the state after the iteration. *)
Definition process_file (st : batch_state) (fname : string) : batch_state :=
  let meta := parse_filename fname in
  let st := say_loader (load_tif_prints undef_cast imread fname) st in
  match load_tif undef_cast imread fname with
  | None => say (LoadFailed fname) st
  | Some img =>
      match grid_of_ndarray img with
      | None => say (ErrorOn fname (rank_error img)) st
      | Some image =>
          match segment_and_measure_spots threshold_local binary_closing
                  binary_opening image min_area_px 3 1 with
          | Raise e => say (ErrorOn fname e) st
          | Ok (spots_found, mask) =>
              let '(st', r) :=
                store_measurements_in_sql db_path spots_found
                  {| files := sink st; metadata := meta |} in
              let st1 := {| sink := files st'; pngs := pngs st; log := log st |} in
              match r with
              | Raise e => say (ErrorOn fname e) st1
              | Ok _ =>
                  let labeled := measure_label mask in
                  let out_png :=
                    path_join out_dir (stem (mkPath fname) +:+ "_seg.png") in
                  match visualize img mask labeled spots_found out_png with
                  | Raise e => say (ErrorOn fname e) st1
                  | Ok _ =>
                      say (Processed fname (length spots_found))
                        {| sink := sink st1; pngs := pngs st1 ++ [out_png];
                           log := log st1 |}
                  end
              end
          end
      end
  end.

(** The [for] loop over the sorted list of [.tif] files. *)
Definition process_files (tif_files : list string) (st : batch_state)
    : batch_state :=
  fold_left process_file tif_files st.

Definition process_folder (tif_files : list string) (st : batch_state)
    : batch_state :=
  match tif_files with
  | [] => say NoTifs st
  | _ => process_files tif_files st
  end.

(** A file is undecodable when [tifffile.imread] raises on it or gives
    something that is not an array. *)
Definition undecodable (fname : string) : Prop :=
  (exists e, imread fname = ImRaises e) \/ imread fname = ImOther.

End Batch.

(** The file whose processing a line of the loop reports; the other lines
    report none. *)
Definition event_file (e : event) : option string :=
  match e with
  | NoTifs | Loader _ => None
  | LoadFailed f | Processed f _ | ErrorOn f _ => Some f
  end.

(* ===================================================================== *)
(** ** The naming convention, following the words of the specification *)
(* ===================================================================== *)

(** The run of digits at the start of [s], and what follows it. *)
Fixpoint digit_run (s : string) : string :=
  match s with
  | EmptyString => EmptyString
  | String c s' => if is_digit c then String c (digit_run s') else EmptyString
  end.

Fixpoint skip_digits (s : string) : string :=
  match s with
  | EmptyString => EmptyString
  | String c s' => if is_digit c then skip_digits s' else s
  end.

(** At the start of [s]: the token, immediately followed by a non-empty run
    of digits, immediately followed by [ext]. *)
Definition run_at (tok ext s : string) : option string :=
  match strip_prefix tok s with
  | Some rest =>
      let g := digit_run rest in
      if negb (String.eqb g "") && starts_with ext (skip_digits rest)
      then Some g else None
  | None => None
  end.

(** The first place of [s], from the left, where [run_at] finds a run. *)
Fixpoint spec_first_run (tok ext s : string) : option string :=
  match run_at tok ext s with
  | Some g => Some g
  | None =>
      match s with
      | EmptyString => None
      | String _ s' => spec_first_run tok ext s'
      end
  end.

(** [s[n:]] *)
Fixpoint drop_string (n : nat) (s : string) : string :=
  match n, s with
  | S n', String _ s' => drop_string n' s'
  | _, _ => s
  end.

(** The file extension: what the name has from its last dot on, when that
    dot is neither the first nor the last character. *)
Definition file_extension (nm : string) : string :=
  match rfind_dot nm 0 with
  | Some i => if ((0 <? i) && (i <? String.length nm - 1))%nat
              then drop_string i nm else EmptyString
  | None => EmptyString
  end.

(** At the start of [s]: "c", immediately followed by a non-empty run of
    digits, immediately followed by the extension [ext], which ends the
    name. *)
Definition run_before_extension (ext s : string) : option string :=
  match strip_prefix "c" s with
  | Some rest =>
      let g := digit_run rest in
      if negb (String.eqb g "") && String.eqb (skip_digits rest) ext
      then Some g else None
  | None => None
  end.

Fixpoint first_run_before_extension (ext s : string) : option string :=
  match run_before_extension ext s with
  | Some g => Some g
  | None =>
      match s with
      | EmptyString => None
      | String _ s' => first_run_before_extension ext s'
      end
  end.

(** The channel in the words of the specification: "c" plus the first run
    of digits immediately following "c" and immediately preceding the file
    extension, "unknown" when there is none. *)
Definition spec_channel (nm : string) : value :=
  match first_run_before_extension (file_extension nm) nm with
  | Some g => VStr ("c" +:+ g)
  | None => VStr "unknown"
  end.

(** [needle] occurs in [hay]. *)
Definition occurs_in (needle hay : string) : Prop :=
  exists a b, hay = a +:+ needle +:+ b.

(* ===================================================================== *)
(** ** The totals, following the words of the specification *)
(* ===================================================================== *)

(** The plain sum of floats, from the left, starting from zero. *)
Definition float_sum (xs : list spec_float) : spec_float :=
  fold_left f64_add xs (f64_of_Z 0).

(* ===================================================================== *)
(** ** Grayscale reduction, following the words of the specification *)
(* ===================================================================== *)

(** The two readings of "average the three channels and make it an
    integer": rounding down, and rounding to the nearest integer. *)
Definition floor_mean3 (r g b : Z) : Z := (r + g + b) / 3.

Definition nearest_mean3 (r g b : Z) : Z := (2 * (r + g + b) + 3) / 6.

Fixpoint average_buf (avg : Z -> Z -> Z -> Z) (l : list Z) : list Z :=
  match l with
  | r :: g :: b :: rest => avg r g b :: average_buf avg rest
  | _ => []
  end.

Definition sample8 (v : Z) : Prop := 0 <= v <= 255.

Definition one_rgb_pixel : ndarray := {| shape := [1; 1; 3]%nat; buf := [0; 0; 2] |}.

(* ===================================================================== *)
(** ** Checking a property over a range of samples *)
(* ===================================================================== *)

Definition sf_eqb (x y : spec_float) : bool :=
  match x, y with
  | S754_zero a, S754_zero b => Bool.eqb a b
  | S754_infinity a, S754_infinity b => Bool.eqb a b
  | S754_nan, S754_nan => true
  | S754_finite a m e, S754_finite b n f =>
      Bool.eqb a b && Pos.eqb m n && Z.eqb e f
  | _, _ => false
  end.

(** The integers 0, 1, ..., n-1. *)
Definition zrange (n : nat) : list Z := map Z.of_nat (seq 0 n).

Definition check1 (n : nat) (P : Z -> bool) : bool := forallb P (zrange n).

Definition check2 (n m : nat) (P : Z -> Z -> bool) : bool :=
  forallb (fun a => forallb (P a) (zrange m)) (zrange n).

(* ===================================================================== *)
(** ** A worked run *)
(* ===================================================================== *)

(** An 8 x 8 image: a bright block on the top border, two bright pixels
    that touch by a corner only, and one bright spot of eight pixels inside. *)
Definition demo_image : grid Z :=
  {| height := 8; width := 8;
     cells := [200; 200; 200;  20;  20;  20;  20;  20;
               200; 200; 200;  20;  20;  20;  20;  20;
                20;  20;  20;  20;  20; 200;  20;  20;
                20;  20;  20;  20;  20;  20; 200;  20;
                20; 200; 200; 200;  20;  20;  20;  20;
                20; 200; 180; 200;  20;  20;  20;  20;
                20; 200; 200;  20;  20;  20;  20;  20;
                20;  20;  20;  20;  20;  20;  20;  20] |}.

Definition demo_threshold (g : grid Z) : list spec_float :=
  map (fun _ => f64_of_Z 100) (cells g).

Definition demo_morphology (m : grid bool) (radius : nat) : grid bool := m.

Definition demo_mask : grid bool :=
  mk_grid 8 8 (fun p =>
    mem p [(4, 1); (4, 2); (4, 3); (5, 1); (5, 2); (5, 3); (6, 1); (6, 2)]%nat).

Definition demo_spot : measurement :=
  {| label := 1;
     area_pixels := f64_of_Z 8;
     mean_intensity := f64_div (f64_of_Z 1580) (f64_of_Z 8);
     integrated_intensity := f64_of_Z 1580 |}.

(** A file system with one file that cannot be decoded. *)
Definition demo_imread (fname : string) : imread_result :=
  if String.eqb fname "bad.tif" then ImRaises (OtherError 1)
  else ImArray {| shape := [8; 8]%nat; buf := cells demo_image |}.

Definition demo_visualize (img : ndarray) (mask : grid bool) (labeled : grid nat)
    (found : list measurement) (out_png : string) : result unit := Ok tt.

Definition demo_start : batch_state :=
  {| sink := {| summary_csv := None; dbs := ∅ |}; pngs := []; log := [] |}.

(* ===================================================================== *)
(** ** The rows that [store_measurements_in_sql] inserts *)
(* ===================================================================== *)

(** The tuple inserted into table spots for one measurement. *)
Definition spot_row (md : gmap string value) (m : measurement) : list value :=
  [default VNone (md !! "filename"); default VNone (md !! "magnification");
   default VNone (md !! "zslice"); default VNone (md !! "channel");
   VInt (Z.of_nat (label m)); VFloat (area_pixels m);
   VFloat (mean_intensity m); VFloat (integrated_intensity m)].

(** The tuple inserted into table images. *)
Definition image_row (md : gmap string value) (ms : list measurement) : list value :=
  [default VNone (md !! "filename"); default VNone (md !! "magnification");
   default VNone (md !! "zslice"); default VNone (md !! "channel");
   num_value (total_area ms); num_value (summary_mean_intensity ms);
   num_value (total_intensity ms)].

(** Every parameter of every [INSERT] of a call can be bound. *)
Definition all_bindable (md : gmap string value) (ms : list measurement) : bool :=
  forallb (fun m => forallb bindable (spot_row md m)) ms &&
  forallb bindable (image_row md ms).

(** The rows of [image_summary.csv], none while the file does not exist. *)
Definition csv_rows (w : world) : list (list value) :=
  default [] (summary_csv w).

(** The tables of the database at [db_path], empty while it does not exist. *)
Definition db_at (w : world) (db_path : string) : database :=
  default empty_db (dbs w !! db_path).

(** The keys that [store_measurements_in_sql] reads with a subscript, the
    file name being a string. *)
Definition keys_present (md : gmap string value) : Prop :=
  (exists f, md !! "filename" = Some (VStr f)) /\
  is_Some (md !! "seedling") /\ is_Some (md !! "zslice").

(* ===================================================================== *)
(** ** Strings without a given character, strings of digits *)
(* ===================================================================== *)

(** No character of [k] is [c]. *)
Fixpoint free_of (c : ascii) (k : string) : bool :=
  match k with
  | EmptyString => true
  | String a k' => negb (Ascii.eqb a c) && free_of c k'
  end.

(** Every character of [s] is a decimal digit. *)
Fixpoint all_digits (s : string) : bool :=
  match s with
  | EmptyString => true
  | String c s' => is_digit c && all_digits s'
  end.

(* ===================================================================== *)
(** ** Counting what a batch did *)
(* ===================================================================== *)

Definition is_processed (e : event) : bool :=
  match e with Processed _ _ => true | _ => false end.

(** The rows that appear in [image_summary.csv] when the data rows [rows]
    are appended: the header comes first when the file did not exist. *)
Definition appended_rows (w : world) (rows : list (list value))
    : list (list value) :=
  match summary_csv w, rows with
  | None, _ :: _ => header :: rows
  | _, _ => rows
  end.

(* ===================================================================== *)
(** ** Folders: [glob], [os.rename], [os.walk] *)
(* ===================================================================== *)

(** [s.endswith(suf)] *)
Fixpoint ends_with (suf s : string) : bool :=
  String.eqb s suf ||
  match s with
  | EmptyString => false
  | String _ s' => ends_with suf s'
  end.

(** [s[:-n]] *)
Definition drop_last (n : nat) (s : string) : string :=
  take_string (String.length s - n) s.

(** [glob.has_magic(s)]: one of the characters that [glob] interprets
    occurs in [s]. *)
Definition has_magic (s : string) : bool :=
  negb (free_of "*" s && free_of "?" s && free_of "[" s).

(** A name of a folder matches the pattern ["*" + ext] of [glob.glob]: it
    ends with [ext] (case-sensitively on POSIX) and is not hidden. *)
Definition glob_match (ext name : string) : bool :=
  ends_with ext name && negb (starts_with "." name).

(** The names of a folder that the pattern ["*" + ext] selects; [listing] is
    [os.listdir(folder)]. This is what
    [glob.glob(os.path.join(folder, "*" + ext))] finds in [folder] when the
    path [folder] itself has no character that [glob] interprets. *)
Definition glob_ext (ext : string) (listing : list string) : list string :=
  filter (fun n => glob_match ext n = true) listing.

(** [tiff[:-5] + ".tif"]; the slice stays inside the name because the name
    ends with ".tiff". *)
Definition tif_name (tiff : string) : string := drop_last 5 tiff +:+ ".tif".

Section Folder.

(** The entries of one folder by name. *)
Variable A : Type.

(** What the renaming does to the entries of the folder when the path of
    the folder has characters that [glob] interprets: the pattern then
    selects directories by matching, this one or others, which the entries
    of one folder do not determine. *)
Variable renamed_by_pattern : string -> gmap string A -> result (gmap string A).

(** The loop of [convert_tiff_to_tif] in a folder of regular files:
    [os.rename(tiff, tif)] replaces an existing [tif]; it raises
    [FileNotFoundError] (errno 2) when [tiff] is gone. *)
Fixpoint rename_all (tiffs : list string) (fs : gmap string A)
    : result (gmap string A) :=
  match tiffs with
  | [] => Ok fs
  | tiff :: rest =>
      match fs !! tiff with
      | None => Raise (OtherError 2)
      | Some c => rename_all rest (<[tif_name tiff := c]> (delete tiff fs))
      end
  end.

(** [convert_tiff_to_tif(folder)] on the entries of [folder]: a path found
    by [glob] is the folder joined with a name, and cutting its last five
    characters cuts the name. *)
Definition convert_tiff_to_tif (folder : string) (listing : list string)
    (fs : gmap string A) : result (gmap string A) :=
  if has_magic folder then renamed_by_pattern folder fs
  else rename_all (glob_ext ".tiff" listing) fs.

End Folder.

(** A directory tree as [os.walk] sees it: the path of the directory, the
    names of its files and its sub-directories. *)
Local Unset Elimination Schemes.
Inductive tree :=
| Dir (path : string) (file_names : list string) (subdirs : list tree).
Local Set Elimination Schemes.

(** [os.walk(top)], top-down: the directory itself, then its sub-directories
    in order; each item is the path and the file names. *)
Fixpoint walk (t : tree) : list (string * list string) :=
  match t with
  | Dir path file_names subdirs => (path, file_names) :: flat_map walk subdirs
  end.

(** [any(f.lower().endswith((".tif", ".tiff")) for f in files)] *)
Definition has_image (file_names : list string) : bool :=
  existsb (fun f => ends_with ".tif" (lower f) || ends_with ".tiff" (lower f))
          file_names.

(** [discover_image_folders(top)] *)
Definition discover_image_folders (top : tree) : list string :=
  map fst (filter (fun item => has_image (snd item) = true) (walk top)).

(* ===================================================================== *)
(** ** [process_images] of [seg_process.py] *)
(* ===================================================================== *)

(** [os.path.basename(p)] on POSIX: what follows the last slash. *)
Definition basename (p : string) : string := List.last (split_on "/" p) "".

(** What [process_images] prints. *)
Inductive message :=
| NoTifFound                              (* "No TIF files found ..." *)
| FoundTif (n : nat)                      (* "Found n TIF files." *)
| Processing (fname : string)             (* "Processing: ..." *)
| SkippedLoad (fname : string)            (* "Failed to load image ... Skipping." *)
| Stored (fname : string) (n : nat)       (* "... - n spots detected and stored." *)
| FailedOn (fname : string) (e : exn)     (* "Error processing ...: e" *)
| AllProcessed                            (* "All images processed successfully!" *)
| FromLoader (m : load_message).          (* printed inside [load_tif] *)

Record script_state := {
  out_sink : world;
  out_pngs : list string;
  out_log : list message
}.

Section Script.

Variable undef_cast : spec_float -> Z.
Variable imread : string -> imread_result.
Variable threshold_local : grid Z -> list spec_float.
Variable binary_closing binary_opening : grid bool -> nat -> grid bool.
Variable visualize :
  ndarray -> grid bool -> grid nat -> list measurement -> string -> result unit.
Variable rank_error : ndarray -> exn.
Variable output_folder : string.

Definition tell (m : message) (st : script_state) : script_state :=
  {| out_sink := out_sink st; out_pngs := out_pngs st;
     out_log := out_log st ++ [m] |}.

Definition tell_loader (ms : list load_message) (st : script_state)
    : script_state :=
  {| out_sink := out_sink st; out_pngs := out_pngs st;
     out_log := out_log st ++ map FromLoader ms |}.

(** What is printed for one file: "Processing", the lines of [load_tif],
    then the line that says how the file ended. *)
Definition image_lines (fname : string) (outcome : message) : list message :=
  Processing fname ::
  map FromLoader (load_tif_prints undef_cast imread fname) ++ [outcome].

(** One iteration of the loop of [process_images]: the metadata come from
    the base name only, and the figure is named by cutting the last four
    characters of the base name. *)
Definition process_image (st : script_state) (fname : string) : script_state :=
  let st := tell (Processing fname) st in
  let meta := parse_filename (basename fname) in
  let st := tell_loader (load_tif_prints undef_cast imread fname) st in
  match load_tif undef_cast imread fname with
  | None => tell (SkippedLoad fname) st
  | Some img =>
      match grid_of_ndarray img with
      | None => tell (FailedOn fname (rank_error img)) st
      | Some image =>
          match segment_and_measure_spots threshold_local binary_closing
                  binary_opening image 5 3 1 with
          | Raise e => tell (FailedOn fname e) st
          | Ok (spots_found, mask) =>
              let '(st', r) :=
                store_measurements_in_sql db_path spots_found
                  {| files := out_sink st; metadata := meta |} in
              let st1 := {| out_sink := files st'; out_pngs := out_pngs st;
                            out_log := out_log st |} in
              match r with
              | Raise e => tell (FailedOn fname e) st1
              | Ok _ =>
                  let labeled_image := measure_label mask in
                  let output_path :=
                    path_join output_folder
                      (drop_last 4 (basename fname) +:+ "_seg.png") in
                  match visualize img mask labeled_image spots_found output_path with
                  | Raise e => tell (FailedOn fname e) st1
                  | Ok _ =>
                      tell (Stored fname (length spots_found))
                        {| out_sink := out_sink st1;
                           out_pngs := out_pngs st1 ++ [output_path];
                           out_log := out_log st1 |}
                  end
              end
          end
      end
  end.

(** [process_images] after the renaming of ".tiff" files, on the list that
    [glob] gives. *)
Definition process_images (tif_files : list string) (st : script_state)
    : script_state :=
  match tif_files with
  | [] => tell NoTifFound st
  | _ :: _ =>
      tell AllProcessed
        (fold_left process_image tif_files
           (tell (FoundTif (length tif_files)) st))
  end.

End Script.

(** The line that reports how the processing of [fname] ended. *)
Definition outcome_of (fname : string) (m : message) : Prop :=
  m = SkippedLoad fname \/ (exists n, m = Stored fname n) \/
  (exists e, m = FailedOn fname e).

(* ===================================================================== *)
(** * Properties *)
(* ===================================================================== *)

(** ** Strings and regular expressions *)

Lemma strip_prefix_app p s r :
  strip_prefix p s = Some r <-> s = p +:+ r.
Proof.
  revert s; induction p as [|a p IH]; intros s; simpl.
  - split; [intros [= ->]; reflexivity | intros ->; reflexivity].
  - destruct s as [|b s]; [split; discriminate|].
    destruct (Ascii.eqb_spec a b) as [->|Hne].
    + rewrite IH. split; [intros ->; reflexivity | intros [= ->]; reflexivity].
    + split; [discriminate | intros [= Hb _]; congruence].
Qed.

Lemma starts_with_app p s : starts_with p s = true <-> exists r, s = p +:+ r.
Proof.
  unfold starts_with. destruct (strip_prefix p s) as [r|] eqn:E.
  - apply strip_prefix_app in E. split; eauto.
  - split; [discriminate|]. intros [r Hr]. apply strip_prefix_app in Hr. congruence.
Qed.

Lemma contains_occurs needle hay :
  contains needle hay = true <-> occurs_in needle hay.
Proof.
  induction hay as [|c hay IH]; simpl.
  - rewrite orb_false_r, starts_with_app. split.
    + intros [r Hr]. exists EmptyString, r. exact Hr.
    + intros (a & b & H). destruct a; cbn in H; [eauto|discriminate].
  - rewrite orb_true_iff, IH, starts_with_app. split.
    + intros [[r Hr]|(a & b & H)].
      * exists EmptyString, r. exact Hr.
      * exists (String c a), b. rewrite H. reflexivity.
    + intros (a & b & H). destruct a as [|c' a]; cbn in H.
      * left. eauto.
      * right. injection H as _ H. exists a, b. exact H.
Qed.

Lemma greedy_digits_run k s :
  (forall c s', is_digit c = true -> k (String c s') = false) ->
  greedy_digits k s =
    if negb (String.eqb (digit_run s) "") && k (skip_digits s)
    then Some (digit_run s) else None.
Proof.
  intros Hk. induction s as [|c s IH]; simpl; [reflexivity|].
  destruct (is_digit c) eqn:Hc; [|reflexivity].
  rewrite IH. clear IH.
  destruct s as [|d s]; simpl.
  - destruct (k EmptyString); reflexivity.
  - destruct (is_digit d) eqn:Hd; simpl.
    + rewrite (Hk d s Hd). destruct (k (skip_digits s)); reflexivity.
    + destruct (k (String d s)); reflexivity.
Qed.

Lemma match_here_run tok ext s :
  (forall c r, is_digit c = true -> starts_with ext (String c r) = false) ->
  match_here [Lit tok; Digits; Lookahead ext] s = run_at tok ext s.
Proof.
  intros Hext. unfold run_at. simpl.
  destruct (strip_prefix tok s) as [rest|]; [|reflexivity].
  rewrite greedy_digits_run.
  - destruct (starts_with ext (skip_digits rest)); reflexivity.
  - intros c r Hc. rewrite (Hext c r Hc). reflexivity.
Qed.

Lemma match_here_run_open tok s :
  match_here [Lit tok; Digits] s = run_at tok "" s.
Proof.
  unfold run_at. simpl.
  destruct (strip_prefix tok s) as [rest|]; [|reflexivity].
  induction rest as [|c rest IH]; simpl; [reflexivity|].
  destruct (is_digit c); [|reflexivity].
  rewrite IH. destruct (digit_run rest); reflexivity.
Qed.

Lemma re_search_first_run pat tok ext s :
  (forall t, match_here pat t = run_at tok ext t) ->
  re_search pat s = spec_first_run tok ext s.
Proof.
  intros H. induction s as [|c s IH]; simpl; rewrite H.
  - reflexivity.
  - rewrite IH. reflexivity.
Qed.

Lemma seedling_regex s : re_search re_seedling s = spec_first_run "seedling" "" s.
Proof. apply re_search_first_run, match_here_run_open. Qed.

Lemma zslice_regex s : re_search re_zslice s = spec_first_run "_z" "" s.
Proof. apply re_search_first_run, match_here_run_open. Qed.

Lemma channel_regex s : re_search re_channel s = spec_first_run "c" ".tif" s.
Proof.
  apply re_search_first_run. intros t. apply match_here_run.
  intros c r Hc. destruct (starts_with ".tif" (String c r)) eqn:E; [|reflexivity].
  apply starts_with_app in E as [r' E]. injection E as -> _. discriminate Hc.
Qed.

(** C7 (amended). For every path of ASCII characters, no longer than the
    longest string of digits that [int] reads, [parse_filename] takes the
    seedling number from the first run of digits immediately following
    "seedling" in the lower-cased file name (None when there is none), the
    z-slice from the first run of digits immediately following "_z" (None
    when there is none), and the channel as "c" followed by the first run of
    digits that immediately follows "c" and immediately precedes an
    occurrence of ".tif", which need not be the file extension ("unknown"
    when there is none); the name "...seedling12_elong_z16c1.tif" gives
    seedling 12, z-slice 16 and channel "c1". *)
Theorem parse_filename_numbers_and_channel (file_path : string) :
  is_ascii file_path = true ->
  (String.length file_path <= max_str_digits)%nat ->
  let fname := lower (name (mkPath file_path)) in
  parse_filename file_path !! "seedling" =
    Some (match spec_first_run "seedling" "" fname with
          | Some g => VInt (int_of_digits g) | None => VNone end) /\
  parse_filename file_path !! "zslice" =
    Some (match spec_first_run "_z" "" fname with
          | Some g => VInt (int_of_digits g) | None => VNone end) /\
  parse_filename file_path !! "channel" =
    Some (match spec_first_run "c" ".tif" fname with
          | Some g => VStr ("c" +:+ g) | None => VStr "unknown" end) /\
  (let m := parse_filename "...seedling12_elong_z16c1.tif" in
   m !! "seedling" = Some (VInt 12) /\
   m !! "zslice" = Some (VInt 16) /\
   m !! "channel" = Some (VStr "c1")).
Proof.
  intros _ _ fname. unfold parse_filename. fold fname.
  rewrite seedling_regex, zslice_regex, channel_regex.
  repeat split; try (vm_compute; reflexivity);
    repeat (rewrite lookup_insert_ne by discriminate);
    rewrite lookup_insert_eq; reflexivity.
Qed.

Lemma parse_filename_numbers_and_channel_witness :
  is_ascii "plate/img_c2.tif_c3.tif" = true /\
  (String.length "plate/img_c2.tif_c3.tif" <= max_str_digits)%nat /\
  parse_filename "plate/img_c2.tif_c3.tif" !! "channel" = Some (VStr "c2") /\
  parse_filename "plate/img_c2.tif_c3.tif" !! "seedling" = Some VNone.
Proof.
  assert (Ha : is_ascii "plate/img_c2.tif_c3.tif" = true) by reflexivity.
  assert (Hl : (String.length "plate/img_c2.tif_c3.tif" <= max_str_digits)%nat)
    by (apply Nat.leb_le; vm_compute; reflexivity).
  split; [exact Ha|]. split; [exact Hl|].
  destruct (parse_filename_numbers_and_channel "plate/img_c2.tif_c3.tif" Ha Hl)
    as (Hs & _ & Hc & _).
  split; [rewrite Hc | rewrite Hs]; vm_compute; reflexivity.
Defined.

(** C7, as stated, fails: in "img_c1.tif.png" the digit after "c" precedes
    ".tif", which is not the file extension of the name; the specification
    gives "unknown" and [parse_filename] gives "c1". *)
Lemma channel_not_tied_to_file_extension :
  ~ (forall file_path : string,
       is_ascii file_path = true ->
       parse_filename file_path !! "channel" =
         Some (spec_channel (lower (name (mkPath file_path))))).
Proof.
  intros H. specialize (H "img_c1.tif.png" eq_refl).
  vm_compute in H. discriminate H.
Qed.

(** ** The metadata dictionary and the flat summary *)

Lemma first_keyword_two k1 k2 segs :
  first_keyword [k1; k2] segs =
    if existsb (contains k1) segs then k1
    else if existsb (contains k2) segs then k2 else "unknown".
Proof.
  unfold first_keyword. simpl.
  destruct (existsb (contains k1) segs); [reflexivity|].
  destruct (existsb (contains k2) segs); reflexivity.
Qed.

Lemma parse_filename_lookup (file_path : string) :
  let p := mkPath file_path in
  let m := parse_filename file_path in
  m !! "filename" = Some (VStr (str p)) /\
  m !! "region" =
    Some (VStr (first_keyword ["meristem"; "elongation"] (map lower (parts p)))) /\
  m !! "genotype" =
    Some (VStr (first_keyword ["control"; "mutant"] (map lower (parts p)))) /\
  is_Some (m !! "seedling") /\
  is_Some (m !! "zslice").
Proof.
  intros p m. subst m. unfold parse_filename. fold p.
  repeat split;
    repeat (rewrite lookup_insert_ne by discriminate);
    rewrite lookup_insert_eq; eauto.
Qed.

Lemma spot_row_enrich md f m : spot_row (enrich md f) m = spot_row md m.
Proof.
  unfold spot_row, enrich.
  repeat (rewrite lookup_insert_ne by discriminate). reflexivity.
Qed.

Lemma image_row_enrich md f ms : image_row (enrich md f) ms = image_row md ms.
Proof.
  unfold image_row, enrich.
  repeat (rewrite lookup_insert_ne by discriminate). reflexivity.
Qed.

Lemma insert_spot_run db c m w md :
  insert_spot db c m {| files := w; metadata := md |} =
    execute_insert db c (spot_row md m)
      (fun d => {| spots := spots d ++ [spot_row md m]; images := images d |})
      {| files := w; metadata := md |}.
Proof. reflexivity. Qed.

Lemma spot_rows_bindable_enrich md f ms :
  forallb (fun m => forallb bindable (spot_row (enrich md f) m)) ms =
  forallb (fun m => forallb bindable (spot_row md m)) ms.
Proof.
  induction ms as [|m ms IH]; [reflexivity|].
  cbn [forallb]. rewrite IH, spot_row_enrich. reflexivity.
Qed.

(** The loop of inserts, started inside a transaction in which the database
    holds [d0]: either every row is appended, or the transaction is lost. *)
Lemma insert_spots_run db c ms w md d0 :
  dbs w !! db = Some d0 ->
  insert_spots db c ms {| files := w; metadata := md |} =
    if forallb (fun m => forallb bindable (spot_row md m)) ms
    then ({| files :=
               {| summary_csv := summary_csv w;
                  dbs := <[db := {| spots := spots d0 ++ map (spot_row md) ms;
                                    images := images d0 |}]> (dbs w) |};
             metadata := md |}, Ok tt)
    else ({| files := {| summary_csv := summary_csv w;
                         dbs := <[db := c]> (dbs w) |};
             metadata := md |}, Raise OverflowError).
Proof.
  revert w d0. induction ms as [|m ms IH]; intros w d0 Hd.
  - cbn [insert_spots forallb map]. rewrite app_nil_r.
    destruct d0 as [sp im], w as [csv d]. cbn in *.
    rewrite insert_id by exact Hd. reflexivity.
  - cbn [insert_spots forallb map]. unfold mbind at 1, M_bind at 1.
    rewrite insert_spot_run. unfold execute_insert.
    destruct (forallb bindable (spot_row md m)) eqn:Hb; cbn [andb].
    + unfold update_db. cbn [files metadata summary_csv dbs].
      rewrite Hd. cbn [default spots images].
      rewrite (IH _ {| spots := spots d0 ++ [spot_row md m]; images := images d0 |})
        by (cbn; apply lookup_insert_eq).
      cbn [summary_csv dbs spots images]. rewrite !insert_insert_eq.
      rewrite <- app_assoc. reflexivity.
    + reflexivity.
Qed.

(** The run of [store_measurements_in_sql] on a dictionary that has a
    string under "filename" and some value under "seedling" and "zslice":
    the summary row is written, then either every row is inserted or
    [OverflowError] leaves the database as it was. *)
Lemma store_run db ms w md f s z :
  md !! "filename" = Some (VStr f) ->
  md !! "seedling" = Some s ->
  md !! "zslice" = Some z ->
  let csv :=
    Some (match summary_csv w with
          | None => [header] | Some old => old end ++
          [[VStr f; VStr (stored_region f); VStr (stored_genotype f);
            s; z; num_value (total_area ms);
            num_value (total_intensity ms);
            num_value (summary_mean_intensity ms)]]) in
  store_measurements_in_sql db ms {| files := w; metadata := md |} =
    if all_bindable md ms
    then ({| files :=
               {| summary_csv := csv;
                  dbs := <[db := {| spots := spots (db_at w db) ++ map (spot_row md) ms;
                                    images := images (db_at w db) ++ [image_row md ms] |}]>
                           (dbs w) |};
             metadata := enrich md f |}, Ok tt)
    else ({| files := {| summary_csv := csv; dbs := <[db := db_at w db]> (dbs w) |};
             metadata := enrich md f |}, Raise OverflowError).
Proof.
  intros Hf Hs Hz csv.
  unfold store_measurements_in_sql, mbind, M_bind, getitem, value_lower,
    setitem, csv_append, connect. cbn [files metadata fst snd].
  repeat (first [ rewrite Hf | rewrite Hs | rewrite Hz | rewrite lookup_insert_eq
                | rewrite lookup_insert_ne by discriminate ]; cbn [files metadata]).
  fold (stored_region f) (stored_genotype f). fold (enrich md f).
  cbn [summary_csv dbs]. fold (db_at w db).
  match goal with |- context [insert_spots db ?c ms {| files := ?w1; metadata := _ |}] =>
    rewrite (insert_spots_run db c ms w1 (enrich md f) (db_at w db))
      by (cbn; apply lookup_insert_eq) end.
  rewrite (spot_rows_bindable_enrich md f ms),
    (map_ext _ _ (spot_row_enrich md f)).
  cbn [summary_csv dbs]. rewrite !insert_insert_eq.
  unfold all_bindable.
  destruct (forallb (fun m => forallb bindable (spot_row md m)) ms);
    cbn [andb].
  2:{ subst csv. destruct (summary_csv w); reflexivity. }
  unfold get, execute_insert. cbn [files metadata].
  change [default VNone (enrich md f !! "filename");
          default VNone (enrich md f !! "magnification");
          default VNone (enrich md f !! "zslice");
          default VNone (enrich md f !! "channel");
          num_value (total_area ms); num_value (summary_mean_intensity ms);
          num_value (total_intensity ms)]
    with (image_row (enrich md f) ms).
  rewrite image_row_enrich.
  destruct (forallb bindable (image_row md ms)).
  - unfold update_db. cbn [files metadata summary_csv dbs].
    rewrite lookup_insert_eq. cbn [default spots images].
    rewrite insert_insert_eq. subst csv. destruct (summary_csv w); reflexivity.
  - cbn [summary_csv dbs]. rewrite insert_insert_eq.
    subst csv. destruct (summary_csv w); reflexivity.
Qed.

(** The runs that do not reach the summary file: a key is missing, or the
    file name is not a string. *)
Lemma store_shape db ms w md :
  (exists f s z, md !! "filename" = Some (VStr f) /\
                 md !! "seedling" = Some s /\ md !! "zslice" = Some z) \/
  (~ keys_present md /\
   exists e md',
     store_measurements_in_sql db ms {| files := w; metadata := md |} =
       ({| files := w; metadata := md' |}, Raise e) /\
     e <> OverflowError /\
     (md' = md \/ exists f, md' = enrich md f)).
Proof.
  unfold keys_present.
  destruct (md !! "filename") as [v|] eqn:Hf.
  2:{ right. split; [intros [[f [=]] _]|].
      exists (KeyError "filename"), md. split; [|split; [discriminate | auto]].
      unfold store_measurements_in_sql, mbind, M_bind, getitem. cbn.
      rewrite Hf. reflexivity. }
  destruct v as [| |x|f];
    try (right; split; [intros [[f0 [=]] _]|];
         exists AttributeError, md; split; [|split; [discriminate | auto]];
         unfold store_measurements_in_sql, mbind, M_bind, getitem, value_lower;
         cbn; rewrite Hf; reflexivity).
  destruct (md !! "seedling") as [s|] eqn:Hs.
  2:{ right. split; [intros (_ & [s [=]] & _)|].
      exists (KeyError "seedling"), (enrich md f).
      split; [|split; [discriminate | eauto]].
      unfold store_measurements_in_sql, mbind, M_bind, getitem,
        value_lower, setitem. cbn.
      repeat (first [ rewrite Hf | rewrite Hs | rewrite lookup_insert_eq
                    | rewrite lookup_insert_ne by discriminate ]; cbn).
      reflexivity. }
  destruct (md !! "zslice") as [z|] eqn:Hz.
  2:{ right. split; [intros (_ & _ & [z [=]])|].
      exists (KeyError "zslice"), (enrich md f).
      split; [|split; [discriminate | eauto]].
      unfold store_measurements_in_sql, mbind, M_bind, getitem,
        value_lower, setitem. cbn.
      repeat (first [ rewrite Hf | rewrite Hs | rewrite Hz | rewrite lookup_insert_eq
                    | rewrite lookup_insert_ne by discriminate ]; cbn).
      reflexivity. }
  left. exists f, s, z. auto.
Qed.

Lemma enrich_frame md f k :
  k <> "region" -> k <> "genotype" -> enrich md f !! k = md !! k.
Proof.
  intros Hr Hg. unfold enrich. rewrite !lookup_insert_ne by congruence.
  reflexivity.
Qed.


Lemma last_summary_row_appended (old : list (list value)) row d :
  last_summary_row {| summary_csv := Some (old ++ [row]); dbs := d |} = row.
Proof. unfold last_summary_row. simpl. apply last_last. Qed.

Lemma stored_region_known f : stored_region f <> "unknown".
Proof. unfold stored_region. destruct (contains _ _); discriminate. Qed.

Lemma stored_genotype_known f : stored_genotype f <> "unknown".
Proof. unfold stored_genotype. destruct (contains _ _); discriminate. Qed.

(** C3 (amended). For every path, [parse_filename] infers region and
    genotype by a case-insensitive substring search over every path segment,
    first keyword first, and gives "unknown" when no segment has a keyword;
    it never fails. The flat summary record does not keep "unknown":
    [store_measurements_in_sql] writes region "meristem" when the lower-cased
    file name field contains "meristem" and "elongation" otherwise, and
    genotype "control" when it contains "control" and "mutant" otherwise;
    the row is written whether the call then returns or leaves with the
    [OverflowError] of an insert. *)
Theorem region_genotype_inferred_then_forced
    (file_path db : string) (ms : list measurement) (w : world) :
  let p := mkPath file_path in
  let segs := map lower (parts p) in
  let meta := parse_filename file_path in
  let run := store_measurements_in_sql db ms {| files := w; metadata := meta |} in
  meta !! "region" =
    Some (VStr (if existsb (contains "meristem") segs then "meristem"
                else if existsb (contains "elongation") segs then "elongation"
                else "unknown")) /\
  meta !! "genotype" =
    Some (VStr (if existsb (contains "control") segs then "control"
                else if existsb (contains "mutant") segs then "mutant"
                else "unknown")) /\
  (snd run = Ok tt \/ snd run = Raise OverflowError) /\
  take 3 (last_summary_row (files (fst run))) =
    [VStr (str p);
     VStr (if contains "meristem" (lower (str p)) then "meristem" else "elongation");
     VStr (if contains "control" (lower (str p)) then "control" else "mutant")] /\
  nth 1 (last_summary_row (files (fst run))) VNone <> VStr "unknown" /\
  nth 2 (last_summary_row (files (fst run))) VNone <> VStr "unknown".
Proof.
  intros p segs meta run.
  destruct (parse_filename_lookup file_path) as (Hf & Hr & Hg & [s Hs] & [z Hz]).
  fold p in Hf, Hr, Hg. fold meta in Hf, Hr, Hg, Hs, Hz. fold segs in Hr, Hg.
  rewrite first_keyword_two in Hr, Hg.
  assert (Hrun := store_run db ms w meta _ _ _ Hf Hs Hz).
  fold run in Hrun. cbv zeta in Hrun. rewrite Hrun.
  split; [exact Hr|]. split; [exact Hg|].
  destruct (all_bindable meta ms); cbn [fst snd files];
    rewrite last_summary_row_appended; cbn [take nth];
    (split; [auto|]); (split; [reflexivity|]); split.
  - intros [= H]. exact (stored_region_known _ H).
  - intros [= H]. exact (stored_genotype_known _ H).
  - intros [= H]. exact (stored_region_known _ H).
  - intros [= H]. exact (stored_genotype_known _ H).
Qed.

(** C8 (amended). [store_measurements_in_sql] changes the metadata
    dictionary in the keys "region" and "genotype" only: every other field
    is what [parse_filename] (or the caller) put there, whatever the run
    does, including a run that raises. *)
Theorem store_changes_region_and_genotype_only
    (db : string) (ms : list measurement) (st : store_state) (k : string) :
  k <> "region" -> k <> "genotype" ->
  metadata (fst (store_measurements_in_sql db ms st)) !! k = metadata st !! k.
Proof.
  intros Hr Hg. destruct st as [w md]. cbn [metadata].
  destruct (store_shape db ms w md)
    as [(f & s & z & Hf & Hs & Hz) | (_ & e & md' & Hrun & _ & Hmd)].
  - rewrite (store_run db ms w md f s z Hf Hs Hz).
    destruct (all_bindable md ms); cbn [fst metadata];
      apply enrich_frame; assumption.
  - rewrite Hrun. cbn [fst metadata].
    destruct Hmd as [-> | [f ->]]; [reflexivity | apply enrich_frame; assumption].
Qed.

Lemma store_changes_region_and_genotype_only_witness :
  "channel" <> "region" /\ "channel" <> "genotype" /\
  metadata (fst (store_measurements_in_sql "results.db" []
     {| files := {| summary_csv := None; dbs := ∅ |};
        metadata := parse_filename "plate1/img_z1c2.tif" |})) !! "channel"
  = parse_filename "plate1/img_z1c2.tif" !! "channel".
Proof.
  split; [discriminate|]. split; [discriminate|].
  apply (store_changes_region_and_genotype_only "results.db" []
           {| files := {| summary_csv := None; dbs := ∅ |};
              metadata := parse_filename "plate1/img_z1c2.tif" |} "channel");
    discriminate.
Defined.

Lemma truthy_false_zero n :
  truthy n = false <-> n = NInt 0 \/ exists b, n = NFloat (S754_zero b).
Proof.
  destruct n as [z|[b|b| |b m e]]; simpl; split; try discriminate; eauto.
  - rewrite negb_false_iff, Z.eqb_eq. intros ->. left. reflexivity.
  - intros [[= ->]|[b [=]]]. reflexivity.
  - intros [[=]|[b' [=]]].
  - intros [[=]|[b' [=]]].
  - intros [[=]|[b' [=]]].
Qed.

Lemma fold_num_add_float xs a :
  fold_left num_add xs (NFloat a) = NFloat (fold_left f64_add xs a).
Proof.
  revert a. induction xs as [|x xs IH]; intros a; [reflexivity|].
  cbn [fold_left]. unfold num_add at 2. cbn [num_float]. apply IH.
Qed.

Lemma py_sum_cons x xs : py_sum (x :: xs) = NFloat (float_sum (x :: xs)).
Proof.
  unfold py_sum, float_sum. cbn [fold_left]. unfold num_add at 2.
  cbn [num_float]. apply fold_num_add_float.
Qed.

(** C4. For every metadata dictionary (with its file name, seedling and
    z-slice) and every list of measurements, the summary row that
    [store_measurements_in_sql] writes, and the images row when the call
    returns, hold as total area and total integrated intensity the plain
    sums of the list (floats added from the left, starting from zero; the
    integer 0 for the empty list), and as mean intensity their quotient,
    except that the mean is exactly the integer 0 when the total area is
    zero; for the empty list the total area is 0 and the mean is 0. *)
Theorem aggregator_sums_and_guarded_mean
    (db : string) (ms : list measurement) (w : world)
    (md : gmap string value) (f : string) (s z : value) :
  md !! "filename" = Some (VStr f) ->
  md !! "seedling" = Some s ->
  md !! "zslice" = Some z ->
  let run := store_measurements_in_sql db ms {| files := w; metadata := md |} in
  let area := float_sum (map area_pixels ms) in
  let intensity := float_sum (map integrated_intensity ms) in
  exists ta ti mi,
    drop 5 (last_summary_row (files (fst run))) = [ta; ti; mi] /\
    (snd run = Ok tt ->
     exists rows r0 r1 r2 r3,
       images (db_at (files (fst run)) db) =
         rows ++ [[r0; r1; r2; r3; ta; mi; ti]]) /\
    match ms with
    | [] => ta = VInt 0 /\ ti = VInt 0 /\ mi = VInt 0
    | _ :: _ =>
        ta = VFloat area /\ ti = VFloat intensity /\
        ((exists b, area = S754_zero b) -> mi = VInt 0) /\
        ((forall b, area <> S754_zero b) ->
         mi = VFloat (f64_div intensity area))
    end.
Proof.
  intros Hf Hs Hz run area intensity.
  assert (Hrun := store_run db ms w md f s z Hf Hs Hz).
  fold run in Hrun. cbv zeta in Hrun.
  exists (num_value (total_area ms)), (num_value (total_intensity ms)),
    (num_value (summary_mean_intensity ms)).
  split; [|split].
  - rewrite Hrun. destruct (all_bindable md ms); cbn [fst files];
      rewrite last_summary_row_appended; reflexivity.
  - rewrite Hrun. destruct (all_bindable md ms); cbn [fst snd files];
      [intros _ | discriminate].
    unfold db_at at 1. cbn [dbs]. rewrite lookup_insert_eq. cbn [default images].
    unfold image_row. eexists _, _, _, _, _. reflexivity.
  - destruct ms as [|m ms']; [repeat split; reflexivity|].
    unfold summary_mean_intensity, total_area, total_intensity.
    cbn [map]. rewrite !py_sum_cons.
    change (float_sum (area_pixels m :: map area_pixels ms')) with area.
    change (float_sum (integrated_intensity m :: map integrated_intensity ms'))
      with intensity.
    split; [reflexivity|]. split; [reflexivity|]. split.
    + intros Hzero.
      assert (Ht : truthy (NFloat area) = false)
        by (apply truthy_false_zero; right; destruct Hzero as [b ->]; eauto).
      rewrite Ht. reflexivity.
    + intros Hnz. destruct (truthy (NFloat area)) eqn:Ht; [reflexivity|].
      apply truthy_false_zero in Ht as [[=] | [b [= Hb]]].
      destruct (Hnz b Hb).
Qed.

Lemma aggregator_sums_and_guarded_mean_witness :
  let md := parse_filename "control_meristem/h2b_seedling3_z2c1.tif" in
  let ms := [ {| label := 1; area_pixels := f64_of_Z 9;
                 mean_intensity := f64_of_Z 200;
                 integrated_intensity := f64_mul (f64_of_Z 200) (f64_of_Z 9) |};
              {| label := 2; area_pixels := f64_of_Z 4;
                 mean_intensity := f64_of_Z 100;
                 integrated_intensity := f64_mul (f64_of_Z 100) (f64_of_Z 4) |} ] in
  let run := store_measurements_in_sql "results.db" ms
               {| files := {| summary_csv := None; dbs := ∅ |}; metadata := md |} in
  md !! "filename" = Some (VStr "control_meristem/h2b_seedling3_z2c1.tif") /\
  md !! "seedling" = Some (VInt 3) /\
  md !! "zslice" = Some (VInt 2) /\
  drop 5 (last_summary_row (files (fst run))) =
    [VFloat (f64_of_Z 13); VFloat (f64_of_Z 2200);
     VFloat (f64_div (f64_of_Z 2200) (f64_of_Z 13))].
Proof.
  intros md ms run.
  assert (Hf : md !! "filename" = Some (VStr "control_meristem/h2b_seedling3_z2c1.tif"))
    by (vm_compute; reflexivity).
  assert (Hs : md !! "seedling" = Some (VInt 3)) by (vm_compute; reflexivity).
  assert (Hz : md !! "zslice" = Some (VInt 2)) by (vm_compute; reflexivity).
  split; [exact Hf|]. split; [exact Hs|]. split; [exact Hz|].
  destruct (aggregator_sums_and_guarded_mean "results.db" ms
              {| summary_csv := None; dbs := ∅ |} md _ _ _ Hf Hs Hz)
    as (ta & ti & mi & Hrow & _ & Hta & Hti & _ & Hmi).
  fold run in Hrow. rewrite Hrow, Hta, Hti, Hmi.
  - vm_compute. reflexivity.
  - intros b. vm_compute. discriminate.
Defined.

(** C3, as stated, fails: for "plate1/img_z1c1.tif" the inferred region is
    "unknown" and the flat summary row says "elongation". *)
Lemma unknown_region_not_preserved :
  ~ (forall (file_path db : string) (ms : list measurement) (w : world),
       let meta := parse_filename file_path in
       let run := store_measurements_in_sql db ms
                    {| files := w; metadata := meta |} in
       meta !! "region" = Some (VStr "unknown") ->
       nth 1 (last_summary_row (files (fst run))) VNone = VStr "unknown").
Proof.
  intros H.
  specialize (H "plate1/img_z1c1.tif" "results.db" []
                {| summary_csv := None; dbs := ∅ |}).
  vm_compute in H. specialize (H eq_refl). discriminate H.
Qed.

(** C8, as stated, fails: for "plate1/img_z1c1.tif" the dictionary made by
    [parse_filename] has region "unknown" before the call of
    [store_measurements_in_sql] and "elongation" after it. *)
Lemma metadata_modified_by_store :
  ~ (forall (file_path db : string) (ms : list measurement) (w : world)
            (k : string),
       metadata (fst (store_measurements_in_sql db ms
                        {| files := w; metadata := parse_filename file_path |}))
         !! k
       = parse_filename file_path !! k).
Proof.
  intros H.
  specialize (H "plate1/img_z1c1.tif" "results.db" []
                {| summary_csv := None; dbs := ∅ |} "region").
  vm_compute in H. discriminate H.
Qed.

(** ** Floating-point facts used by the normalizer *)

Lemma f32_sub_diag x :
  f32_sub x x = S754_zero false \/ f32_sub x x = S754_nan.
Proof.
  unfold f32_sub. destruct x as [s|s| |s m e]; simpl.
  - left. destruct s; reflexivity.
  - right. destruct s; reflexivity.
  - right. reflexivity.
  - left. rewrite Z.sub_diag. reflexivity.
Qed.

Lemma f32_zero_over_zero x :
  f32_div (f32_sub x x) (f32_sub x x) = S754_nan.
Proof. destruct (f32_sub_diag x) as [-> | ->]; reflexivity. Qed.

Lemma stretch_constant x : stretch x x x = S754_nan.
Proof. unfold stretch. rewrite f32_zero_over_zero. reflexivity. Qed.

Lemma f_min_same x : f_min x x = x.
Proof. unfold f_min. destruct (SFltb x x); reflexivity. Qed.

Lemma f_max_same x : f_max x x = x.
Proof. unfold f_max. destruct (SFltb x x); reflexivity. Qed.

Lemma fold_constant (f : spec_float -> spec_float -> spec_float) x l :
  f x x = x -> Forall (fun y => y = x) l -> fold_left f l x = x.
Proof.
  intros Hf Hl. induction Hl as [|y l -> _ IH]; simpl; [reflexivity|].
  rewrite Hf. exact IH.
Qed.

Lemma map_constant {A B} (f : A -> B) (y : B) (l : list A) :
  Forall (fun a => f a = y) l -> map f l = map (fun _ => y) l.
Proof. induction 1 as [|a l Ha _ IH]; simpl; [reflexivity|]. rewrite Ha, IH. reflexivity. Qed.

Section NormalizerFacts.

Variable undef_cast : spec_float -> Z.

(** C1 (the code at constant images). For every non-empty image whose
    samples all equal [v], the divisor [img.max() - img.min()] of
    [normalize_image] is zero (or NaN when [v] overflows float32) and the
    quotient is NaN at every pixel: the float32 array before the cast is NaN
    everywhere, and each output sample is whatever the platform's cast of
    NaN to an unsigned byte gives. *)
Theorem normalize_image_constant_zero_over_zero (img : ndarray) (v : Z) :
  buf img <> [] ->
  Forall (fun x => x = v) (buf img) ->
  (f32_sub (f32_of_Z v) (f32_of_Z v) = S754_zero false \/
   f32_sub (f32_of_Z v) (f32_of_Z v) = S754_nan) /\
  f32_div (f32_sub (f32_of_Z v) (f32_of_Z v))
          (f32_sub (f32_of_Z v) (f32_of_Z v)) = S754_nan /\
  normalize_float (buf img) = Ok (map (fun _ => S754_nan) (buf img)) /\
  normalize_image undef_cast img =
    Ok {| shape := shape img;
          buf := map (fun _ => undef_cast S754_nan) (buf img) |}.
Proof.
  intros Hne Hall. split; [apply f32_sub_diag|].
  split; [apply f32_zero_over_zero|].
  assert (Hfl : normalize_float (buf img) = Ok (map (fun _ => S754_nan) (buf img))).
  { unfold normalize_float. destruct (buf img) as [|x b] eqn:Hb; [congruence|].
    inversion Hall as [|? ? Hx Hrest]; subst x. simpl.
    assert (Hc : Forall (fun y => y = f32_of_Z v) (map f32_of_Z b)).
    { clear -Hrest. induction Hrest as [|? ? -> _ IH]; simpl; constructor; auto. }
    rewrite (fold_constant f_min _ _ (f_min_same _) Hc).
    rewrite (fold_constant f_max _ _ (f_max_same _) Hc).
    rewrite stretch_constant. f_equal. f_equal.
    rewrite map_map. apply map_constant.
    clear -Hrest. induction Hrest as [|? ? -> _ IH]; constructor; auto.
    apply stretch_constant. }
  split; [exact Hfl|].
  unfold normalize_image. rewrite Hfl. rewrite map_map. reflexivity.
Qed.

End NormalizerFacts.

Lemma normalize_image_constant_zero_over_zero_witness :
  let img := {| shape := [2; 2]%nat; buf := [7; 7; 7; 7] |} in
  buf img <> [] /\
  Forall (fun x => x = 7) (buf img) /\
  normalize_image (fun _ => 0) img =
    Ok {| shape := [2; 2]%nat; buf := [0; 0; 0; 0] |}.
Proof.
  intros img. split; [discriminate|]. split; [repeat constructor|].
  apply (normalize_image_constant_zero_over_zero (fun _ => 0) img 7);
    [discriminate | repeat constructor].
Defined.

(** ** Exhaustive checks over 8-bit samples *)

Lemma sf_eqb_eq x y : sf_eqb x y = true -> x = y.
Proof.
  destruct x as [a|a| |a m e], y as [b|b| |b n f]; simpl; try discriminate;
    try reflexivity.
  - intros H. apply Bool.eqb_prop in H. congruence.
  - intros H. apply Bool.eqb_prop in H. congruence.
  - rewrite !andb_true_iff. intros [[H1 H2] H3].
    apply Bool.eqb_prop in H1. apply Pos.eqb_eq in H2. apply Z.eqb_eq in H3.
    congruence.
Qed.

Lemma zrange_In n z : 0 <= z < Z.of_nat n -> In z (zrange n).
Proof.
  intros Hz. unfold zrange. apply in_map_iff. exists (Z.to_nat z). split.
  - lia.
  - apply in_seq. lia.
Qed.

Lemma check1_sound n P :
  check1 n P = true -> forall a, 0 <= a < Z.of_nat n -> P a = true.
Proof.
  unfold check1. rewrite forallb_forall. intros H a Ha.
  apply H, zrange_In, Ha.
Qed.

Lemma check2_sound n m P :
  check2 n m P = true ->
  forall a b, 0 <= a < Z.of_nat n -> 0 <= b < Z.of_nat m -> P a b = true.
Proof.
  unfold check2. rewrite forallb_forall. intros H a b Ha Hb.
  specialize (H a (zrange_In _ _ Ha)). rewrite forallb_forall in H.
  apply H, zrange_In, Hb.
Qed.

(** The float64 sum of two small integers is exact. *)
Lemma f64_add_small a b :
  0 <= a < 511 -> 0 <= b < 256 ->
  f64_add (f64_of_Z a) (f64_of_Z b) = f64_of_Z (a + b).
Proof.
  intros Ha Hb. apply sf_eqb_eq.
  apply (check2_sound 511 256
           (fun a b => sf_eqb (f64_add (f64_of_Z a) (f64_of_Z b)) (f64_of_Z (a + b))));
    [vm_compute; reflexivity | lia | lia].
Qed.

(** Truncating the float64 quotient by 3 is the integer quotient. *)
Lemma f64_third_trunc t :
  0 <= t < 766 -> sf_trunc (f64_div (f64_of_Z t) (f64_of_Z 3)) = Some (t / 3).
Proof.
  intros Ht.
  assert (H := check1_sound 766
    (fun t => match sf_trunc (f64_div (f64_of_Z t) (f64_of_Z 3)) with
              | Some q => Z.eqb q (t / 3) | None => false end)).
  specialize (H ltac:(vm_compute; reflexivity) t ltac:(lia)). simpl in H.
  destruct (sf_trunc _) as [q|]; [|discriminate].
  apply Z.eqb_eq in H. congruence.
Qed.

(** ** Grayscale reduction *)

Lemma triples_ind (P : list Z -> Prop) :
  P [] -> (forall a, P [a]) -> (forall a b, P [a; b]) ->
  (forall r g b rest, P rest -> P (r :: g :: b :: rest)) ->
  forall l, P l.
Proof.
  intros H0 H1 H2 H3.
  assert (H : forall n l, (length l <= n)%nat -> P l).
  { induction n as [|n IH]; intros l Hl.
    - destruct l; [exact H0 | simpl in Hl; lia].
    - destruct l as [|r [|g [|b rest]]]; auto.
      apply H3, IH. simpl in Hl. lia. }
  intros l. apply (H (length l)). lia.
Qed.

Lemma average_buf_length avg l :
  length (average_buf avg l) = (length l / 3)%nat.
Proof.
  induction l as [| | |r g b rest IH] using triples_ind; try reflexivity.
  cbn [average_buf length]. rewrite IH.
  change (S (S (S (length rest)))) with (3 + length rest)%nat.
  replace (3 + length rest)%nat with (length rest + 1 * 3)%nat by lia.
  rewrite Nat.div_add by discriminate. lia.
Qed.

Section GrayFacts.

Variable undef_cast : spec_float -> Z.

Lemma gray_pixel_floor r g b :
  sample8 r -> sample8 g -> sample8 b ->
  astype_uint8 undef_cast (mean3 r g b) = floor_mean3 r g b.
Proof.
  unfold sample8, mean3, floor_mean3, astype_uint8. intros Hr Hg Hb.
  rewrite f64_add_small by lia. rewrite f64_add_small by lia.
  rewrite f64_third_trunc by lia.
  assert (0 <= (r + g + b) / 3 <= 255).
  { split; [apply Z.div_pos; lia | apply Z.div_le_upper_bound; lia]. }
  replace (0 <=? (r + g + b) / 3) with true by (symmetry; apply Z.leb_le; lia).
  replace ((r + g + b) / 3 <=? 255) with true by (symmetry; apply Z.leb_le; lia).
  reflexivity.
Qed.

Lemma gray_buf_floor l :
  Forall sample8 l -> gray_buf undef_cast l = average_buf floor_mean3 l.
Proof.
  induction l as [| | |r g b rest IH] using triples_ind; try reflexivity.
  intros H. inversion H as [|? ? Hr H1]; subst.
  inversion H1 as [|? ? Hg H2]; subst. inversion H2 as [|? ? Hb H3]; subst.
  cbn [gray_buf average_buf]. rewrite gray_pixel_floor by assumption.
  rewrite IH by assumption. reflexivity.
Qed.

Variable imread : string -> imread_result.

(** C6 (amended). When [tifffile.imread] gives a three-dimensional array
    of shape [h; w; 3] with 8-bit samples, [load_tif] reduces it to
    grayscale by averaging the three channels of each pixel and truncating
    the average (rounding down, not to the nearest integer); the array it
    returns after normalization has exactly the two dimensions [h; w]. *)
Theorem rgb_reduction_truncates (fname : string) (img : ndarray) (h w : nat) :
  imread fname = ImArray img ->
  shape img = [h; w; 3%nat] ->
  well_shaped img ->
  (0 < h)%nat -> (0 < w)%nat ->
  Forall sample8 (buf img) ->
  rgb_to_gray undef_cast img =
    {| shape := [h; w]; buf := average_buf floor_mean3 (buf img) |} /\
  exists out,
    load_tif undef_cast imread fname = Some out /\
    normalize_image undef_cast (rgb_to_gray undef_cast img) = Ok out /\
    shape out = [h; w] /\
    length (buf out) = (h * w)%nat.
Proof.
  intros Him Hsh Hws Hh Hw Hs8.
  assert (Hg : rgb_to_gray undef_cast img =
            {| shape := [h; w]; buf := average_buf floor_mean3 (buf img) |}).
  { unfold rgb_to_gray. rewrite Hsh, gray_buf_floor by assumption. reflexivity. }
  split; [exact Hg|].
  assert (Hlen : length (average_buf floor_mean3 (buf img)) = (h * w)%nat).
  { rewrite average_buf_length. unfold well_shaped in Hws. rewrite Hws, Hsh.
    change (fold_right Nat.mul 1%nat [h; w; 3%nat]) with (h * (w * (3 * 1)))%nat.
    replace (h * (w * (3 * 1)))%nat with (h * w * 3)%nat by lia.
    apply Nat.div_mul. discriminate. }
  unfold load_tif, load_tif_body. rewrite Him. unfold ndim. rewrite Hsh. simpl.
  rewrite Hg. unfold normalize_image, normalize_float. simpl.
  destruct (average_buf floor_mean3 (buf img)) as [|x b] eqn:Hb.
  { simpl in Hlen. nia. }
  simpl. eexists. split; [reflexivity|]. split; [reflexivity|]. simpl.
  split; [reflexivity|]. rewrite !length_map. simpl in Hlen. lia.
Qed.

End GrayFacts.

Lemma rgb_reduction_truncates_witness :
  let imread := fun _ : string => ImArray one_rgb_pixel in
  imread "a.tif" = ImArray one_rgb_pixel /\
  shape one_rgb_pixel = [1; 1; 3]%nat /\
  well_shaped one_rgb_pixel /\
  (0 < 1)%nat /\ (0 < 1)%nat /\
  Forall sample8 (buf one_rgb_pixel) /\
  rgb_to_gray (fun _ => 0) one_rgb_pixel = {| shape := [1; 1]%nat; buf := [0] |}.
Proof.
  intros imread.
  assert (H8 : Forall sample8 (buf one_rgb_pixel))
    by (repeat constructor; discriminate).
  repeat (split; [first [reflexivity | lia | exact H8]|]).
  apply (rgb_reduction_truncates (fun _ => 0) imread "a.tif" one_rgb_pixel 1%nat 1%nat);
    first [reflexivity | lia | exact H8].
Defined.

(** C6, as stated, fails: the pixel (0, 0, 2) has average 2/3, which the
    cast truncates to 0, while the nearest integer is 1. *)
Lemma rgb_average_not_rounded_to_nearest :
  ~ (forall (undef_cast : spec_float -> Z) (img : ndarray) (h w : nat),
       shape img = [h; w; 3%nat] ->
       Forall sample8 (buf img) ->
       buf (rgb_to_gray undef_cast img) = average_buf nearest_mean3 (buf img)).
Proof.
  intros H.
  specialize (H (fun _ => 0) one_rgb_pixel 1%nat 1%nat eq_refl).
  assert (H8 : Forall sample8 (buf one_rgb_pixel))
    by (repeat constructor; discriminate).
  specialize (H H8). vm_compute in H. discriminate H.
Qed.

(** ** The batch loop *)

Section BatchFacts.

Variable undef_cast : spec_float -> Z.
Variable imread : string -> imread_result.
Variable threshold_local : grid Z -> list spec_float.
Variable binary_closing binary_opening : grid bool -> nat -> grid bool.
Variable visualize :
  ndarray -> grid bool -> grid nat -> list measurement -> string -> result unit.
Variable rank_error : ndarray -> exn.
Variable out_dir : string.

Local Abbreviation run_file :=
  (process_file undef_cast imread threshold_local binary_closing
     binary_opening visualize rank_error out_dir).
Local Abbreviation run_files :=
  (process_files undef_cast imread threshold_local binary_closing
     binary_opening visualize rank_error out_dir).

Lemma load_tif_undecodable fname :
  undecodable imread fname -> load_tif undef_cast imread fname = None.
Proof.
  unfold load_tif, load_tif_body. intros [[e ->] | ->]; reflexivity.
Qed.

(** On an undecodable file [load_tif] prints the line of its [except]
    clause and nothing else. *)
Lemma load_tif_prints_undecodable fname :
  undecodable imread fname ->
  exists e, load_tif_prints undef_cast imread fname = [ErrorLoading fname e].
Proof.
  unfold load_tif_prints, load_tif_body. intros [[e ->] | ->]; eauto.
Qed.

Lemma omap_event_file_loader (ms : list load_message) :
  omap event_file (map Loader ms) = [].
Proof. induction ms as [|m ms IH]; [reflexivity | exact IH]. Qed.

Lemma omap_cons {A B} (f : A -> option B) (x : A) (l : list A) :
  omap f (x :: l) =
    match f x with Some y => y :: omap f l | None => omap f l end.
Proof. reflexivity. Qed.

(** One iteration always ends: after the lines of [load_tif], the loop
    prints exactly one line, about its file. *)
Lemma process_file_one_event st fname :
  exists e,
    log (run_file st fname) =
      log st ++ map Loader (load_tif_prints undef_cast imread fname) ++ [e] /\
    event_file e = Some fname.
Proof.
  unfold process_file.
  destruct (load_tif undef_cast imread fname) as [img|];
    [|eexists; cbn; rewrite <- app_assoc; split; reflexivity].
  destruct (grid_of_ndarray img) as [image|];
    [|eexists; cbn; rewrite <- app_assoc; split; reflexivity].
  destruct (segment_and_measure_spots _ _ _ _ _ _ _) as [[sp mask]|e];
    [|eexists; cbn; rewrite <- app_assoc; split; reflexivity].
  destruct (store_measurements_in_sql _ _ _) as [st' [u|e]];
    [|eexists; cbn; rewrite <- app_assoc; split; reflexivity].
  destruct (visualize _ _ _ _ _) as [u'|e];
    eexists; cbn; rewrite <- app_assoc; split; reflexivity.
Qed.

Lemma process_files_events tif_files st :
  exists evs, log (run_files tif_files st) = log st ++ evs /\
              omap event_file evs = tif_files.
Proof.
  unfold process_files. revert st.
  induction tif_files as [|f fs IH]; intros st; cbn [fold_left].
  - exists []. rewrite app_nil_r. split; reflexivity.
  - destruct (process_file_one_event st f) as (e & He & Hf).
    destruct (IH (run_file st f)) as (evs & Hevs & Hmap).
    exists (map Loader (load_tif_prints undef_cast imread f) ++ e :: evs). split.
    + rewrite Hevs, He, <- !app_assoc. reflexivity.
    + rewrite omap_app, omap_event_file_loader, (omap_cons event_file e evs).
      rewrite Hf, Hmap. reflexivity.
Qed.


End BatchFacts.

(** ** Normalization of 8-bit images with two different values *)

Lemma f32_min_max_8bit a b :
  sample8 a -> sample8 b ->
  f_min (f32_of_Z a) (f32_of_Z b) = f32_of_Z (Z.min a b) /\
  f_max (f32_of_Z a) (f32_of_Z b) = f32_of_Z (Z.max a b).
Proof.
  unfold sample8. intros Ha Hb.
  assert (H := check2_sound 256 256
    (fun a b =>
       sf_eqb (f_min (f32_of_Z a) (f32_of_Z b)) (f32_of_Z (Z.min a b)) &&
       sf_eqb (f_max (f32_of_Z a) (f32_of_Z b)) (f32_of_Z (Z.max a b)))
    ltac:(vm_compute; reflexivity) a b ltac:(lia) ltac:(lia)).
  simpl in H. apply andb_true_iff in H as [H1 H2].
  split; apply sf_eqb_eq; assumption.
Qed.

Section StretchFacts.

Variable undef_cast : spec_float -> Z.

(** The two ends of the stretch: the minimum goes to 0, the maximum to 255. *)
Lemma stretch_extremes_8bit lo hi :
  0 <= lo -> lo < hi -> hi <= 255 ->
  astype_uint8 undef_cast (stretch (f32_of_Z lo) (f32_of_Z hi) (f32_of_Z lo)) = 0 /\
  astype_uint8 undef_cast (stretch (f32_of_Z lo) (f32_of_Z hi) (f32_of_Z hi)) = 255.
Proof.
  intros H0 Hlt H255.
  assert (H := check2_sound 256 256
    (fun lo hi =>
       if lo <? hi then
         match sf_trunc (stretch (f32_of_Z lo) (f32_of_Z hi) (f32_of_Z lo)),
               sf_trunc (stretch (f32_of_Z lo) (f32_of_Z hi) (f32_of_Z hi)) with
         | Some a, Some b => (a =? 0) && (b =? 255)
         | _, _ => false
         end
       else true)
    ltac:(vm_compute; reflexivity) lo hi ltac:(lia) ltac:(lia)).
  simpl in H. replace (lo <? hi) with true in H by (symmetry; apply Z.ltb_lt; lia).
  unfold astype_uint8.
  destruct (sf_trunc (stretch (f32_of_Z lo) (f32_of_Z hi) (f32_of_Z lo))) as [a|];
    [|discriminate].
  destruct (sf_trunc (stretch (f32_of_Z lo) (f32_of_Z hi) (f32_of_Z hi))) as [b|];
    [|discriminate].
  apply andb_true_iff in H as [Ha Hb]. apply Z.eqb_eq in Ha, Hb. subst a b.
  split; reflexivity.
Qed.

Lemma fold_min_8bit l x :
  sample8 x -> Forall sample8 l ->
  fold_left f_min (map f32_of_Z l) (f32_of_Z x) = f32_of_Z (fold_left Z.min l x) /\
  sample8 (fold_left Z.min l x).
Proof.
  intros Hx Hl. revert x Hx. induction Hl as [|y l Hy _ IH]; intros x Hx; simpl.
  - auto.
  - rewrite (proj1 (f32_min_max_8bit x y Hx Hy)). apply IH.
    unfold sample8 in *. lia.
Qed.

Lemma fold_max_8bit l x :
  sample8 x -> Forall sample8 l ->
  fold_left f_max (map f32_of_Z l) (f32_of_Z x) = f32_of_Z (fold_left Z.max l x) /\
  sample8 (fold_left Z.max l x).
Proof.
  intros Hx Hl. revert x Hx. induction Hl as [|y l Hy _ IH]; intros x Hx; simpl.
  - auto.
  - rewrite (proj2 (f32_min_max_8bit x y Hx Hy)). apply IH.
    unfold sample8 in *. lia.
Qed.

(** X1. For an 8-bit image whose least sample [lo] is below its greatest
    sample [hi], [normalize_image] returns an array of the same shape in which
    every sample that was [lo] is 0 and every sample that was [hi] is 255. *)
Lemma normalize_image_extremes_8bit (sh : list nat) (x : Z) (rest : list Z) :
  Forall sample8 (x :: rest) ->
  let lo := fold_left Z.min rest x in
  let hi := fold_left Z.max rest x in
  lo < hi ->
  exists out,
    normalize_image undef_cast {| shape := sh; buf := x :: rest |}
      = Ok {| shape := sh; buf := out |} /\
    length out = length (x :: rest) /\
    forall i, (i < length (x :: rest))%nat ->
      (nth i (x :: rest) 0 = lo -> nth i out 0 = 0) /\
      (nth i (x :: rest) 0 = hi -> nth i out 0 = 255).
Proof.
  intros H8 lo hi Hlt. inversion H8 as [|? ? Hx Hrest]; subst.
  destruct (fold_min_8bit rest x Hx Hrest) as [Hmin Hlo].
  destruct (fold_max_8bit rest x Hx Hrest) as [Hmax Hhi].
  fold lo in Hmin, Hlo. fold hi in Hmax, Hhi.
  unfold normalize_image, normalize_float.
  cbn [buf shape map arr_min arr_max]. rewrite Hmin, Hmax.
  eexists. split; [reflexivity|]. split; [cbn [length]; rewrite !length_map; reflexivity|].
  intros i Hi.
  set (f := fun v => astype_uint8 undef_cast
                       (stretch (f32_of_Z lo) (f32_of_Z hi) (f32_of_Z v))).
  change (astype_uint8 undef_cast
            (stretch (f32_of_Z lo) (f32_of_Z hi) (f32_of_Z x))) with (f x).
  rewrite !map_map. fold f. change (f x :: map f rest) with (map f (x :: rest)).
  rewrite (nth_indep (map f (x :: rest)) 0 (f 0)) by (rewrite length_map; exact Hi).
  rewrite (map_nth f). unfold sample8 in Hlo, Hhi.
  destruct (stretch_extremes_8bit lo hi) as [E0 E255]; try lia.
  split; intros ->; assumption.
Qed.

End StretchFacts.

(** ** Arrays *)

Lemma pixel_eqb_eq p q : pixel_eqb p q = true <-> p = q.
Proof.
  destruct p as [r c], q as [r' c']. unfold pixel_eqb. simpl.
  rewrite andb_true_iff, !Nat.eqb_eq. split; [intros [-> ->]; reflexivity|].
  intros [= -> ->]. split; reflexivity.
Qed.

Lemma pixel_eqb_refl p : pixel_eqb p p = true.
Proof. apply pixel_eqb_eq. reflexivity. Qed.

Lemma mem_elem_of p l : mem p l = true <-> p ∈ l.
Proof.
  unfold mem. rewrite existsb_exists. split.
  - intros (q & Hq & He). apply pixel_eqb_eq in He. subst q.
    apply list_elem_of_In, Hq.
  - intros H. exists p. split; [apply list_elem_of_In, H | apply pixel_eqb_refl].
Qed.

Lemma all_pixels_elem_of h w p :
  p ∈ all_pixels h w <-> (fst p < h)%nat /\ (snd p < w)%nat.
Proof.
  rewrite list_elem_of_In. unfold all_pixels. rewrite in_flat_map. split.
  - intros (r & Hr & Hp). apply in_map_iff in Hp as (c & <- & Hc).
    apply in_seq in Hr, Hc. simpl. lia.
  - intros [Hr Hc]. exists (fst p). split; [apply in_seq; lia|].
    apply in_map_iff. exists (snd p). split; [destruct p; reflexivity|].
    apply in_seq. lia.
Qed.

Lemma NoDup_all_pixels h w : NoDup (all_pixels h w).
Proof.
  unfold all_pixels. generalize 0%nat at 2 as r0.
  induction h as [|h IH]; intros r0; simpl; [constructor|].
  apply NoDup_app. split; [|split].
  - apply (NoDup_fmap_2 (pair r0)). apply NoDup_seq.
  - intros [r c] H1 H2. apply list_elem_of_In, in_map_iff in H1 as (c' & [= <- <-] & _).
    apply list_elem_of_In, in_flat_map in H2 as (r' & Hr' & H2).
    apply in_map_iff in H2 as (c'' & [= <- _] & _). apply in_seq in Hr'. lia.
  - apply IH.
Qed.

Lemma nth_all_pixels_from (w h r0 r c : nat) :
  (r < h)%nat -> (c < w)%nat ->
  nth (r * w + c) (flat_map (fun r => map (pair r) (seq 0 w)) (seq r0 h)) (O, O)
  = ((r0 + r)%nat, c).
Proof.
  revert r0 r. induction h as [|h IH]; intros r0 r Hr Hc; [lia|].
  simpl. destruct r as [|r].
  - rewrite app_nth1 by (rewrite length_map, length_seq; exact Hc).
    simpl. rewrite (nth_indep _ _ (r0, O)) by (rewrite length_map, length_seq; exact Hc).
    rewrite (map_nth (pair r0)), seq_nth by exact Hc. f_equal; lia.
  - rewrite app_nth2 by (rewrite length_map, length_seq; simpl; lia).
    rewrite length_map, length_seq.
    replace (S r * w + c - w)%nat with (r * w + c)%nat by (simpl; lia).
    rewrite IH by lia. f_equal; lia.
Qed.

Lemma length_all_pixels h w : length (all_pixels h w) = (h * w)%nat.
Proof.
  unfold all_pixels. generalize 0%nat at 2 as r0.
  induction h as [|h IH]; intros r0; simpl; [reflexivity|].
  rewrite length_app, length_map, length_seq, IH. reflexivity.
Qed.

Lemma cell_mk_grid {A} (d : A) h w (f : pixel -> A) p :
  cell d (mk_grid h w f) p =
    if ((fst p <? h) && (snd p <? w))%nat then f p else d.
Proof.
  unfold cell, mk_grid. simpl.
  destruct ((fst p <? h) && (snd p <? w))%nat eqn:Hb; [|reflexivity].
  apply andb_true_iff in Hb as [Hr Hc]. apply Nat.ltb_lt in Hr, Hc.
  assert (Hlen : (fst p * w + snd p < length (all_pixels h w))%nat).
  { rewrite length_all_pixels. nia. }
  rewrite (nth_indep _ _ (f (O, O))) by (rewrite length_map; exact Hlen).
  rewrite (map_nth f). unfold all_pixels.
  rewrite nth_all_pixels_from by assumption. destruct p; reflexivity.
Qed.

Lemma cell_mk_grid_in {A} (d : A) h w (f : pixel -> A) p :
  p ∈ all_pixels h w -> cell d (mk_grid h w f) p = f p.
Proof.
  intros Hp. apply all_pixels_elem_of in Hp as [Hr Hc].
  rewrite cell_mk_grid.
  replace (fst p <? h)%nat with true by (symmetry; apply Nat.ltb_lt; exact Hr).
  replace (snd p <? w)%nat with true by (symmetry; apply Nat.ltb_lt; exact Hc).
  reflexivity.
Qed.

Lemma cell_in_bounds {A} (d : A) (g : grid A) p :
  cell d g p <> d -> p ∈ pixels_of g.
Proof.
  unfold cell, pixels_of. intros H. apply all_pixels_elem_of.
  destruct ((fst p <? height g) && (snd p <? width g))%nat eqn:Hb; [|congruence].
  apply andb_true_iff in Hb as [Hr Hc]. apply Nat.ltb_lt in Hr, Hc. auto.
Qed.

Lemma fg_elem_of m p : p ∈ fg m <-> cell false m p = true.
Proof.
  unfold fg. rewrite list_elem_of_filter. split; [tauto|].
  intros H. split; [exact H|]. apply (cell_in_bounds false). congruence.
Qed.

Lemma NoDup_fg m : NoDup (fg m).
Proof. apply NoDup_filter, NoDup_all_pixels. Qed.

Lemma fg_in_bounds m p : p ∈ fg m -> p ∈ pixels_of m.
Proof. unfold fg. rewrite list_elem_of_filter. tauto. Qed.

(** ** Flood fill computes connected components *)

Section ComponentFacts.

Variable adjb : pixel -> pixel -> bool.

Lemma expand_elem_of nodes reached q :
  q ∈ expand adjb nodes reached <->
  q ∈ nodes /\ (q ∈ reached \/ exists r, r ∈ reached /\ adjb r q = true).
Proof.
  unfold expand. rewrite list_elem_of_filter, orb_true_iff, mem_elem_of.
  rewrite existsb_exists. split.
  - intros [[H|(r & Hr & Ha)] Hq]; split; auto.
    right. exists r. split; [apply list_elem_of_In, Hr | exact Ha].
  - intros [Hq [H|(r & Hr & Ha)]]; split; auto.
    right. exists r. split; [apply list_elem_of_In, Hr | exact Ha].
Qed.

Lemma expand_grows nodes reached :
  reached ⊆ nodes -> reached ⊆ expand adjb nodes reached.
Proof. intros Hs q Hq. apply expand_elem_of. auto. Qed.

Lemma expand_subseteq nodes reached : expand adjb nodes reached ⊆ nodes.
Proof. intros q Hq. apply expand_elem_of in Hq. tauto. Qed.

Lemma flood_subseteq n nodes reached :
  reached ⊆ nodes -> flood adjb n nodes reached ⊆ nodes.
Proof. destruct n; simpl; [auto | intros _; apply expand_subseteq]. Qed.

Lemma flood_grows n nodes reached :
  reached ⊆ nodes -> reached ⊆ flood adjb n nodes reached.
Proof.
  intros Hs. induction n as [|n IH]; simpl; [reflexivity|].
  etransitivity; [exact IH|]. apply expand_grows, flood_subseteq, Hs.
Qed.

Lemma flood_NoDup n nodes reached :
  NoDup nodes -> NoDup reached -> NoDup (flood adjb n nodes reached).
Proof. intros Hn Hr. destruct n; simpl; [exact Hr | apply NoDup_filter, Hn]. Qed.

Lemma flood_sound n nodes reached p q :
  reached ⊆ nodes ->
  (forall x, x ∈ reached -> x = p) ->
  q ∈ flood adjb n nodes reached -> connected adjb nodes p q.
Proof.
  intros Hs H0. revert q. induction n as [|n IH]; intros q Hq; simpl in Hq.
  - rewrite (H0 q Hq). apply rtc_refl.
  - apply expand_elem_of in Hq as [Hq [H|(r & Hr & Ha)]]; [auto|].
    eapply rtc_r; [apply IH, Hr|]. split; [|split]; auto.
    exact (flood_subseteq n nodes reached Hs r Hr).
Qed.

Lemma closed_expand nodes reached :
  reached ⊆ nodes -> closed adjb nodes reached ->
  forall q, q ∈ expand adjb nodes reached <-> q ∈ reached.
Proof.
  intros Hs Hc q. rewrite expand_elem_of. split.
  - intros [Hq [H|(r & Hr & Ha)]]; [exact H | exact (Hc r q Hr Hq Ha)].
  - intros H. split; [apply Hs, H | left; exact H].
Qed.

Lemma closed_equiv nodes l1 l2 :
  (forall q, q ∈ l1 <-> q ∈ l2) -> closed adjb nodes l2 -> closed adjb nodes l1.
Proof. intros He Hc r q Hr Hq Ha. apply He. apply He in Hr. eauto. Qed.

Lemma expand_closed_or_longer nodes reached :
  NoDup reached -> reached ⊆ nodes ->
  closed adjb nodes reached \/
  (length reached < length (expand adjb nodes reached))%nat.
Proof.
  intros Hnd Hs.
  destruct (le_lt_dec (length (expand adjb nodes reached)) (length reached))
    as [Hle|Hlt]; [left | right; exact Hlt].
  assert (Hperm : reached ≡ₚ expand adjb nodes reached).
  { apply submseteq_length_Permutation; [|exact Hle].
    apply NoDup_submseteq; [exact Hnd | apply expand_grows, Hs]. }
  intros r q Hr Hq Ha. rewrite Hperm.
  apply expand_elem_of. split; [exact Hq|]. right. eauto.
Qed.

Lemma flood_closed_or_longer n nodes reached :
  NoDup nodes -> NoDup reached -> reached ⊆ nodes ->
  closed adjb nodes (flood adjb n nodes reached) \/
  (length reached + n <= length (flood adjb n nodes reached))%nat.
Proof.
  intros Hn Hr Hs. induction n as [|n IH]; simpl.
  - right. lia.
  - assert (Hsub := flood_subseteq n nodes reached Hs).
    destruct IH as [Hc|Hlen].
    + left. eapply closed_equiv; [apply closed_expand; assumption | exact Hc].
    + destruct (expand_closed_or_longer nodes (flood adjb n nodes reached))
        as [Hc|Hlt]; [apply flood_NoDup; assumption | exact Hsub | |].
      * left. eapply closed_equiv; [apply closed_expand; assumption | exact Hc].
      * right. lia.
Qed.

Lemma expand_nil nodes : expand adjb nodes [] = [].
Proof.
  unfold expand. induction nodes as [|y l IH]; [reflexivity|].
  rewrite filter_cons_False by (simpl; discriminate). exact IH.
Qed.

Lemma flood_nil n nodes : flood adjb n nodes [] = [].
Proof.
  induction n as [|n IH]; simpl; [reflexivity|]. rewrite IH. apply expand_nil.
Qed.

Lemma flood_closed nodes reached :
  NoDup nodes -> NoDup reached -> reached ⊆ nodes ->
  closed adjb nodes (flood adjb (length nodes) nodes reached).
Proof.
  intros Hn Hr Hs.
  destruct reached as [|x reached].
  - rewrite flood_nil. intros r q Hr0. inversion Hr0.
  - destruct (flood_closed_or_longer (length nodes) nodes (x :: reached) Hn Hr Hs)
      as [Hc|Hlen]; [exact Hc|].
    assert (Hle : (length (flood adjb (length nodes) nodes (x :: reached))
                   <= length nodes)%nat).
    { apply submseteq_length, NoDup_submseteq.
      - apply flood_NoDup; assumption.
      - apply flood_subseteq, Hs. }
    simpl in Hlen. lia.
Qed.

Lemma closed_connected nodes reached p q :
  closed adjb nodes reached -> p ∈ reached -> connected adjb nodes p q -> q ∈ reached.
Proof.
  intros Hc Hp Hpq. induction Hpq as [|x y z [Hx [Hy Ha]] _ IH]; [exact Hp|].
  apply IH. exact (Hc x y Hp Hy Ha).
Qed.

(** The component of [p] holds exactly the foreground pixels connected to a
    foreground [p]. *)
Lemma component_elem_of m p q :
  q ∈ component adjb m p <-> p ∈ fg m /\ connected adjb (fg m) p q.
Proof.
  unfold component.
  set (nodes := fg m). set (start := filter (fun q => pixel_eqb p q = true) nodes).
  assert (Hn : NoDup nodes) by apply NoDup_fg.
  assert (Hs : start ⊆ nodes) by (intros x Hx; apply list_elem_of_filter in Hx; tauto).
  assert (Hnd : NoDup start) by apply NoDup_filter, Hn.
  assert (H0 : forall x, x ∈ start -> x = p).
  { intros x Hx. apply list_elem_of_filter in Hx as [Hx _].
    symmetry. apply pixel_eqb_eq, Hx. }
  split.
  - intros Hq. assert (Hpq := flood_sound _ _ _ p q Hs H0 Hq). split; [|exact Hpq].
    destruct start as [|x start'].
    + rewrite flood_nil in Hq. inversion Hq.
    + assert (Hx : x = p) by (apply H0; left). subst x. apply Hs. left.
  - intros [Hp Hpq].
    eapply closed_connected; [apply flood_closed; assumption | | exact Hpq].
    apply flood_grows; [exact Hs|]. apply list_elem_of_filter.
    split; [apply pixel_eqb_refl | exact Hp].
Qed.

Lemma component_subseteq m p : component adjb m p ⊆ fg m.
Proof.
  unfold component. apply flood_subseteq.
  intros x Hx. apply list_elem_of_filter in Hx. tauto.
Qed.

Lemma NoDup_component m p : NoDup (component adjb m p).
Proof. unfold component. apply flood_NoDup; [|apply NoDup_filter]; apply NoDup_fg. Qed.

Lemma component_self m p : p ∈ fg m -> p ∈ component adjb m p.
Proof. intros Hp. apply component_elem_of. split; [exact Hp | apply rtc_refl]. Qed.

End ComponentFacts.

(** ** Labels *)

Lemma filter_bool_ext {A} (f g : A -> bool) (l : list A) :
  (forall x, x ∈ l -> f x = g x) ->
  filter (fun x => f x = true) l = filter (fun x => g x = true) l.
Proof.
  induction l as [|a l IH]; intros H; [reflexivity|].
  rewrite !filter_cons. rewrite IH by (intros x Hx; apply H; right; exact Hx).
  rewrite (H a) by left. destruct (decide (g a = true)); reflexivity.
Qed.

Lemma index_of_lt p l : p ∈ l -> (index_of p l < length l)%nat.
Proof.
  induction l as [|q l IH]; intros H; [inversion H|]. simpl.
  destruct (pixel_eqb p q) eqn:E; [lia|].
  apply elem_of_cons in H as [->|H]; [rewrite pixel_eqb_refl in E; discriminate|].
  specialize (IH H). lia.
Qed.

Lemma nth_index_of p l d : p ∈ l -> nth (index_of p l) l d = p.
Proof.
  induction l as [|q l IH]; intros H; [inversion H|]. simpl.
  destruct (pixel_eqb p q) eqn:E.
  - symmetry. apply pixel_eqb_eq, E.
  - apply elem_of_cons in H as [->|H]; [rewrite pixel_eqb_refl in E; discriminate|].
    apply IH, H.
Qed.

Lemma index_of_inj p q l :
  p ∈ l -> q ∈ l -> index_of p l = index_of q l -> p = q.
Proof.
  intros Hp Hq H. rewrite <- (nth_index_of p l p Hp), <- (nth_index_of q l p Hq), H.
  reflexivity.
Qed.

Lemma index_of_nth i l d :
  NoDup l -> (i < length l)%nat -> index_of (nth i l d) l = i.
Proof.
  revert i. induction l as [|q l IH]; intros i Hnd Hi; [simpl in Hi; lia|].
  apply NoDup_cons in Hnd as [Hq Hnd]. destruct i as [|i]; simpl.
  - rewrite pixel_eqb_refl. reflexivity.
  - simpl in Hi. destruct (pixel_eqb (nth i l d) q) eqn:E.
    + apply pixel_eqb_eq in E. exfalso. apply Hq. rewrite <- E.
      apply list_elem_of_In, nth_In. lia.
    + rewrite IH by (assumption || lia). reflexivity.
Qed.

Section LabelFacts.

Variable adjb : pixel -> pixel -> bool.
Hypothesis adjb_sym : forall p q, adjb p q = adjb q p.

Lemma connected_sym nodes p q :
  connected adjb nodes p q -> connected adjb nodes q p.
Proof.
  induction 1 as [|x y z [Hx [Hy Ha]] _ IH]; [apply rtc_refl|].
  eapply rtc_r; [exact IH|]. split; [|split]; auto. rewrite adjb_sym. exact Ha.
Qed.

Lemma connected_elem_of nodes p q :
  connected adjb nodes p q -> p ∈ nodes -> q ∈ nodes.
Proof. induction 1 as [|x y z [Hx [Hy Ha]] _ IH]; auto. Qed.

Lemma component_is_filter m p :
  exists g : pixel -> bool,
    component adjb m p = filter (fun q => g q = true) (fg m).
Proof.
  unfold component. destruct (length (fg m)) as [|n]; simpl.
  - exists (pixel_eqb p). reflexivity.
  - eexists (fun q => _). unfold expand. reflexivity.
Qed.

Lemma component_eq m p q :
  p ∈ fg m -> connected adjb (fg m) p q ->
  component adjb m p = component adjb m q.
Proof.
  intros Hp Hpq.
  assert (Hq : q ∈ fg m) by (eapply connected_elem_of; eassumption).
  destruct (component_is_filter m p) as [gp Hgp].
  destruct (component_is_filter m q) as [gq Hgq].
  rewrite Hgp, Hgq. apply filter_bool_ext. intros x Hx.
  assert (He : gp x = true <-> gq x = true).
  { assert (H1 : gp x = true <-> x ∈ component adjb m p).
    { rewrite Hgp, list_elem_of_filter. tauto. }
    assert (H2 : gq x = true <-> x ∈ component adjb m q).
    { rewrite Hgq, list_elem_of_filter. tauto. }
    rewrite H1, H2, !component_elem_of. split; intros [_ H]; split; auto.
    - eapply rtc_trans; [apply connected_sym, Hpq | exact H].
    - eapply rtc_trans; [exact Hpq | exact H]. }
  destruct (gp x), (gq x); try reflexivity.
  - symmetry. apply He. reflexivity.
  - apply He. reflexivity.
Qed.

Lemma first_pixel_in_component m p :
  p ∈ fg m -> first_pixel adjb m p ∈ component adjb m p.
Proof.
  intros Hp. unfold first_pixel.
  assert (H := component_self adjb m p Hp).
  destruct (component adjb m p) as [|x l]; [inversion H | left].
Qed.

Lemma first_pixel_connected m p :
  p ∈ fg m -> connected adjb (fg m) p (first_pixel adjb m p).
Proof.
  intros Hp. apply (component_elem_of adjb m p), first_pixel_in_component, Hp.
Qed.

Lemma first_pixel_fg m p : p ∈ fg m -> first_pixel adjb m p ∈ fg m.
Proof.
  intros Hp. eapply component_subseteq, first_pixel_in_component, Hp.
Qed.

Lemma first_pixel_connected_eq m p q :
  p ∈ fg m -> connected adjb (fg m) p q ->
  first_pixel adjb m p = first_pixel adjb m q.
Proof.
  intros Hp Hpq. unfold first_pixel.
  assert (H := component_self adjb m p Hp).
  rewrite <- (component_eq m p q Hp Hpq).
  destruct (component adjb m p); [inversion H | reflexivity].
Qed.

Lemma first_pixel_root m p :
  p ∈ fg m -> first_pixel adjb m p ∈ roots adjb m.
Proof.
  intros Hp. unfold roots. apply list_elem_of_filter.
  split; [|apply first_pixel_fg, Hp]. apply pixel_eqb_eq. symmetry.
  apply first_pixel_connected_eq; [exact Hp | apply first_pixel_connected, Hp].
Qed.

Lemma first_pixel_eq_connected m p q :
  p ∈ fg m -> q ∈ fg m ->
  first_pixel adjb m p = first_pixel adjb m q -> connected adjb (fg m) p q.
Proof.
  intros Hp Hq H. eapply rtc_trans; [apply first_pixel_connected, Hp|].
  rewrite H. apply connected_sym, first_pixel_connected, Hq.
Qed.

Lemma roots_subseteq m : roots adjb m ⊆ fg m.
Proof. intros x Hx. unfold roots in Hx. apply list_elem_of_filter in Hx. tauto. Qed.

Lemma NoDup_roots m : NoDup (roots adjb m).
Proof. apply NoDup_filter, NoDup_fg. Qed.

Lemma root_first_pixel m r : r ∈ roots adjb m -> first_pixel adjb m r = r.
Proof.
  unfold roots. rewrite list_elem_of_filter. intros [H _]. apply pixel_eqb_eq, H.
Qed.

(** The label written at [p] by [cc_label]. *)
Lemma label_at m p :
  cell O (cc_label adjb m) p =
    if cell false m p then S (index_of (first_pixel adjb m p) (roots adjb m)) else O.
Proof.
  unfold cc_label. rewrite cell_mk_grid.
  destruct ((fst p <? height m) && (snd p <? width m))%nat eqn:Hb; [reflexivity|].
  unfold cell. rewrite Hb. reflexivity.
Qed.

Lemma label_fg m p : cell O (cc_label adjb m) p <> O <-> p ∈ fg m.
Proof.
  rewrite label_at, fg_elem_of. destruct (cell false m p); split; congruence.
Qed.

Lemma label_le m p :
  (cell O (cc_label adjb m) p <= length (roots adjb m))%nat.
Proof.
  rewrite label_at. destruct (cell false m p) eqn:Hp; [|lia].
  apply fg_elem_of in Hp. apply Nat.le_succ_l, index_of_lt, first_pixel_root, Hp.
Qed.

Lemma label_eq_connected m p q :
  p ∈ fg m -> q ∈ fg m ->
  (cell O (cc_label adjb m) p = cell O (cc_label adjb m) q
   <-> connected adjb (fg m) p q).
Proof.
  intros Hp Hq. rewrite !label_at.
  rewrite (proj1 (fg_elem_of m p) Hp), (proj1 (fg_elem_of m q) Hq). split.
  - intros [= H]. apply first_pixel_eq_connected; try assumption.
    eapply index_of_inj; [| |exact H]; apply first_pixel_root; assumption.
  - intros H. rewrite (first_pixel_connected_eq m p q Hp H). reflexivity.
Qed.

Lemma label_of_root m i :
  (i < length (roots adjb m))%nat ->
  let r := nth i (roots adjb m) (O, O) in
  r ∈ fg m /\ cell O (cc_label adjb m) r = S i.
Proof.
  intros Hi r.
  assert (Hr : r ∈ roots adjb m) by (apply list_elem_of_In, nth_In, Hi).
  assert (Hfg := roots_subseteq m r Hr). split; [exact Hfg|].
  rewrite label_at, (proj1 (fg_elem_of m r) Hfg), (root_first_pixel m r Hr).
  unfold r. rewrite index_of_nth; [reflexivity | apply NoDup_roots | exact Hi].
Qed.

Lemma region_pixels_elem_of m p q :
  p ∈ fg m ->
  (q ∈ region_pixels (cc_label adjb m) (cell O (cc_label adjb m) p)
   <-> q ∈ component adjb m p).
Proof.
  intros Hp. unfold region_pixels. rewrite list_elem_of_filter, component_elem_of.
  split.
  - intros [He _]. assert (Hq : q ∈ fg m).
    { apply label_fg. rewrite He. apply label_fg, Hp. }
    split; [exact Hp|]. apply label_eq_connected; auto.
  - intros [_ Hc]. assert (Hq : q ∈ fg m) by (eapply connected_elem_of; eassumption).
    split; [symmetry; apply label_eq_connected; auto|].
    apply fg_in_bounds, Hq.
Qed.

Lemma count_label_component m p :
  p ∈ fg m ->
  count_label (cc_label adjb m) (cell O (cc_label adjb m) p)
  = length (component adjb m p).
Proof.
  intros Hp. apply Permutation_length, NoDup_Permutation.
  - apply NoDup_filter, NoDup_all_pixels.
  - apply NoDup_component.
  - intros q. apply (region_pixels_elem_of m p q Hp).
Qed.

Lemma fold_max_bound (l : list nat) (n : nat) :
  (forall x, x ∈ l -> (x <= n)%nat) -> (n = O \/ n ∈ l) ->
  fold_right Nat.max O l = n.
Proof.
  intros Hle Hin.
  assert (H1 : (fold_right Nat.max O l <= n)%nat).
  { clear Hin. induction l as [|x l IH]; simpl; [lia|].
    assert (x <= n)%nat by (apply Hle; left).
    assert (fold_right Nat.max O l <= n)%nat by (apply IH; intros; apply Hle; right; auto).
    lia. }
  assert (H2 : forall x, x ∈ l -> (x <= fold_right Nat.max O l)%nat).
  { clear. induction l as [|y l IH]; intros x Hx; [inversion Hx|]. simpl.
    apply elem_of_cons in Hx as [->|Hx]; [lia|]. specialize (IH x Hx). lia. }
  destruct Hin as [->|Hin]; [lia|]. specialize (H2 n Hin). lia.
Qed.

Lemma max_label m :
  fold_right Nat.max O (cells (cc_label adjb m)) = length (roots adjb m).
Proof.
  apply fold_max_bound.
  - intros x Hx. unfold cc_label, mk_grid in Hx. simpl in Hx.
    apply list_elem_of_fmap in Hx as (p & -> & Hp).
    destruct (cell false m p) eqn:E; [|lia].
    apply fg_elem_of in E. apply Nat.le_succ_l, index_of_lt, first_pixel_root, E.
  - destruct (length (roots adjb m)) as [|n] eqn:Hn; [left; reflexivity|right].
    destruct (label_of_root m n ltac:(lia)) as [Hfg Hl].
    set (r := nth n (roots adjb m) (O, O)) in *.
    rewrite <- Hl. rewrite label_at.
    unfold cc_label, mk_grid. simpl. apply list_elem_of_fmap.
    exists r. split; [reflexivity | apply fg_in_bounds, Hfg].
Qed.

End LabelFacts.

(** ** The size filter and the border filter *)

Lemma dist_sym a b : dist a b = dist b a.
Proof. unfold dist. lia. Qed.

Lemma pixel_eqb_sym p q : pixel_eqb p q = pixel_eqb q p.
Proof.
  unfold pixel_eqb. rewrite (Nat.eqb_sym (fst p)), (Nat.eqb_sym (snd p)). reflexivity.
Qed.

Lemma adj4_sym p q : adj4 p q = adj4 q p.
Proof. unfold adj4. rewrite (dist_sym (fst p)), (dist_sym (snd p)). reflexivity. Qed.

Lemma adj8_sym p q : adj8 p q = adj8 q p.
Proof.
  unfold adj8.
  rewrite (dist_sym (fst p)), (dist_sym (snd p)), (pixel_eqb_sym p). reflexivity.
Qed.

Lemma adj4_adj8 p q : adj4 p q = true -> adj8 p q = true.
Proof.
  unfold adj4, adj8, pixel_eqb, dist. destruct p as [r c], q as [r' c']. simpl.
  rewrite Nat.eqb_eq, !andb_true_iff, negb_true_iff, andb_false_iff,
    !Nat.eqb_neq, !Nat.leb_le. lia.
Qed.

(** Connectivity carries over to a larger neighbourhood and another mask
    as long as everything reached lies in the other mask. *)
Lemma connected_transfer (adjA adjB : pixel -> pixel -> bool) nodesA nodesB p q :
  (forall x y, adjA x y = true -> adjB x y = true) ->
  (forall x, connected adjA nodesA p x -> x ∈ nodesB) ->
  connected adjA nodesA p q -> connected adjB nodesB p q.
Proof.
  intros Hadj Hin Hpq. revert q Hpq.
  apply (rtc_ind_r (fun q => connected adjB nodesB p q)); [apply rtc_refl|].
  intros y z Hpy [Hy [Hz Ha]] IH.
  eapply rtc_r; [exact IH|]. split; [|split].
  - apply Hin, Hpy.
  - apply Hin. eapply rtc_r; [exact Hpy|]. split; [|split]; assumption.
  - apply Hadj, Ha.
Qed.

Lemma remove_small_objects_fg ar min_size p :
  min_size <> 0 ->
  (p ∈ fg (remove_small_objects ar min_size) <->
   p ∈ fg ar /\ min_size <= Z.of_nat (length (component adj4 ar p))).
Proof.
  intros Hk. unfold remove_small_objects.
  destruct (Z.eqb_spec min_size 0) as [|_]; [contradiction|].
  rewrite !fg_elem_of, cell_mk_grid.
  destruct ((fst p <? height ar) && (snd p <? width ar))%nat eqn:Hb.
  - destruct (cell false ar p) eqn:Hp.
    + apply fg_elem_of in Hp.
      rewrite (count_label_component adj4 adj4_sym ar p Hp).
      destruct (Z.ltb_spec (Z.of_nat (length (component adj4 ar p))) min_size);
        split; try tauto; try (intros [_ H']; lia); discriminate.
    + destruct (_ <? _); split; try discriminate; intros [H' _]; discriminate.
  - unfold cell. rewrite Hb. split; [discriminate | intros [H' _]; discriminate].
Qed.

Lemma remove_small_objects_shape ar min_size :
  height (remove_small_objects ar min_size) = height ar /\
  width (remove_small_objects ar min_size) = width ar.
Proof.
  unfold remove_small_objects. destruct (min_size =? 0); split; reflexivity.
Qed.

Lemma clear_border_shape labels out :
  clear_border labels = Ok out ->
  height out = height labels /\ width out = width labels /\
  (0 < height labels)%nat /\ (0 < width labels)%nat.
Proof.
  unfold clear_border.
  destruct ((height labels =? 0) || (width labels =? 0))%nat eqn:Hz; [discriminate|].
  apply orb_false_iff in Hz as [Hh Hw]. apply Nat.eqb_neq in Hh, Hw.
  intros [= <-]. simpl. repeat split; lia.
Qed.

Lemma clear_border_fg labels out p :
  clear_border labels = Ok out ->
  (p ∈ fg out <->
   p ∈ fg labels /\
   forall b, connected adj8 (fg labels) p b -> on_border labels b = false).
Proof.
  unfold clear_border.
  destruct ((height labels =? 0) || (width labels =? 0))%nat; [discriminate|].
  intros [= <-]. rewrite !fg_elem_of, cell_mk_grid.
  destruct ((fst p <? height labels) && (snd p <? width labels))%nat eqn:Hb.
  2:{ unfold cell. rewrite Hb. split; [discriminate | intros [H _]; discriminate]. }
  destruct (cell false labels p) eqn:Hp.
  2:{ destruct (existsb _ _); split; try discriminate; intros [H _]; discriminate. }
  apply fg_elem_of in Hp.
  match goal with |- context [existsb ?f ?l] => destruct (existsb f l) eqn:He end.
  - split; [discriminate|]. intros [_ Hclear]. exfalso.
    apply existsb_exists in He as (l & Hl & Heq). apply Nat.eqb_eq in Heq.
    apply in_map_iff in Hl as (b & Hbl & Hbin).
    apply list_elem_of_In, list_elem_of_filter in Hbin as [Hborder _].
    assert (Hbfg : b ∈ fg labels).
    { apply (label_fg adj8). rewrite Hbl, <- Heq.
      apply (label_fg adj8), Hp. }
    assert (Hc : connected adj8 (fg labels) p b).
    { apply (label_eq_connected adj8 adj8_sym); auto. congruence. }
    rewrite (Hclear b Hc) in Hborder. discriminate.
  - split; [|reflexivity]. intros _. split; [reflexivity|]. intros b Hc.
    destruct (on_border labels b) eqn:Hborder; [|reflexivity]. exfalso.
    assert (Hbfg : b ∈ fg labels) by (eapply connected_elem_of; eassumption).
    assert (Hex : existsb (Nat.eqb (cell O (cc_label adj8 labels) p))
              (map (cell O (cc_label adj8 labels))
                 (filter (fun p => on_border labels p = true) (pixels_of labels)))
            = true).
    { apply existsb_exists. exists (cell O (cc_label adj8 labels) b). split.
      - apply in_map, list_elem_of_In, list_elem_of_filter.
        split; [exact Hborder | apply fg_in_bounds, Hbfg].
      - apply Nat.eqb_eq. apply (label_eq_connected adj8 adj8_sym); auto. }
    congruence.
Qed.

(** After the two filters every remaining pixel lies in a component of at
    least [min_size] pixels. *)
Lemma filtered_component_size ar min_size out p :
  clear_border (remove_small_objects ar min_size) = Ok out ->
  p ∈ fg out ->
  min_size <= Z.of_nat (length (component adj8 out p)).
Proof.
  intros Hcb Hp.
  destruct (Z.eq_dec min_size 0) as [->|Hk]; [lia|].
  set (m1 := remove_small_objects ar min_size) in *.
  assert (Hp1 := proj1 (clear_border_fg m1 out p Hcb) Hp). destruct Hp1 as [Hp1 Hclear].
  assert (Hp0 := proj1 (remove_small_objects_fg ar min_size p Hk) Hp1).
  destruct Hp0 as [Hp0 Hsize].
  etransitivity; [exact Hsize|]. apply inj_le.
  apply submseteq_length, NoDup_submseteq; [apply NoDup_component|].
  intros q Hq. apply component_elem_of in Hq as [_ Hq].
  apply component_elem_of. split; [exact Hp|].
  apply (connected_transfer adj8 adj8 (fg m1)); [auto| |].
  - intros x Hx. apply (clear_border_fg m1 out x Hcb). split.
    + eapply connected_elem_of; eassumption.
    + intros b Hb. apply Hclear. eapply rtc_trans; eassumption.
  - apply (connected_transfer adj4 adj8 (fg ar)); [apply adj4_adj8| |exact Hq].
    intros x Hx. apply (remove_small_objects_fg ar min_size x Hk). split.
    + eapply connected_elem_of; eassumption.
    + rewrite <- (component_eq adj4 adj4_sym ar p x Hp0 Hx). exact Hsize.
Qed.

(** ** Regions and measurements *)

Lemma flat_map_singletons {A B} (f : A -> list B) (g : A -> B) (l : list A) :
  (forall x, In x l -> f x = [g x]) -> flat_map f l = map g l.
Proof.
  induction l as [|a l IH]; intros H; [reflexivity|]. simpl.
  rewrite (H a) by (left; reflexivity).
  rewrite IH by (intros x Hx; apply H; right; exact Hx). reflexivity.
Qed.

Lemma regionprops_labelled mask image :
  height mask = height image -> width mask = width image ->
  regionprops (measure_label mask) image =
    Ok (map (region_of (measure_label mask) image)
            (seq 1 (length (roots adj8 mask)))).
Proof.
  intros Hh Hw. unfold regionprops, measure_label.
  change (height (cc_label adj8 mask)) with (height mask).
  change (width (cc_label adj8 mask)) with (width mask).
  rewrite Hh, Hw, !Nat.eqb_refl. simpl negb. cbv iota.
  rewrite (max_label adj8 adj8_sym). f_equal.
  apply flat_map_singletons. intros l Hl. apply in_seq in Hl.
  destruct l as [|i]; [lia|].
  destruct (label_of_root adj8 mask i ltac:(lia)) as [Hfg Hlab].
  set (r := nth i (roots adj8 mask) (O, O)) in *.
  assert (Hr : r ∈ region_pixels (cc_label adj8 mask) (S i)).
  { rewrite <- Hlab. apply (region_pixels_elem_of adj8 adj8_sym mask r r Hfg).
    apply component_self, Hfg. }
  destruct (region_pixels (cc_label adj8 mask) (S i)); [inversion Hr | reflexivity].
Qed.

Lemma regionprops_shape labeled image props :
  regionprops labeled image = Ok props ->
  height labeled = height image /\ width labeled = width image.
Proof.
  unfold regionprops.
  destruct ((height labeled =? height image) && (width labeled =? width image))%nat
    eqn:Hb; [|discriminate].
  apply andb_true_iff in Hb as [Hh Hw]. apply Nat.eqb_eq in Hh, Hw. auto.
Qed.

Section SegmenterFacts.

Variable threshold_local : grid Z -> list spec_float.
Variable binary_closing binary_opening : grid bool -> nat -> grid bool.

Local Abbreviation segment :=
  (segment_and_measure_spots threshold_local binary_closing binary_opening).
Local Abbreviation cleaned :=
  (cleaned_mask threshold_local binary_closing binary_opening).

Lemma segment_inv image min_area cr or ms mask :
  segment image min_area cr or = Ok (ms, mask) ->
  clear_border (remove_small_objects (cleaned image cr or) min_area) = Ok mask /\
  height mask = height image /\ width mask = width image /\
  ms = map measure_of
         (map (region_of (measure_label mask) image)
              (seq 1 (length (roots adj8 mask)))).
Proof.
  unfold segment_and_measure_spots. fold (cleaned image cr or).
  destruct (clear_border _) as [m2|e] eqn:Hcb; [|discriminate].
  destruct (regionprops (measure_label m2) image) as [props|e] eqn:Hrp; [|discriminate].
  intros [= <- <-]. destruct (regionprops_shape _ _ _ Hrp) as [Hh Hw].
  change (height (measure_label m2)) with (height m2) in Hh.
  change (width (measure_label m2)) with (width m2) in Hw.
  rewrite (regionprops_labelled m2 image Hh Hw) in Hrp. injection Hrp as <-.
  auto.
Qed.

Lemma segment_entry image min_area cr or ms mask e :
  segment image min_area cr or = Ok (ms, mask) ->
  In e ms ->
  exists i r,
    (i < length (roots adj8 mask))%nat /\
    r ∈ fg mask /\
    cell O (measure_label mask) r = S i /\
    e = measure_of (region_of (measure_label mask) image (S i)).
Proof.
  intros Hseg He. destruct (segment_inv _ _ _ _ _ _ Hseg) as (_ & _ & _ & ->).
  rewrite map_map in He. apply in_map_iff in He as (l & <- & Hl).
  apply in_seq in Hl. destruct l as [|i]; [lia|].
  destruct (label_of_root adj8 mask i ltac:(lia)) as [Hfg Hlab].
  exists i, (nth i (roots adj8 mask) (O, O)). repeat split; auto. lia.
Qed.

(** C2. Whenever [segment_and_measure_spots] returns, the returned mask is
    the cleaned mask after small-object removal and then border clearing,
    the measurements come from labelling that mask, no pixel of a returned
    spot lies on the border of the image, and every returned spot has at
    least [min_area] pixels. *)
Theorem returned_spots_clear_of_border_and_large_enough
    (image : grid Z) (min_area : Z) (closing_radius opening_radius : nat)
    (ms : list measurement) (mask : grid bool) (e : measurement) :
  segment image min_area closing_radius opening_radius = Ok (ms, mask) ->
  In e ms ->
  clear_border
    (remove_small_objects (cleaned image closing_radius opening_radius)
       min_area) = Ok mask /\
  regionprops (measure_label mask) image =
    Ok (map (region_of (measure_label mask) image) (seq 1 (length ms))) /\
  ms = map measure_of (map (region_of (measure_label mask) image) (seq 1 (length ms))) /\
  (forall p, cell O (measure_label mask) p = label e -> on_border image p = false) /\
  area_pixels e = f64_of_Z (Z.of_nat (count_label (measure_label mask) (label e))) /\
  min_area <= Z.of_nat (count_label (measure_label mask) (label e)) /\
  (0 < count_label (measure_label mask) (label e))%nat.
Proof.
  intros Hseg He.
  destruct (segment_inv _ _ _ _ _ _ Hseg) as (Hcb & Hh & Hw & Hms).
  assert (Hlen : length ms = length (roots adj8 mask)).
  { rewrite Hms, !length_map, length_seq. reflexivity. }
  destruct (segment_entry _ _ _ _ _ _ e Hseg He) as (i & r & Hi & Hr & Hlab & ->).
  simpl label. simpl area_pixels. rewrite Hlen.
  split; [exact Hcb|]. split; [apply regionprops_labelled; assumption|].
  split; [exact Hms|].
  assert (Hcount : count_label (measure_label mask) (S i)
                   = length (component adj8 mask r)).
  { rewrite <- Hlab. apply (count_label_component adj8 adj8_sym), Hr. }
  split; [|split; [reflexivity|split]].
  - intros p Hp.
    assert (Hpfg : p ∈ fg mask) by (apply (label_fg adj8); unfold measure_label in Hp; lia).
    apply (clear_border_fg _ _ p Hcb) in Hpfg as [_ Hclear].
    specialize (Hclear p (rtc_refl _ _)).
    destruct (remove_small_objects_shape
                (cleaned image closing_radius opening_radius) min_area)
      as [Hh1 Hw1].
    destruct (clear_border_shape _ _ Hcb) as (Hh2 & Hw2 & _).
    unfold on_border in *. rewrite <- Hh, <- Hw, Hh2, Hw2. exact Hclear.
  - rewrite Hcount. eapply filtered_component_size; eassumption.
  - rewrite Hcount.
    assert (H := component_self adj8 mask r Hr).
    destruct (component adj8 mask r); [inversion H | simpl; lia].
Qed.

(** C5. Whenever [segment_and_measure_spots] returns, every measurement has
    as area the pixel count of its region, as mean intensity the mean of the
    image over the pixels of the region, and as integrated intensity the
    float64 product of that mean and that area. *)
Theorem integrated_intensity_is_mean_times_area
    (image : grid Z) (min_area : Z) (closing_radius opening_radius : nat)
    (ms : list measurement) (mask : grid bool) (e : measurement) :
  segment image min_area closing_radius opening_radius = Ok (ms, mask) ->
  In e ms ->
  let px := region_pixels (measure_label mask) (label e) in
  integrated_intensity e = f64_mul (mean_intensity e) (area_pixels e) /\
  area_pixels e = f64_of_Z (Z.of_nat (length px)) /\
  mean_intensity e =
    f64_div (f64_of_Z (sumZ (map (cell 0 image) px)))
            (f64_of_Z (Z.of_nat (length px))) /\
  px <> [].
Proof.
  intros Hseg He.
  destruct (segment_entry _ _ _ _ _ _ e Hseg He) as (i & r & Hi & Hr & Hlab & ->).
  simpl. repeat split.
  intros Hnil.
  assert (H : r ∈ region_pixels (measure_label mask) (S i)).
  { rewrite <- Hlab. apply (region_pixels_elem_of adj8 adj8_sym mask r r Hr).
    apply component_self, Hr. }
  rewrite Hnil in H. inversion H.
Qed.

(** C10. Whenever [segment_and_measure_spots] returns, the labels of the
    measurement list are 1, 2, ..., N in this order; two foreground pixels of
    the returned mask carry the same label exactly when they are connected
    (8-neighbourhood) inside the mask; every foreground pixel has its label
    in the list and every label of the list is carried by a foreground
    pixel: the entries and the connected components correspond one to one. *)
Theorem one_measurement_per_component
    (image : grid Z) (min_area : Z) (closing_radius opening_radius : nat)
    (ms : list measurement) (mask : grid bool) :
  segment image min_area closing_radius opening_radius = Ok (ms, mask) ->
  let lab := measure_label mask in
  map label ms = seq 1 (length ms) /\
  NoDup (map label ms) /\
  (forall p q, p ∈ fg mask -> q ∈ fg mask ->
     (cell O lab p = cell O lab q <-> connected adj8 (fg mask) p q)) /\
  (forall p, p ∈ fg mask -> exists e, In e ms /\ label e = cell O lab p) /\
  (forall e, In e ms -> exists p, p ∈ fg mask /\ cell O lab p = label e).
Proof.
  intros Hseg lab.
  destruct (segment_inv _ _ _ _ _ _ Hseg) as (Hcb & Hh & Hw & Hms).
  assert (Hlen : length ms = length (roots adj8 mask)).
  { rewrite Hms, !length_map, length_seq. reflexivity. }
  assert (Hlabels : map label ms = seq 1 (length ms)).
  { rewrite Hlen, Hms, !map_map. simpl. apply map_id. }
  split; [exact Hlabels|]. split; [rewrite Hlabels; apply NoDup_seq|].
  split; [|split].
  - intros p q Hp Hq. apply (label_eq_connected adj8 adj8_sym); assumption.
  - intros p Hp.
    assert (Hin : In (cell O lab p) (map label ms)).
    { rewrite Hlabels, Hlen. apply in_seq.
      assert (H1 := label_le adj8 adj8_sym mask p).
      assert (H2 := proj2 (label_fg adj8 mask p) Hp).
      unfold lab, measure_label. lia. }
    apply in_map_iff in Hin as (e & He & Hin). eauto.
  - intros e He.
    destruct (segment_entry _ _ _ _ _ _ e Hseg He) as (i & r & Hi & Hr & Hlab & ->).
    exists r. split; [exact Hr | exact Hlab].
Qed.

End SegmenterFacts.

Section SegmenterTotal.

Variable threshold_local : grid Z -> list spec_float.
Variable binary_closing binary_opening : grid bool -> nat -> grid bool.

(** On a non-empty image, with morphological operations that keep the shape,
    [segment_and_measure_spots] returns. *)
Lemma segment_returns image min_area cr or :
  (0 < height image)%nat -> (0 < width image)%nat ->
  (forall m r, height (binary_closing m r) = height m /\
               width (binary_closing m r) = width m) ->
  (forall m r, height (binary_opening m r) = height m /\
               width (binary_opening m r) = width m) ->
  exists ms mask,
    segment_and_measure_spots threshold_local binary_closing binary_opening
      image min_area cr or = Ok (ms, mask).
Proof.
  intros Hh Hw Hc Ho. unfold segment_and_measure_spots.
  fold (cleaned_mask threshold_local binary_closing binary_opening image cr or).
  set (m0 := cleaned_mask threshold_local binary_closing binary_opening image cr or).
  assert (Hm0 : height m0 = height image /\ width m0 = width image).
  { unfold m0, cleaned_mask.
    destruct (Ho (binary_closing (above image (threshold_local image)) cr) or) as [-> ->].
    destruct (Hc (above image (threshold_local image)) cr) as [-> ->].
    split; reflexivity. }
  destruct (remove_small_objects_shape m0 min_area) as [Hh1 Hw1].
  destruct (clear_border (remove_small_objects m0 min_area)) as [m2|e] eqn:Hcb.
  - destruct (clear_border_shape _ _ Hcb) as (Hh2 & Hw2 & _).
    rewrite regionprops_labelled by (destruct Hm0; congruence).
    eexists _, _. reflexivity.
  - exfalso. unfold clear_border in Hcb. rewrite Hh1, Hw1 in Hcb.
    destruct Hm0 as [E1 E2]. rewrite E1, E2 in Hcb.
    destruct (height image); [lia|]. destruct (width image); [lia|].
    discriminate Hcb.
Qed.

End SegmenterTotal.

(** ** The worked run *)

Lemma returned_spots_clear_of_border_and_large_enough_witness :
  segment_and_measure_spots demo_threshold demo_morphology demo_morphology
    demo_image 5 3 1 = Ok ([demo_spot], demo_mask) /\
  In demo_spot [demo_spot] /\
  (forall p, cell O (measure_label demo_mask) p = 1%nat ->
             on_border demo_image p = false) /\
  5 <= Z.of_nat (count_label (measure_label demo_mask) 1).
Proof.
  assert (Hrun : segment_and_measure_spots demo_threshold demo_morphology
                   demo_morphology demo_image 5 3 1 = Ok ([demo_spot], demo_mask))
    by (vm_compute; reflexivity).
  assert (Hin : In demo_spot [demo_spot]) by (left; reflexivity).
  split; [exact Hrun|]. split; [exact Hin|].
  destruct (returned_spots_clear_of_border_and_large_enough
              demo_threshold demo_morphology demo_morphology
              demo_image 5 3 1 [demo_spot] demo_mask demo_spot Hrun Hin)
    as (_ & _ & _ & Hborder & _ & Hsize & _).
  split; [exact Hborder | exact Hsize].
Defined.

Lemma integrated_intensity_is_mean_times_area_witness :
  segment_and_measure_spots demo_threshold demo_morphology demo_morphology
    demo_image 5 3 1 = Ok ([demo_spot], demo_mask) /\
  In demo_spot [demo_spot] /\
  integrated_intensity demo_spot =
    f64_mul (mean_intensity demo_spot) (area_pixels demo_spot).
Proof.
  assert (Hrun : segment_and_measure_spots demo_threshold demo_morphology
                   demo_morphology demo_image 5 3 1 = Ok ([demo_spot], demo_mask))
    by (vm_compute; reflexivity).
  assert (Hin : In demo_spot [demo_spot]) by (left; reflexivity).
  split; [exact Hrun|]. split; [exact Hin|].
  apply (integrated_intensity_is_mean_times_area
           demo_threshold demo_morphology demo_morphology
           demo_image 5 3 1 [demo_spot] demo_mask demo_spot Hrun Hin).
Defined.

Lemma one_measurement_per_component_witness :
  segment_and_measure_spots demo_threshold demo_morphology demo_morphology
    demo_image 5 3 1 = Ok ([demo_spot], demo_mask) /\
  map label [demo_spot] = seq 1 (length [demo_spot]).
Proof.
  assert (Hrun : segment_and_measure_spots demo_threshold demo_morphology
                   demo_morphology demo_image 5 3 1 = Ok ([demo_spot], demo_mask))
    by (vm_compute; reflexivity).
  split; [exact Hrun|].
  apply (one_measurement_per_component
           demo_threshold demo_morphology demo_morphology
           demo_image 5 3 1 [demo_spot] demo_mask Hrun).
Defined.


Example demo_batch_log :
  log (process_files (fun _ => 0) demo_imread demo_threshold demo_morphology
         demo_morphology demo_visualize (fun _ => ValueError) "results"
         ["a.tif"; "bad.tif"; "b.tif"] demo_start)
  = [Processed "a.tif" 1;
     Loader (ErrorLoading "bad.tif" (OtherError 1)); LoadFailed "bad.tif";
     Processed "b.tif" 1].
Proof. vm_compute. reflexivity. Qed.

(* ===================================================================== *)
(** * Further properties of the code *)
(* ===================================================================== *)

(** ** More on the loader *)

Lemma normalize_image_extremes_8bit_witness :
  Forall sample8 [20; 200; 180; 20] /\
  fold_left Z.min [200; 180; 20] 20 < fold_left Z.max [200; 180; 20] 20 /\
  normalize_image (fun _ => 0) {| shape := [2; 2]%nat; buf := [20; 200; 180; 20] |}
    = Ok {| shape := [2; 2]%nat; buf := [0; 255; 226; 0] |}.
Proof.
  assert (H8 : Forall sample8 [20; 200; 180; 20])
    by (repeat constructor; discriminate).
  assert (Hlt : fold_left Z.min [200; 180; 20] 20 < fold_left Z.max [200; 180; 20] 20)
    by (simpl; lia).
  split; [exact H8|]. split; [exact Hlt|].
  destruct (normalize_image_extremes_8bit (fun _ => 0) [2; 2]%nat 20 [200; 180; 20]
              H8 Hlt) as (out & Hrun & _).
  rewrite Hrun. vm_compute in Hrun. injection Hrun as <-. reflexivity.
Defined.

Section LoaderFacts.

Variable undef_cast : spec_float -> Z.
Variable imread : string -> imread_result.

Lemma normalize_image_nonempty (img : ndarray) :
  buf img <> [] ->
  exists out,
    normalize_image undef_cast img = Ok out /\
    shape out = shape img /\ length (buf out) = length (buf img).
Proof.
  intros Hne. unfold normalize_image, normalize_float.
  destruct (buf img) as [|x b]; [congruence|]. simpl.
  eexists. split; [reflexivity|]. split; [reflexivity|].
  simpl. rewrite !length_map. reflexivity.
Qed.

Lemma normalize_image_empty (img : ndarray) :
  buf img = [] -> normalize_image undef_cast img = Raise ValueError.
Proof. intros H. unfold normalize_image, normalize_float. rewrite H. reflexivity. Qed.

(** X2. For an array of at most two dimensions, [load_tif] keeps the shape
    and the number of samples; a zero-size array is a load failure ([None]),
    because [img.min()] raises on it. *)
Theorem load_tif_plain_image (fname : string) (img : ndarray) :
  imread fname = ImArray img ->
  (ndim img <= 2)%nat ->
  match buf img with
  | [] => load_tif undef_cast imread fname = None
  | _ :: _ =>
      exists out,
        load_tif undef_cast imread fname = Some out /\
        shape out = shape img /\
        length (buf out) = length (buf img)
  end.
Proof.
  intros Him Hnd. unfold load_tif, load_tif_body. rewrite Him.
  replace (ndim img =? 3)%nat with false by (symmetry; apply Nat.eqb_neq; lia).
  replace (2 <? ndim img)%nat with false by (symmetry; apply Nat.ltb_ge; lia).
  simpl. destruct (buf img) as [|x b] eqn:Hb.
  - rewrite normalize_image_empty by exact Hb. reflexivity.
  - destruct (normalize_image_nonempty img) as (out & Hn & Hs & Hl);
      [rewrite Hb; discriminate|].
    rewrite Hn. exists out. rewrite Hb in Hl. auto.
Qed.

(** X3. For a stack (more than two dimensions, not H x W x 3) [load_tif]
    normalizes the first plane along the leading axis and nothing else: the
    result has the remaining dimensions and is the normalization of the
    first [prod rest] samples of the buffer. An empty leading axis is a load
    failure. *)
Theorem load_tif_stack_first_plane (fname : string) (img : ndarray)
    (n : nat) (rest : list nat) :
  imread fname = ImArray img ->
  shape img = n :: rest ->
  (2 <= length rest)%nat ->
  (length rest = 2%nat -> nth 1 rest O <> 3%nat) ->
  well_shaped img ->
  (0 < fold_right Nat.mul 1%nat rest)%nat ->
  match n with
  | O => load_tif undef_cast imread fname = None
  | S _ =>
      exists out,
        load_tif undef_cast imread fname = Some out /\
        normalize_image undef_cast
          {| shape := rest;
             buf := take (fold_right Nat.mul 1%nat rest) (buf img) |} = Ok out /\
        shape out = rest /\
        length (buf out) = fold_right Nat.mul 1%nat rest
  end.
Proof.
  intros Him Hsh Hlen Hrgb Hws Hpos. unfold load_tif, load_tif_body. rewrite Him.
  unfold ndim. rewrite Hsh. cbn [length nth].
  assert (Hc : ((S (length rest) =? 3) && (nth 1 rest 0 =? 3))%nat = false).
  { apply andb_false_iff. destruct (Nat.eq_dec (length rest) 2%nat) as [E|E].
    - right. apply Nat.eqb_neq, Hrgb, E.
    - left. apply Nat.eqb_neq. lia. }
  rewrite Hc.
  replace (2 <? S (length rest))%nat with true by (symmetry; apply Nat.ltb_lt; lia).
  unfold first_plane. rewrite Hsh. destruct n as [|n]; [reflexivity|].
  set (plane := {| shape := rest;
                   buf := take (fold_right Nat.mul 1%nat rest) (buf img) |}).
  assert (Hl : length (buf plane) = fold_right Nat.mul 1%nat rest).
  { unfold plane. cbn [buf]. rewrite length_take. unfold well_shaped in Hws.
    rewrite Hws, Hsh. cbn [fold_right]. nia. }
  destruct (normalize_image_nonempty plane) as (out & Hn & Hs & Hlo).
  { intros E. rewrite E in Hl. simpl in Hl. lia. }
  rewrite Hn. exists out. repeat split; auto. congruence.
Qed.

(** X4. On 8-bit samples the gray value of a pixel lies between the least
    and the greatest of its three channels, and a pixel whose channels are
    equal keeps that value. *)
Theorem gray_value_between_channels (r g b : Z) :
  sample8 r -> sample8 g -> sample8 b ->
  Z.min r (Z.min g b) <= astype_uint8 undef_cast (mean3 r g b)
    <= Z.max r (Z.max g b) /\
  astype_uint8 undef_cast (mean3 r r r) = r.
Proof.
  intros Hr Hg Hb.
  rewrite !(gray_pixel_floor undef_cast) by assumption.
  unfold floor_mean3, sample8 in *. split.
  - assert (Hmin : Z.min r (Z.min g b) <= r /\ Z.min r (Z.min g b) <= g /\
                   Z.min r (Z.min g b) <= b).
    { pose proof (Z.le_min_l r (Z.min g b)). pose proof (Z.le_min_r r (Z.min g b)).
      pose proof (Z.le_min_l g b). pose proof (Z.le_min_r g b).
      repeat split; lia. }
    assert (Hmax : r <= Z.max r (Z.max g b) /\ g <= Z.max r (Z.max g b) /\
                   b <= Z.max r (Z.max g b)).
    { pose proof (Z.le_max_l r (Z.max g b)). pose proof (Z.le_max_r r (Z.max g b)).
      pose proof (Z.le_max_l g b). pose proof (Z.le_max_r g b).
      repeat split; lia. }
    generalize dependent (Z.min r (Z.min g b)).
    generalize dependent (Z.max r (Z.max g b)). intros hi Hhi lo Hlo. split.
    + apply Z.div_le_lower_bound; lia.
    + apply Z.div_le_upper_bound; lia.
  - replace (r + r + r) with (r * 3) by lia. apply Z.div_mul. lia.
Qed.

End LoaderFacts.

Lemma load_tif_plain_image_witness :
  let img := {| shape := [2; 2]%nat; buf := [20; 200; 180; 20] |} in
  let imread := fun _ : string => ImArray img in
  imread "a.tif" = ImArray img /\ (ndim img <= 2)%nat /\
  exists out, load_tif (fun _ => 0) imread "a.tif" = Some out /\
              shape out = [2; 2]%nat /\ length (buf out) = 4%nat.
Proof.
  intros img imread. split; [reflexivity|]. split; [unfold img, ndim; simpl; lia|].
  apply (load_tif_plain_image (fun _ => 0) imread "a.tif" img);
    [reflexivity | unfold img, ndim; simpl; lia].
Defined.

Lemma load_tif_stack_first_plane_witness :
  let img := {| shape := [2; 1; 2; 2]%nat; buf := [20; 200; 180; 20; 1; 2; 3; 4] |} in
  let imread := fun _ : string => ImArray img in
  imread "a.tif" = ImArray img /\
  shape img = [2; 1; 2; 2]%nat /\
  well_shaped img /\
  exists out, load_tif (fun _ => 0) imread "a.tif" = Some out /\
              shape out = [1; 2; 2]%nat.
Proof.
  intros img imread. split; [reflexivity|]. split; [reflexivity|].
  split; [reflexivity|].
  destruct (load_tif_stack_first_plane (fun _ => 0) imread "a.tif" img 2%nat
              [1; 2; 2]%nat) as (out & H1 & _ & H3 & _);
    [reflexivity | reflexivity | simpl; lia | simpl; lia | reflexivity | simpl; lia |].
  exists out. split; assumption.
Defined.

Lemma gray_value_between_channels_witness :
  sample8 10 /\ sample8 20 /\ sample8 33 /\
  Z.min 10 (Z.min 20 33) <= astype_uint8 (fun _ => 0) (mean3 10 20 33)
    <= Z.max 10 (Z.max 20 33).
Proof.
  assert (H1 : sample8 10) by (split; discriminate).
  assert (H2 : sample8 20) by (split; discriminate).
  assert (H3 : sample8 33) by (split; discriminate).
  split; [exact H1|]. split; [exact H2|]. split; [exact H3|].
  apply (gray_value_between_channels (fun _ => 0) 10 20 33 H1 H2 H3).
Defined.

(** ** More on persistence *)

Lemma csv_rows_appended w row d :
  csv_rows {| summary_csv :=
                Some (match summary_csv w with
                      | None => [header] | Some old => old end ++ [row]);
              dbs := d |} =
  csv_rows w ++ appended_rows w [row].
Proof.
  unfold csv_rows, appended_rows. cbn [summary_csv default].
  destruct (summary_csv w); reflexivity.
Qed.

(** The three ways a run of [store_measurements_in_sql] can end. *)
Lemma store_cases (db : string) (ms : list measurement) (w : world)
    (md : gmap string value) :
  let run := store_measurements_in_sql db ms {| files := w; metadata := md |} in
  (keys_present md /\ all_bindable md ms = true /\ snd run = Ok tt /\
   exists row,
     files (fst run) =
       {| summary_csv :=
            Some (match summary_csv w with
                  | None => [header] | Some old => old end ++ [row]);
          dbs := <[db := {| spots := spots (db_at w db) ++ map (spot_row md) ms;
                            images := images (db_at w db) ++ [image_row md ms] |}]>
                   (dbs w) |}) \/
  (keys_present md /\ all_bindable md ms = false /\
   snd run = Raise OverflowError /\
   exists row,
     files (fst run) =
       {| summary_csv :=
            Some (match summary_csv w with
                  | None => [header] | Some old => old end ++ [row]);
          dbs := <[db := db_at w db]> (dbs w) |}) \/
  (~ keys_present md /\
   exists e, snd run = Raise e /\ e <> OverflowError /\ files (fst run) = w).
Proof.
  intros run.
  destruct (store_shape db ms w md)
    as [(f & s & z & Hf & Hs & Hz) | (Hk & e & md' & Hrun & He & _)].
  - assert (Hk : keys_present md) by (unfold keys_present; eauto).
    assert (Hrun := store_run db ms w md f s z Hf Hs Hz).
    fold run in Hrun. cbv zeta in Hrun.
    destruct (all_bindable md ms); [left | right; left];
      rewrite Hrun; cbn [fst snd files]; eauto 6.
  - right; right. fold run in Hrun. rewrite Hrun. cbn [fst snd files]. eauto.
Qed.


(** X6. When [store_measurements_in_sql] returns, the database at [db_path]
    has gained one spots row per measurement, in the order of the list, each
    with the file name, magnification, z-slice and channel of the image, and
    one images row with the totals; what the tables held before is kept, and
    no other database is touched. *)
Theorem store_inserts_one_row_per_spot
    (db : string) (ms : list measurement) (w : world) (md : gmap string value) :
  snd (store_measurements_in_sql db ms {| files := w; metadata := md |}) = Ok tt ->
  let w' := files (fst (store_measurements_in_sql db ms
                          {| files := w; metadata := md |})) in
  db_at w' db =
    {| spots := spots (db_at w db) ++ map (spot_row md) ms;
       images := images (db_at w db) ++ [image_row md ms] |} /\
  (forall other, other <> db -> dbs w' !! other = dbs w !! other).
Proof.
  intros Hret w'. subst w'.
  destruct (store_cases db ms w md)
    as [(_ & _ & _ & row & Hw) | [(_ & _ & Hov & _) | (_ & e & He & _)]];
    [|rewrite Hret in Hov; discriminate | rewrite Hret in He; discriminate].
  rewrite Hw. split.
  - unfold db_at at 1. cbn [dbs]. rewrite lookup_insert_eq. reflexivity.
  - intros other Ho. cbn [dbs]. rewrite lookup_insert_ne by congruence.
    reflexivity.
Qed.

Lemma store_inserts_one_row_per_spot_witness :
  let md := parse_filename "control_meristem/h2b_seedling3_z2c1.tif" in
  let w := {| summary_csv := None; dbs := ∅ |} in
  let run := store_measurements_in_sql "results.db" [demo_spot]
               {| files := w; metadata := md |} in
  snd run = Ok tt /\
  spots (db_at (files (fst run)) "results.db") = [spot_row md demo_spot].
Proof.
  intros md w run.
  assert (Hret : snd run = Ok tt) by (vm_compute; reflexivity).
  split; [exact Hret|].
  destruct (store_inserts_one_row_per_spot "results.db" [demo_spot] w md Hret)
    as [Hrows _].
  fold run in Hrows. rewrite Hrows. reflexivity.
Defined.

(** ** More on paths and names *)

Lemma splitroot_cases s :
  splitroot s =
    match s with
    | EmptyString => (EmptyString, EmptyString)
    | String c1 r1 =>
        if Ascii.eqb c1 "/" then
          match r1 with
          | EmptyString => ("/", EmptyString)
          | String c2 r2 =>
              if Ascii.eqb c2 "/" then
                match r2 with
                | EmptyString => ("//", EmptyString)
                | String c3 r3 => if Ascii.eqb c3 "/" then ("/", r1) else ("//", r2)
                end
              else ("/", r1)
          end
        else (EmptyString, s)
    end.
Proof.
  destruct s as [|c1 r1]; [reflexivity|].
  destruct c1 as [[] [] [] [] [] [] [] []]; try reflexivity.
  destruct r1 as [|c2 r2]; [reflexivity|].
  destruct c2 as [[] [] [] [] [] [] [] []]; try reflexivity.
  destruct r2 as [|c3 r3]; [reflexivity|].
  destruct c3 as [[] [] [] [] [] [] [] []]; reflexivity.
Qed.

Lemma root_of_path s :
  root (mkPath s) = "" \/ root (mkPath s) = "/" \/ root (mkPath s) = "//".
Proof.
  unfold mkPath. rewrite splitroot_cases.
  destruct s as [|c1 [|c2 [|c3 r3]]]; simpl; auto;
    repeat match goal with |- context [Ascii.eqb ?c "/"] =>
             destruct (Ascii.eqb c "/"); simpl; auto end.
Qed.

Lemma lower_app a b : lower (a +:+ b) = lower a +:+ lower b.
Proof.
  induction a as [|c a IH]; [reflexivity|].
  change (lower (String c a +:+ b)) with (String (lower_ascii c) (lower (a +:+ b))).
  rewrite IH. reflexivity.
Qed.

Lemma join_cons sep x y l :
  join sep (x :: y :: l) = x +:+ sep +:+ join sep (y :: l).
Proof. reflexivity. Qed.

Lemma lower_join l : lower (join "/" l) = join "/" (map lower l).
Proof.
  induction l as [|x l IH]; [reflexivity|].
  destruct l as [|y l]; [reflexivity|].
  rewrite join_cons. cbn [map]. rewrite join_cons.
  rewrite !lower_app. cbn [map] in IH. rewrite IH. reflexivity.
Qed.

Lemma starts_with_nil_r k : starts_with k "" = String.eqb k "".
Proof. destruct k; reflexivity. Qed.

Lemma starts_with_before_sep c k a b :
  free_of c k = true ->
  starts_with k (a +:+ String c b) = starts_with k a.
Proof.
  revert k. induction a as [|x a IH]; intros k Hk.
  - destruct k as [|c' k]; [reflexivity|]. cbn in Hk.
    apply andb_true_iff in Hk as [Hc _]. apply negb_true_iff in Hc.
    change ("" +:+ String c b) with (String c b).
    unfold starts_with. cbn [strip_prefix]. rewrite Hc. reflexivity.
  - destruct k as [|c' k]; [reflexivity|]. cbn in Hk.
    apply andb_true_iff in Hk as [_ Hk]. specialize (IH k Hk).
    change (String x a +:+ String c b) with (String x (a +:+ String c b)).
    unfold starts_with in *. cbn [strip_prefix].
    destruct (Ascii.eqb c' x); [exact IH | reflexivity].
Qed.

Lemma contains_nil k : k <> "" -> contains k "" = false.
Proof. intros H. destruct k; [congruence | reflexivity]. Qed.

Lemma contains_around_sep c k a b :
  free_of c k = true -> k <> "" ->
  contains k (a +:+ String c b) = contains k a || contains k b.
Proof.
  intros Hk Hne. induction a as [|x a IH].
  - rewrite (contains_nil k Hne). cbn [orb].
    change (contains k ("" +:+ String c b))
      with (starts_with k ("" +:+ String c b) || contains k b).
    rewrite (starts_with_before_sep c k "" b Hk), starts_with_nil_r.
    destruct k; [congruence | reflexivity].
  - change (contains k (String x a +:+ String c b))
      with (starts_with k (String x a +:+ String c b)
            || contains k (a +:+ String c b)).
    rewrite IH, (starts_with_before_sep c k (String x a) b Hk).
    change (contains k (String x a)) with (starts_with k (String x a) || contains k a).
    rewrite orb_assoc. reflexivity.
Qed.

Lemma contains_join k l :
  free_of "/" k = true -> k <> "" ->
  contains k (join "/" l) = existsb (contains k) l.
Proof.
  intros Hk Hne. induction l as [|x l IH].
  - apply contains_nil, Hne.
  - destruct l as [|y l].
    + cbn. rewrite orb_false_r. reflexivity.
    + rewrite join_cons.
      change ("/" +:+ join "/" (y :: l)) with (String "/" (join "/" (y :: l))).
      rewrite contains_around_sep by assumption. rewrite IH. reflexivity.
Qed.

(** A keyword without a slash occurs in the lower-cased path exactly when
    it occurs in one of the lower-cased segments. *)
Lemma keyword_in_path_or_segment k s :
  free_of "/" k = true -> k <> "" -> k <> "." ->
  contains k (lower (str (mkPath s))) =
  existsb (contains k) (map lower (parts (mkPath s))).
Proof.
  intros Hk Hne Hdot.
  assert (Hslash : contains k "/" = false).
  { change (contains k "/") with (contains k ("" +:+ String "/" "")).
    rewrite contains_around_sep by assumption.
    rewrite contains_nil by exact Hne. reflexivity. }
  assert (Hd : contains k "." = false).
  { destruct k as [|a [|b k]]; try congruence.
    - cbn. unfold starts_with. cbn.
      destruct (Ascii.eqb_spec a "."); [congruence | reflexivity].
    - cbn. unfold starts_with. cbn. destruct (Ascii.eqb a "."); reflexivity. }
  assert (Hj : contains k (lower (join "/" (tail (mkPath s)))) =
               existsb (contains k) (map lower (tail (mkPath s)))).
  { rewrite lower_join. apply contains_join; assumption. }
  unfold str, parts.
  destruct (root_of_path s) as [Hr | [Hr | Hr]]; rewrite Hr.
  - change ("" +:+ join "/" (tail (mkPath s))) with (join "/" (tail (mkPath s))).
    cbn [String.eqb]. rewrite <- Hj.
    destruct (String.eqb_spec (join "/" (tail (mkPath s))) "") as [E|E].
    + rewrite E. change (lower ".") with ".". change (lower "") with "".
      rewrite Hd, contains_nil by exact Hne. reflexivity.
    + reflexivity.
  - change ("/" +:+ join "/" (tail (mkPath s)))
      with (String "/" (join "/" (tail (mkPath s)))).
    cbn [String.eqb map existsb lower].
    change (lower_ascii "/") with "/"%char.
    change (String "/" (lower (join "/" (tail (mkPath s)))))
      with ("" +:+ String "/" (lower (join "/" (tail (mkPath s))))).
    rewrite contains_around_sep by assumption.
    rewrite contains_nil by exact Hne.
    change (String "/" "") with "/". rewrite Hslash, Hj. reflexivity.
  - change ("//" +:+ join "/" (tail (mkPath s)))
      with (String "/" (String "/" (join "/" (tail (mkPath s))))).
    cbn [String.eqb map existsb lower].
    change (lower_ascii "/") with "/"%char.
    change (String "/" (String "/" (lower (join "/" (tail (mkPath s))))))
      with ("" +:+ String "/" ("" +:+ String "/" (lower (join "/" (tail (mkPath s)))))).
    rewrite !contains_around_sep by assumption.
    rewrite contains_nil by exact Hne.
    assert (Hss : contains k "//" = false).
    { change "//" with ("" +:+ String "/" ("" +:+ String "/" "")).
      rewrite !contains_around_sep by assumption.
      rewrite contains_nil by exact Hne. reflexivity. }
    change (String "/" (String "/" "")) with "//". rewrite Hss, Hj. reflexivity.
Qed.

(** X7. The region and the genotype that [store_measurements_in_sql] writes
    into the dictionary and into the summary row are the ones that
    [parse_filename] inferred from the path, unless the inferred value was
    "unknown": then the region becomes "elongation" and the genotype
    "mutant". Both are written before the inserts, so this holds whether
    the call returns or not. *)
Theorem store_keeps_known_region_and_genotype
    (file_path db : string) (ms : list measurement) (w : world) :
  let meta := parse_filename file_path in
  let run := store_measurements_in_sql db ms {| files := w; metadata := meta |} in
  exists r g,
    meta !! "region" = Some (VStr r) /\
    meta !! "genotype" = Some (VStr g) /\
    metadata (fst run) !! "region" =
      Some (VStr (if String.eqb r "unknown" then "elongation" else r)) /\
    metadata (fst run) !! "genotype" =
      Some (VStr (if String.eqb g "unknown" then "mutant" else g)) /\
    nth 1 (last_summary_row (files (fst run))) VNone =
      VStr (if String.eqb r "unknown" then "elongation" else r) /\
    nth 2 (last_summary_row (files (fst run))) VNone =
      VStr (if String.eqb g "unknown" then "mutant" else g).
Proof.
  intros meta run.
  destruct (parse_filename_lookup file_path) as (Hf & Hr & Hg & [s Hs] & [z Hz]).
  fold meta in Hf, Hr, Hg, Hs, Hz.
  rewrite first_keyword_two in Hr, Hg.
  rewrite <- (keyword_in_path_or_segment "meristem") in Hr
    by (reflexivity || discriminate).
  rewrite <- (keyword_in_path_or_segment "elongation") in Hr
    by (reflexivity || discriminate).
  rewrite <- (keyword_in_path_or_segment "control") in Hg
    by (reflexivity || discriminate).
  rewrite <- (keyword_in_path_or_segment "mutant") in Hg
    by (reflexivity || discriminate).
  assert (Hrun := store_run db ms w meta _ _ _ Hf Hs Hz).
  fold run in Hrun. cbv zeta in Hrun. rewrite Hrun.
  eexists _, _. split; [exact Hr|]. split; [exact Hg|].
  destruct (all_bindable meta ms); cbn [fst files metadata];
    rewrite last_summary_row_appended; cbn [nth];
    unfold enrich; rewrite lookup_insert_ne by discriminate;
    rewrite !lookup_insert_eq;
    unfold stored_region, stored_genotype;
    set (fl := lower (str (mkPath file_path)));
    destruct (contains "meristem" fl), (contains "elongation" fl),
      (contains "control" fl), (contains "mutant" fl); repeat split; reflexivity.
Qed.

Lemma lower_ascii_idem c : lower_ascii (lower_ascii c) = lower_ascii c.
Proof. destruct c as [[] [] [] [] [] [] [] []]; reflexivity. Qed.

Lemma lower_ascii_slash c : Ascii.eqb (lower_ascii c) "/" = Ascii.eqb c "/".
Proof. destruct c as [[] [] [] [] [] [] [] []]; reflexivity. Qed.

Lemma lower_ascii_dot c : Ascii.eqb (lower_ascii c) "." = Ascii.eqb c ".".
Proof. destruct c as [[] [] [] [] [] [] [] []]; reflexivity. Qed.

Lemma lower_idem s : lower (lower s) = lower s.
Proof.
  induction s as [|c s IH]; [reflexivity|]. cbn [lower].
  rewrite lower_ascii_idem, IH. reflexivity.
Qed.

Lemma splitroot_lower s :
  splitroot (lower s) = (fst (splitroot s), lower (snd (splitroot s))).
Proof.
  rewrite !splitroot_cases.
  destruct s as [|c1 [|c2 [|c3 r3]]]; cbn [lower];
    rewrite ?lower_ascii_slash;
    repeat match goal with |- context [Ascii.eqb ?c "/"] =>
             destruct (Ascii.eqb c "/") eqn:?; cbn [fst snd lower] end;
    rewrite ?lower_ascii_slash; try reflexivity; try congruence.
Qed.

Lemma split_on_lower s :
  split_on "/" (lower s) = map lower (split_on "/" s).
Proof.
  induction s as [|c s IH]; [reflexivity|]. cbn [lower split_on].
  rewrite lower_ascii_slash, IH.
  destruct (Ascii.eqb c "/"); [reflexivity|].
  destruct (split_on "/" s); reflexivity.
Qed.

Lemma keep_segment_lower x : keep_segment (lower x) = keep_segment x.
Proof.
  unfold keep_segment. destruct x as [|c [|d x]]; try reflexivity.
  cbn [lower String.eqb]. rewrite lower_ascii_dot. reflexivity.
  cbn [lower String.eqb]. rewrite lower_ascii_dot. reflexivity.
Qed.

Lemma filter_keep_lower l :
  filter (fun x => keep_segment x = true) (map lower l) =
  map lower (filter (fun x => keep_segment x = true) l).
Proof.
  induction l as [|x l IH]; [reflexivity|]. cbn [map].
  rewrite !filter_cons, IH, keep_segment_lower.
  destruct (decide (keep_segment x = true)); reflexivity.
Qed.

Lemma mkPath_lower s :
  root (mkPath (lower s)) = root (mkPath s) /\
  tail (mkPath (lower s)) = map lower (tail (mkPath s)).
Proof.
  unfold mkPath. rewrite splitroot_lower. destruct (splitroot s) as [rt rel].
  cbn [fst snd root tail]. rewrite split_on_lower, filter_keep_lower. auto.
Qed.

Lemma last_map_lower l : List.last (map lower l) "" = lower (List.last l "").
Proof.
  induction l as [|x l IH]; [reflexivity|].
  destruct l as [|y l]; [reflexivity|]. exact IH.
Qed.

Lemma map_lower_idem l : map lower (map lower l) = map lower l.
Proof. rewrite map_map. apply map_ext. intros. apply lower_idem. Qed.

(** X8. [parse_filename] is case-insensitive: lower-casing the whole path
    changes no field other than "filename". *)
Theorem parse_filename_ignores_case (file_path k : string) :
  k <> "filename" ->
  parse_filename (lower file_path) !! k = parse_filename file_path !! k.
Proof.
  intros Hk. destruct (mkPath_lower file_path) as [Hroot Htail].
  assert (Hsegs : map lower (parts (mkPath (lower file_path)))
                  = map lower (parts (mkPath file_path))).
  { unfold parts. rewrite Hroot, Htail.
    destruct (String.eqb (root (mkPath file_path)) ""); cbn [map].
    - apply map_lower_idem.
    - rewrite map_lower_idem. reflexivity. }
  assert (Hname : lower (name (mkPath (lower file_path)))
                  = lower (name (mkPath file_path))).
  { unfold name. rewrite Htail, last_map_lower. apply lower_idem. }
  unfold parse_filename. rewrite Hsegs, Hname.
  rewrite !(lookup_insert_ne _ "filename") by congruence. reflexivity.
Qed.

Lemma parse_filename_ignores_case_witness :
  "seedling" <> "filename" /\
  parse_filename (lower "Ctrl/H2B_Seedling7_Z3C1.TIF") !! "seedling"
  = parse_filename "Ctrl/H2B_Seedling7_Z3C1.TIF" !! "seedling".
Proof.
  split; [discriminate|].
  apply (parse_filename_ignores_case "Ctrl/H2B_Seedling7_Z3C1.TIF" "seedling").
  discriminate.
Defined.

Lemma digit_run_all_digits s : all_digits (digit_run s) = true.
Proof.
  induction s as [|c s IH]; [reflexivity|]. cbn [digit_run].
  destruct (is_digit c) eqn:Hc; [|reflexivity]. cbn [all_digits].
  rewrite Hc, IH. reflexivity.
Qed.

Lemma spec_first_run_digits tok ext s g :
  spec_first_run tok ext s = Some g -> g <> "" /\ all_digits g = true.
Proof.
  induction s as [|c s IH]; cbn [spec_first_run]; unfold run_at;
    destruct (strip_prefix tok _) as [rest|];
    try (destruct (negb (String.eqb (digit_run rest) "") &&
                   starts_with ext (skip_digits rest)) eqn:Hb);
    try discriminate; try exact IH;
    intros [= <-]; apply andb_true_iff in Hb as [Hb _];
    apply negb_true_iff in Hb;
    (split; [intros E; rewrite E in Hb; discriminate | apply digit_run_all_digits]).
Qed.

Lemma int_of_digits_aux_nonneg acc s :
  0 <= acc -> all_digits s = true -> 0 <= int_of_digits_aux acc s.
Proof.
  revert acc. induction s as [|c s IH]; intros acc Hacc Hs; [exact Hacc|].
  cbn [all_digits] in Hs. apply andb_true_iff in Hs as [Hc Hs].
  cbn [int_of_digits_aux]. apply IH; [|exact Hs].
  unfold is_digit in Hc. apply andb_true_iff in Hc as [H1 _].
  apply Nat.leb_le in H1. unfold digit_val. lia.
Qed.

Lemma parse_filename_numbers (file_path : string) :
  let fname := lower (name (mkPath file_path)) in
  let m := parse_filename file_path in
  m !! "seedling" =
    Some (match spec_first_run "seedling" "" fname with
          | Some g => VInt (int_of_digits g) | None => VNone end) /\
  m !! "zslice" =
    Some (match spec_first_run "_z" "" fname with
          | Some g => VInt (int_of_digits g) | None => VNone end) /\
  m !! "channel" =
    Some (match spec_first_run "c" ".tif" fname with
          | Some g => VStr ("c" +:+ g) | None => VStr "unknown" end).
Proof.
  intros fname m. unfold m, parse_filename. fold fname.
  rewrite seedling_regex, zslice_regex, channel_regex.
  repeat split; repeat (rewrite lookup_insert_ne by discriminate);
    rewrite lookup_insert_eq; reflexivity.
Qed.

(** X9. For a path of ASCII characters, no longer than the longest string
    of digits that [int] reads, the seedling number and the z-slice that
    [parse_filename] returns are [None] or a non-negative integer, and the
    channel is "unknown" or "c" followed by a non-empty string of the digits
    0-9. *)
Theorem parse_filename_field_shapes (file_path : string) :
  is_ascii file_path = true ->
  (String.length file_path <= max_str_digits)%nat ->
  let m := parse_filename file_path in
  (m !! "seedling" = Some VNone \/
   exists n, m !! "seedling" = Some (VInt n) /\ 0 <= n) /\
  (m !! "zslice" = Some VNone \/
   exists n, m !! "zslice" = Some (VInt n) /\ 0 <= n) /\
  (m !! "channel" = Some (VStr "unknown") \/
   exists g, m !! "channel" = Some (VStr ("c" +:+ g)) /\
             g <> "" /\ all_digits g = true).
Proof.
  intros _ _ m.
  destruct (parse_filename_numbers file_path) as (Hs & Hz & Hc).
  fold m in Hs, Hz, Hc. rewrite Hs, Hz, Hc. repeat split.
  - destruct (spec_first_run "seedling" "" _) as [g|] eqn:E; [right | left; reflexivity].
    apply spec_first_run_digits in E as [_ E]. eexists. split; [reflexivity|].
    apply int_of_digits_aux_nonneg; [lia | exact E].
  - destruct (spec_first_run "_z" "" _) as [g|] eqn:E; [right | left; reflexivity].
    apply spec_first_run_digits in E as [_ E]. eexists. split; [reflexivity|].
    apply int_of_digits_aux_nonneg; [lia | exact E].
  - destruct (spec_first_run "c" ".tif" _) as [g|] eqn:E; [right | left; reflexivity].
    apply spec_first_run_digits in E. eauto.
Qed.

Lemma parse_filename_field_shapes_witness :
  is_ascii "ctrl/h2b_seedling7_z3c1.tif" = true /\
  (String.length "ctrl/h2b_seedling7_z3c1.tif" <= max_str_digits)%nat /\
  exists n, parse_filename "ctrl/h2b_seedling7_z3c1.tif" !! "seedling"
            = Some (VInt n) /\ 0 <= n.
Proof.
  assert (Ha : is_ascii "ctrl/h2b_seedling7_z3c1.tif" = true) by reflexivity.
  assert (Hl : (String.length "ctrl/h2b_seedling7_z3c1.tif" <= max_str_digits)%nat)
    by (apply Nat.leb_le; vm_compute; reflexivity).
  split; [exact Ha|]. split; [exact Hl|].
  destruct (parse_filename_field_shapes "ctrl/h2b_seedling7_z3c1.tif" Ha Hl)
    as ([Hnone | Hs] & _).
  - vm_compute in Hnone. discriminate Hnone.
  - exact Hs.
Defined.

(** ** More on segmentation *)

Lemma remove_small_objects_subseteq ar min_size p :
  p ∈ fg (remove_small_objects ar min_size) -> p ∈ fg ar.
Proof.
  destruct (Z.eq_dec min_size 0) as [->|Hk].
  - unfold remove_small_objects. simpl. auto.
  - intros H. apply (remove_small_objects_fg ar min_size p Hk) in H. tauto.
Qed.

Lemma count_by_label (f : pixel -> nat) (l : list pixel) (n : nat) :
  length (filter (fun x => (1 <= f x <= n)%nat) l) =
  list_sum (map (fun k => length (filter (fun x => f x = k) l)) (seq 1 n)).
Proof.
  induction n as [|n IH].
  - simpl. induction l as [|x l IHl]; [reflexivity|].
    rewrite filter_cons. destruct (decide (1 <= f x <= 0)%nat); [lia | exact IHl].
  - rewrite seq_S, map_app, list_sum_app, <- IH. simpl. rewrite Nat.add_0_r.
    clear IH. induction l as [|x l IHl]; [reflexivity|].
    rewrite !filter_cons.
    destruct (decide (1 <= f x <= S n)%nat), (decide (1 <= f x <= n)%nat),
      (decide (f x = S n)); simpl; lia.
Qed.

Section SegmenterMore.

Variable threshold_local : grid Z -> list spec_float.
Variable binary_closing binary_opening : grid bool -> nat -> grid bool.

Local Abbreviation segment :=
  (segment_and_measure_spots threshold_local binary_closing binary_opening).
Local Abbreviation cleaned :=
  (cleaned_mask threshold_local binary_closing binary_opening).

(** X10. The returned mask has the shape of the image and lies inside the
    mask that came out of the morphological cleanup: the two filters only
    remove pixels, and border clearing keeps or removes whole components of
    what the size filter left. *)
Theorem returned_mask_within_cleaned_mask
    (image : grid Z) (min_area : Z) (closing_radius opening_radius : nat)
    (ms : list measurement) (mask : grid bool) :
  segment image min_area closing_radius opening_radius = Ok (ms, mask) ->
  height mask = height image /\ width mask = width image /\
  (forall p, p ∈ fg mask -> p ∈ fg (cleaned image closing_radius opening_radius)) /\
  (forall p q, p ∈ fg mask ->
     connected adj8
       (fg (remove_small_objects (cleaned image closing_radius opening_radius)
              min_area)) p q ->
     q ∈ fg mask).
Proof.
  intros Hseg. destruct (segment_inv _ _ _ _ _ _ _ _ _ Hseg) as (Hcb & Hh & Hw & _).
  split; [exact Hh|]. split; [exact Hw|]. split.
  - intros p Hp. apply (clear_border_fg _ _ p Hcb) in Hp as [Hp _].
    eapply remove_small_objects_subseteq, Hp.
  - intros p q Hp Hpq. apply (clear_border_fg _ _ p Hcb) in Hp as [Hp Hclear].
    apply (clear_border_fg _ _ q Hcb). split.
    + eapply connected_elem_of; eassumption.
    + intros b Hb. apply Hclear. eapply rtc_trans; eassumption.
Qed.

(** X11. The returned spots partition the returned mask: their pixel counts
    add up to the number of foreground pixels, and the list is empty exactly
    when the mask has no foreground pixel (which is a normal return, not an
    error). *)
Theorem spots_partition_the_mask
    (image : grid Z) (min_area : Z) (closing_radius opening_radius : nat)
    (ms : list measurement) (mask : grid bool) :
  segment image min_area closing_radius opening_radius = Ok (ms, mask) ->
  list_sum (map (fun e => count_label (measure_label mask) (label e)) ms)
    = length (fg mask) /\
  (ms = [] <-> fg mask = []).
Proof.
  intros Hseg. destruct (segment_inv _ _ _ _ _ _ _ _ _ Hseg) as (_ & _ & _ & Hms).
  assert (Hsum : list_sum (map (fun e => count_label (measure_label mask) (label e)) ms)
                 = length (fg mask)).
  { rewrite Hms, !map_map. cbn [label measure_of region_of rp_label].
    unfold count_label.
    rewrite <- (count_by_label (cell O (measure_label mask))).
    unfold fg. f_equal. apply list_filter_iff. intros p.
    assert (H1 := label_le adj8 adj8_sym mask p).
    assert (H2 := label_fg adj8 mask p). rewrite fg_elem_of in H2.
    unfold measure_label. split.
    - intros [Hpos _]. apply H2. lia.
    - intros Hp. apply H2 in Hp. lia. }
  split; [exact Hsum|]. split.
  - intros E. rewrite E in Hsum. simpl in Hsum.
    destruct (fg mask); [reflexivity | discriminate].
  - intros E. rewrite Hms. destruct (roots adj8 mask) as [|r rs] eqn:Hr; [reflexivity|].
    assert (Hin : r ∈ fg mask).
    { apply (roots_subseteq adj8). rewrite Hr. left. }
    rewrite E in Hin. inversion Hin.
Qed.

End SegmenterMore.

Lemma returned_mask_within_cleaned_mask_witness :
  segment_and_measure_spots demo_threshold demo_morphology demo_morphology
    demo_image 5 3 1 = Ok ([demo_spot], demo_mask) /\
  height demo_mask = height demo_image /\ width demo_mask = width demo_image.
Proof.
  assert (Hrun : segment_and_measure_spots demo_threshold demo_morphology
                   demo_morphology demo_image 5 3 1 = Ok ([demo_spot], demo_mask))
    by (vm_compute; reflexivity).
  split; [exact Hrun|].
  destruct (returned_mask_within_cleaned_mask demo_threshold demo_morphology
              demo_morphology demo_image 5 3 1 [demo_spot] demo_mask Hrun)
    as (Hh & Hw & _).
  split; [exact Hh | exact Hw].
Defined.

Lemma spots_partition_the_mask_witness :
  segment_and_measure_spots demo_threshold demo_morphology demo_morphology
    demo_image 5 3 1 = Ok ([demo_spot], demo_mask) /\
  list_sum (map (fun e => count_label (measure_label demo_mask) (label e))
              [demo_spot]) = length (fg demo_mask).
Proof.
  assert (Hrun : segment_and_measure_spots demo_threshold demo_morphology
                   demo_morphology demo_image 5 3 1 = Ok ([demo_spot], demo_mask))
    by (vm_compute; reflexivity).
  split; [exact Hrun|].
  apply (spots_partition_the_mask demo_threshold demo_morphology
           demo_morphology demo_image 5 3 1 [demo_spot] demo_mask Hrun).
Defined.

(** ** More on the batch loop *)

Lemma parse_filename_keys_present file_path : keys_present (parse_filename file_path).
Proof.
  destruct (parse_filename_lookup file_path) as (Hf & _ & _ & Hs & Hz).
  unfold keys_present. eauto.
Qed.

Section BatchMore.

Variable undef_cast : spec_float -> Z.
Variable imread : string -> imread_result.
Variable threshold_local : grid Z -> list spec_float.
Variable binary_closing binary_opening : grid bool -> nat -> grid bool.
Variable visualize :
  ndarray -> grid bool -> grid nat -> list measurement -> string -> result unit.
Variable rank_error : ndarray -> exn.
Variable out_dir : string.

Local Abbreviation run_file :=
  (process_file undef_cast imread threshold_local binary_closing
     binary_opening visualize rank_error out_dir).
Local Abbreviation run_files :=
  (process_files undef_cast imread threshold_local binary_closing
     binary_opening visualize rank_error out_dir).

Local Abbreviation lines_of := (file_lines undef_cast imread).

(** What one iteration does to the log, the summary file and the figures. *)
Lemma process_file_accounting st fname :
  exists e rows pics,
    log (run_file st fname) = log st ++ lines_of fname e /\
    event_file e = Some fname /\
    pngs (run_file st fname) = pngs st ++ pics /\
    length pics = length (filter (fun e => is_processed e = true) [e]) /\
    (length pics <= length rows <= 1)%nat /\
    match rows with
    | [] => sink (run_file st fname) = sink st
    | _ :: _ =>
        summary_csv (sink (run_file st fname)) =
          Some (csv_rows (sink st) ++ appended_rows (sink st) rows)
    end.
Proof.
  unfold process_file, file_lines.
  destruct (load_tif undef_cast imread fname) as [img|];
    [|exists (LoadFailed fname), [], []; cbn; rewrite app_nil_r, <- app_assoc;
     repeat split; try reflexivity; lia].
  destruct (grid_of_ndarray img) as [image|];
    [|exists (ErrorOn fname (rank_error img)), [], []; cbn;
     rewrite app_nil_r, <- app_assoc; repeat split; try reflexivity; lia].
  destruct (segment_and_measure_spots _ _ _ _ _ _ _) as [[sp mask]|e];
    [|exists (ErrorOn fname e), [], []; cbn; rewrite app_nil_r, <- app_assoc;
     repeat split; try reflexivity; lia].
  cbn [sink].
  destruct (store_cases db_path sp (sink st) (parse_filename fname))
    as [(_ & _ & Hok & row & Hfiles) | [(_ & _ & Hov & row & Hfiles) | (Hk & _)]];
    [| |destruct (Hk (parse_filename_keys_present fname))].
  - destruct (store_measurements_in_sql _ _ _) as [st' r]. cbn in Hok, Hfiles.
    subst r.
    assert (Hcsv : summary_csv (files st') =
                   Some (csv_rows (sink st) ++ appended_rows (sink st) [row])).
    { rewrite Hfiles. cbn. unfold csv_rows, appended_rows.
      destruct (summary_csv (sink st)); reflexivity. }
    destruct (visualize _ _ _ _ _) as [u|e].
    + exists (Processed fname (length sp)), [row],
        [path_join out_dir (stem (mkPath fname) +:+ "_seg.png")]. cbn.
      rewrite <- app_assoc.
      repeat split; try reflexivity; try lia; exact Hcsv.
    + exists (ErrorOn fname e), [row], []. cbn. rewrite app_nil_r, <- app_assoc.
      repeat split; try reflexivity; try lia; exact Hcsv.
  - destruct (store_measurements_in_sql _ _ _) as [st' r]. cbn in Hov, Hfiles.
    subst r.
    assert (Hcsv : summary_csv (files st') =
                   Some (csv_rows (sink st) ++ appended_rows (sink st) [row])).
    { rewrite Hfiles. cbn. unfold csv_rows, appended_rows.
      destruct (summary_csv (sink st)); reflexivity. }
    exists (ErrorOn fname OverflowError), [row], []. cbn.
    rewrite app_nil_r, <- app_assoc.
    repeat split; try reflexivity; try lia; exact Hcsv.
Qed.


End BatchMore.

(** ** Folders *)

Lemma append_nil_r s : s +:+ "" = s.
Proof.
  induction s as [|c s IH]; [reflexivity|].
  change (String c s +:+ "") with (String c (s +:+ "")). rewrite IH. reflexivity.
Qed.

Lemma append_assoc a b c : (a +:+ b) +:+ c = a +:+ (b +:+ c).
Proof.
  induction a as [|x a IH]; [reflexivity|].
  change (String x a +:+ b) with (String x (a +:+ b)).
  change (String x (a +:+ b) +:+ c) with (String x ((a +:+ b) +:+ c)).
  rewrite IH. reflexivity.
Qed.

Lemma length_append a b :
  String.length (a +:+ b) = (String.length a + String.length b)%nat.
Proof.
  induction a as [|x a IH]; [reflexivity|].
  change (String x a +:+ b) with (String x (a +:+ b)). cbn [String.length].
  rewrite IH. reflexivity.
Qed.

Lemma append_inv a a' b b' :
  a +:+ b = a' +:+ b' -> String.length b = String.length b' ->
  a = a' /\ b = b'.
Proof.
  revert a'. induction a as [|x a IH]; intros a' H Hlen.
  - destruct a' as [|y a']; [auto|]. exfalso.
    apply (f_equal String.length) in H.
    change ("" +:+ b) with b in H. rewrite length_append in H.
    cbn [String.length] in H. lia.
  - destruct a' as [|y a'].
    + exfalso. apply (f_equal String.length) in H.
      change ("" +:+ b') with b' in H. rewrite length_append in H.
      cbn [String.length] in H. lia.
    + change (String x (a +:+ b) = String y (a' +:+ b')) in H.
      injection H as -> H. destruct (IH a' H Hlen) as [-> ->]. auto.
Qed.

Lemma ends_with_app suf s :
  ends_with suf s = true <-> exists x, s = x +:+ suf.
Proof.
  induction s as [|c s IH]; cbn [ends_with].
  - rewrite orb_false_r. split.
    + intros H. apply String.eqb_eq in H. subst suf. exists "". reflexivity.
    + intros [x Hx]. destruct x; [|discriminate].
      apply String.eqb_eq. exact Hx.
  - rewrite orb_true_iff, IH. split.
    + intros [H | [x Hx]].
      * apply String.eqb_eq in H. exists "". exact H.
      * exists (String c x). rewrite Hx. reflexivity.
    + intros [x Hx]. destruct x as [|d x].
      * left. apply String.eqb_eq. exact Hx.
      * right. injection Hx as _ Hx. eauto.
Qed.

Lemma take_string_app x y : take_string (String.length x) (x +:+ y) = x.
Proof.
  induction x as [|c x IH]; [destruct y; reflexivity|].
  change (String c x +:+ y) with (String c (x +:+ y)).
  cbn [String.length take_string]. rewrite IH. reflexivity.
Qed.

Lemma drop_last_app x suf : drop_last (String.length suf) (x +:+ suf) = x.
Proof.
  unfold drop_last. rewrite length_append.
  replace (String.length x + String.length suf - String.length suf)%nat
    with (String.length x) by lia.
  apply take_string_app.
Qed.

Lemma tif_name_app x : tif_name (x +:+ ".tiff") = x +:+ ".tif".
Proof.
  unfold tif_name.
  change (drop_last 5 (x +:+ ".tiff"))
    with (drop_last (String.length ".tiff") (x +:+ ".tiff")).
  rewrite drop_last_app. reflexivity.
Qed.

Lemma glob_match_tiff n :
  glob_match ".tiff" n = true -> exists x, n = x +:+ ".tiff".
Proof.
  unfold glob_match. rewrite andb_true_iff. intros [H _].
  apply ends_with_app, H.
Qed.

(** The new name of a ".tiff" file does not match "*.tiff". *)
Lemma tif_name_not_tiff n :
  glob_match ".tiff" n = true -> glob_match ".tiff" (tif_name n) = false.
Proof.
  intros H. destruct (glob_match_tiff n H) as [x ->]. rewrite tif_name_app.
  unfold glob_match. apply andb_false_iff. left.
  destruct (ends_with ".tiff" (x +:+ ".tif")) eqn:E; [|reflexivity].
  apply ends_with_app in E as [y Hy].
  change ".tiff" with ("." +:+ "tiff") in Hy. rewrite <- append_assoc in Hy.
  apply append_inv in Hy as [_ Hy]; [discriminate | reflexivity].
Qed.

Lemma tif_name_inj n n' :
  glob_match ".tiff" n = true -> glob_match ".tiff" n' = true ->
  tif_name n = tif_name n' -> n = n'.
Proof.
  intros H H' E. destruct (glob_match_tiff n H) as [x ->].
  destruct (glob_match_tiff n' H') as [x' ->]. rewrite !tif_name_app in E.
  apply append_inv in E as [-> _]; reflexivity.
Qed.

Section FolderFacts.

Variable A : Type.
Variable renamed_by_pattern : string -> gmap string A -> result (gmap string A).

Lemma rename_all_spec (tiffs : list string) (fs : gmap string A) :
  NoDup tiffs ->
  (forall n, n ∈ tiffs -> glob_match ".tiff" n = true /\ is_Some (fs !! n)) ->
  exists fs',
    rename_all A tiffs fs = Ok fs' /\
    (forall n, n ∈ tiffs -> fs' !! n = None) /\
    (forall n, n ∈ tiffs -> fs' !! tif_name n = fs !! n) /\
    (forall m, m ∉ tiffs -> (forall n, n ∈ tiffs -> tif_name n <> m) ->
               fs' !! m = fs !! m).
Proof.
  revert fs. induction tiffs as [|t rest IH]; intros fs Hnd Hall.
  - exists fs. split; [reflexivity|]. repeat split; intros; auto;
      match goal with H : _ ∈ [] |- _ => inversion H end.
  - apply NoDup_cons in Hnd as [Ht Hnd].
    destruct (Hall t ltac:(left)) as [Hmt [c Hc]].
    cbn [rename_all]. rewrite Hc.
    set (fs1 := <[tif_name t := c]> (delete t fs)).
    assert (Hne : forall n, glob_match ".tiff" n = true -> tif_name t <> n).
    { intros n Hn E. rewrite <- E, tif_name_not_tiff in Hn by exact Hmt.
      discriminate. }
    assert (Hkeep : forall n, n ∈ rest -> fs1 !! n = fs !! n).
    { intros n Hn. destruct (Hall n ltac:(right; exact Hn)) as [Hmn _].
      unfold fs1. rewrite lookup_insert_ne by (apply Hne, Hmn).
      rewrite lookup_delete_ne by (intros ->; contradiction). reflexivity. }
    destruct (IH fs1 Hnd) as (fs' & Hrun & H1 & H2 & H3).
    { intros n Hn. destruct (Hall n ltac:(right; exact Hn)) as [Hmn Hsome].
      split; [exact Hmn|]. rewrite Hkeep by exact Hn. exact Hsome. }
    assert (Htarget : forall n, n ∈ rest -> tif_name n <> tif_name t).
    { intros n Hn E. destruct (Hall n ltac:(right; exact Hn)) as [Hmn _].
      apply tif_name_inj in E; try assumption. subst n. contradiction. }
    exists fs'. split; [exact Hrun|]. split; [|split].
    + intros n Hn. apply elem_of_cons in Hn as [-> | Hn]; [|apply H1, Hn].
      rewrite H3; [| exact Ht |].
      * unfold fs1. rewrite lookup_insert_ne by (apply Hne, Hmt).
        apply lookup_delete_eq.
      * intros n Hn E. destruct (Hall n ltac:(right; exact Hn)) as [Hmn _].
        rewrite <- E, tif_name_not_tiff in Hmt by exact Hmn. discriminate.
    + intros n Hn. apply elem_of_cons in Hn as [-> | Hn].
      * rewrite H3.
        -- unfold fs1. rewrite lookup_insert_eq. symmetry. exact Hc.
        -- intros Hin. destruct (Hall _ ltac:(right; exact Hin)) as [Hm _].
           rewrite tif_name_not_tiff in Hm by exact Hmt. discriminate.
        -- intros n Hn. apply Htarget, Hn.
      * rewrite H2 by exact Hn. apply Hkeep, Hn.
    + intros m Hm Hfree.
      assert (Hm1 : m ∉ rest) by (intros Hin; apply Hm; right; exact Hin).
      assert (Hmt' : m <> t) by (intros ->; apply Hm; left).
      rewrite H3; [| exact Hm1 | intros n Hn; apply Hfree; right; exact Hn].
      unfold fs1. rewrite lookup_insert_ne by (apply Hfree; left).
      apply lookup_delete_ne. congruence.
Qed.


End FolderFacts.


(** ** Discovery of the folders to process *)

Lemma lower_tif_suffix ext n :
  lower ext = ext -> ends_with ext n = true -> ends_with ext (lower n) = true.
Proof.
  intros Hext H. apply ends_with_app in H as [x ->]. apply ends_with_app.
  exists (lower x). rewrite lower_app, Hext. reflexivity.
Qed.

Lemma has_image_spec file_names :
  has_image file_names = true <->
  exists f, f ∈ file_names /\
            (ends_with ".tif" (lower f) = true \/ ends_with ".tiff" (lower f) = true).
Proof.
  unfold has_image. rewrite existsb_exists. split.
  - intros (f & Hin & H). exists f. split; [apply list_elem_of_In, Hin|].
    apply orb_true_iff, H.
  - intros (f & Hin & H). exists f. split; [apply list_elem_of_In, Hin|].
    apply orb_true_iff, H.
Qed.

Lemma discover_elem_of top path :
  path ∈ discover_image_folders top <->
  exists file_names, (path, file_names) ∈ walk top /\ has_image file_names = true.
Proof.
  unfold discover_image_folders. rewrite list_elem_of_fmap. split.
  - intros ([p fs] & -> & H). apply list_elem_of_filter in H as [H1 H2].
    exists fs. split; assumption.
  - intros (fs & H1 & H2). exists (path, fs). split; [reflexivity|].
    apply list_elem_of_filter. split; assumption.
Qed.

(** X14. [discover_image_folders] misses no folder with something to
    process: a directory of the tree one of whose files is matched by the
    pattern "*.tif" or "*.tiff" of [process_folder] is discovered. Every
    discovered path is a directory of the tree with a file whose lower-cased
    name ends with ".tif" or ".tiff". The test of the discovery is weaker
    than the pattern: a folder can be discovered and have no file that the
    patterns match. *)
Theorem discover_covers_what_glob_matches (top : tree) :
  (forall path file_names f,
      (path, file_names) ∈ walk top ->
      f ∈ glob_ext ".tif" file_names \/ f ∈ glob_ext ".tiff" file_names ->
      path ∈ discover_image_folders top) /\
  (forall path,
      path ∈ discover_image_folders top ->
      exists file_names f x,
        (path, file_names) ∈ walk top /\ f ∈ file_names /\
        (lower f = x +:+ ".tif" \/ lower f = x +:+ ".tiff")) /\
  (exists file_names,
      has_image file_names = true /\
      glob_ext ".tif" file_names = [] /\ glob_ext ".tiff" file_names = []).
Proof.
  split; [|split].
  - intros path fs f Hw Hf. apply discover_elem_of. exists fs. split; [exact Hw|].
    apply has_image_spec. unfold glob_ext, glob_match in Hf.
    destruct Hf as [Hf | Hf]; apply list_elem_of_filter in Hf as [Hm Hin];
      apply andb_true_iff in Hm as [Hm _]; exists f; (split; [exact Hin|]).
    + left. apply lower_tif_suffix; [reflexivity | exact Hm].
    + right. apply lower_tif_suffix; [reflexivity | exact Hm].
  - intros path H. apply discover_elem_of in H as (fs & Hw & Hi).
    apply has_image_spec in Hi as (f & Hin & H).
    destruct H as [H | H]; apply ends_with_app in H as [x Hx];
      exists fs, f, x; repeat split; auto.
  - exists ["A.TIF"]. repeat split; vm_compute; reflexivity.
Qed.

(** ** The single-folder script *)

Lemma split_on_nonempty c s : split_on c s <> [].
Proof.
  destruct s as [|a s]; cbn [split_on]; [discriminate|].
  destruct (Ascii.eqb a c); [discriminate|].
  destruct (split_on c s); discriminate.
Qed.

Lemma last_cons_nonempty {A} (x : A) l d : l <> [] -> List.last (x :: l) d = List.last l d.
Proof. destruct l; [congruence | reflexivity]. Qed.

Lemma basename_after_slash r : basename (String "/" r) = basename r.
Proof.
  unfold basename. cbn [split_on]. change (Ascii.eqb "/" "/") with true. cbv iota.
  apply last_cons_nonempty, split_on_nonempty.
Qed.

Lemma basename_of_rel s : basename (snd (splitroot s)) = basename s.
Proof.
  rewrite splitroot_cases.
  destruct s as [|c1 [|c2 [|c3 r3]]]; cbn [snd]; try reflexivity;
    repeat match goal with |- context [Ascii.eqb ?c "/"] =>
             destruct (Ascii.eqb_spec c "/"); subst; cbn [snd] end;
    rewrite ?basename_after_slash; try reflexivity.
Qed.

Lemma last_filter_keep l x :
  List.last l "" = x -> keep_segment x = true ->
  List.last (filter (fun y => keep_segment y = true) l) "" = x.
Proof.
  intros Hl Hk. induction l as [|a l IH].
  - cbn in Hl. subst x. vm_compute in Hk. discriminate Hk.
  - destruct l as [|b l].
    + cbn in Hl. subst a. rewrite filter_cons_True by exact Hk. reflexivity.
    + rewrite filter_cons. specialize (IH Hl).
      destruct (decide (keep_segment a = true)); [|exact IH].
      rewrite last_cons_nonempty; [exact IH|].
      intros E. rewrite E in IH. cbn in IH. rewrite <- IH in Hk. vm_compute in Hk. discriminate Hk.
Qed.

(** The name that [pathlib] gives is the base name, when the base name is
    neither empty nor ".". *)
Lemma name_is_basename s :
  keep_segment (basename s) = true -> name (mkPath s) = basename s.
Proof.
  intros Hk. unfold name, mkPath. destruct (splitroot s) as [rt rel] eqn:E.
  cbn [tail]. apply last_filter_keep; [|exact Hk].
  change (List.last (split_on "/" rel) "") with (basename rel).
  replace rel with (snd (splitroot s)) by (rewrite E; reflexivity).
  apply basename_of_rel.
Qed.

Lemma split_on_free s : free_of "/" s = true -> split_on "/" s = [s].
Proof.
  induction s as [|c s IH]; [reflexivity|]. cbn [free_of split_on].
  rewrite andb_true_iff, negb_true_iff. intros [Hc Hs].
  rewrite Hc, (IH Hs). reflexivity.
Qed.

Lemma last_split_free s : free_of "/" (List.last (split_on "/" s) "") = true.
Proof.
  induction s as [|c s IH]; [reflexivity|]. cbn [split_on].
  destruct (Ascii.eqb c "/") eqn:Hc.
  - rewrite last_cons_nonempty by apply split_on_nonempty. exact IH.
  - destruct (split_on "/" s) as [|w ws] eqn:E;
      [exfalso; exact (split_on_nonempty _ _ E)|].
    destruct ws as [|w' ws].
    + cbn [List.last free_of] in *. rewrite Hc, IH. reflexivity.
    + exact IH.
Qed.

Lemma mkPath_basename s :
  keep_segment (basename s) = true ->
  mkPath (basename s) = {| root := ""; tail := [basename s] |}.
Proof.
  intros Hk. assert (Hf := last_split_free s). fold (basename s) in Hf.
  unfold mkPath. rewrite splitroot_cases.
  destruct (basename s) as [|c b] eqn:Eb; [vm_compute in Hk; discriminate Hk|].
  cbn [free_of] in Hf. apply andb_true_iff in Hf as [Hc Hb].
  apply negb_true_iff in Hc. rewrite Hc.
  rewrite (split_on_free (String c b))
    by (cbn [free_of]; rewrite Hc, Hb; reflexivity).
  rewrite filter_cons_True by exact Hk. reflexivity.
Qed.

Lemma rfind_dot_tif x i :
  rfind_dot (x +:+ ".tif") i = Some (i + String.length x)%nat.
Proof.
  revert i. induction x as [|c x IH]; intros i.
  - cbn. f_equal. lia.
  - change (String c x +:+ ".tif") with (String c (x +:+ ".tif")).
    cbn [rfind_dot String.length]. rewrite IH. f_equal. lia.
Qed.

Lemma stem_of_tif p x :
  name p = x +:+ ".tif" -> x <> "" -> stem p = x.
Proof.
  intros Hn Hx. unfold stem. rewrite Hn, rfind_dot_tif, length_append.
  cbn [String.length Nat.add].
  assert (0 < String.length x)%nat by (destruct x; [congruence | cbn; lia]).
  replace (0 <? String.length x)%nat with true by (symmetry; apply Nat.ltb_lt; lia).
  replace (String.length x <? String.length x + 4 - 1)%nat with true
    by (symmetry; apply Nat.ltb_lt; lia).
  apply take_string_app.
Qed.

(** X15. For a path whose base name is [x ++ ".tif"] with [x] not empty,
    the two drivers agree on what depends on the file name: the figure is
    named [x ++ "_seg.png"] by both ([Path(fname).stem] in the batch script,
    [basename[:-4]] in the single-folder script), and seedling, z-slice and
    channel are the same whether [parse_filename] gets the full path or the
    base name; with the base name, the "filename" field is the base name. *)
Theorem drivers_agree_on_file_name (fname x k : string) :
  basename fname = x +:+ ".tif" ->
  x <> "" ->
  k = "seedling" \/ k = "zslice" \/ k = "channel" ->
  stem (mkPath fname) = x /\
  drop_last 4 (basename fname) = x /\
  parse_filename (basename fname) !! k = parse_filename fname !! k /\
  parse_filename (basename fname) !! "filename" = Some (VStr (basename fname)).
Proof.
  intros Hb Hx Hk.
  assert (Hkeep : keep_segment (basename fname) = true).
  { rewrite Hb. destruct x as [|c x]; [congruence|]. unfold keep_segment.
    change (String c x +:+ ".tif") with (String c (x +:+ ".tif")).
    cbn [String.eqb negb andb].
    destruct x as [|d x]; [|change (String d x +:+ ".tif") with (String d (x +:+ ".tif"))];
      cbn; destruct (Ascii.eqb c "."); reflexivity. }
  assert (Hname : name (mkPath fname) = basename fname) by apply name_is_basename, Hkeep.
  assert (Hname' : name (mkPath (basename fname)) = basename fname).
  { rewrite mkPath_basename by exact Hkeep. reflexivity. }
  split; [apply stem_of_tif; [rewrite Hname; exact Hb | exact Hx]|].
  split.
  { rewrite Hb. change 4%nat with (String.length ".tif"). apply drop_last_app. }
  split.
  - destruct (parse_filename_numbers (basename fname)) as (Hs1 & Hz1 & Hc1).
    destruct (parse_filename_numbers fname) as (Hs2 & Hz2 & Hc2).
    rewrite Hname' in Hs1, Hz1, Hc1. rewrite Hname in Hs2, Hz2, Hc2.
    destruct Hk as [-> | [-> | ->]]; congruence.
  - destruct (parse_filename_lookup (basename fname)) as (Hf & _).
    rewrite Hf, mkPath_basename by exact Hkeep. unfold str. cbn [root tail join].
    change ("" +:+ basename fname) with (basename fname).
    destruct (String.eqb_spec (basename fname) "") as [E|_]; [|reflexivity].
    rewrite E in Hkeep. vm_compute in Hkeep. discriminate Hkeep.
Qed.

Lemma drivers_agree_on_file_name_witness :
  basename "plate/h2b_seedling3_z2c1.tif" = "h2b_seedling3_z2c1" +:+ ".tif" /\
  "h2b_seedling3_z2c1" <> "" /\
  stem (mkPath "plate/h2b_seedling3_z2c1.tif") = "h2b_seedling3_z2c1" /\
  drop_last 4 (basename "plate/h2b_seedling3_z2c1.tif") = "h2b_seedling3_z2c1".
Proof.
  assert (Hb : basename "plate/h2b_seedling3_z2c1.tif" = "h2b_seedling3_z2c1" +:+ ".tif")
    by (vm_compute; reflexivity).
  assert (Hx : "h2b_seedling3_z2c1" <> "") by discriminate.
  split; [exact Hb|]. split; [exact Hx|].
  destruct (drivers_agree_on_file_name "plate/h2b_seedling3_z2c1.tif"
              "h2b_seedling3_z2c1" "seedling" Hb Hx ltac:(left; reflexivity))
    as (H1 & H2 & _).
  split; [exact H1 | exact H2].
Defined.

Section ScriptFacts.

Variable undef_cast : spec_float -> Z.
Variable imread : string -> imread_result.
Variable threshold_local : grid Z -> list spec_float.
Variable binary_closing binary_opening : grid bool -> nat -> grid bool.
Variable visualize :
  ndarray -> grid bool -> grid nat -> list measurement -> string -> result unit.
Variable rank_error : ndarray -> exn.
Variable output_folder : string.

Local Abbreviation run_image :=
  (process_image undef_cast imread threshold_local binary_closing
     binary_opening visualize rank_error output_folder).
Local Abbreviation run_images :=
  (process_images undef_cast imread threshold_local binary_closing
     binary_opening visualize rank_error output_folder).
Local Abbreviation lines_of := (image_lines undef_cast imread).

Lemma process_image_lines st fname :
  exists m, out_log (run_image st fname) = out_log st ++ lines_of fname m /\
            outcome_of fname m /\
            (load_tif undef_cast imread fname = None ->
             m = SkippedLoad fname /\
             out_sink (run_image st fname) = out_sink st /\
             out_pngs (run_image st fname) = out_pngs st).
Proof.
  unfold process_image, outcome_of, image_lines.
  destruct (load_tif undef_cast imread fname) as [img|].
  2:{ eexists. cbn. rewrite <- !app_assoc. split; [reflexivity|]. split; eauto. }
  destruct (grid_of_ndarray img) as [image|].
  2:{ eexists. cbn. rewrite <- !app_assoc. split; [reflexivity|].
      split; [eauto | discriminate]. }
  destruct (segment_and_measure_spots _ _ _ _ _ _ _) as [[sp mask]|e].
  2:{ eexists. cbn. rewrite <- !app_assoc. split; [reflexivity|].
      split; [eauto | discriminate]. }
  destruct (store_measurements_in_sql _ _ _) as [st' [u|e]].
  2:{ eexists. cbn. rewrite <- !app_assoc. split; [reflexivity|].
      split; [eauto | discriminate]. }
  destruct (visualize _ _ _ _ _) as [u'|e];
    eexists; cbn; rewrite <- !app_assoc;
    (split; [reflexivity|]); (split; [eauto | discriminate]).
Qed.


End ScriptFacts.
